(** * Markdown Beautiful Editor: the webview styling engine, verified

    A shallow embedding of the webview script of the extension (the
    module that defines [markdownToStyledHtml], [styleLine],
    [styleInline], [escapeHtml], [extractMarkdown], the cursor mapper
    [saveCursorPosition] / [restoreCursorPosition], [LINE_TYPES] /
    [getLineType], [applyInlineFormat] and [applyLineType]).

    JavaScript strings are sequences of UTF-16 code units; they are
    modelled as lists of [N].  Regular expressions are kept as syntax
    trees and run by a small backtracking matcher that follows the
    ECMAScript matching order (leftmost match, greedy and lazy
    quantifiers, alternatives tried left to right), so every pattern of
    the source is transcribed rather than re-implemented by hand.  In the comments
    patterns are quoted with blanks between their tokens. *)

From Stdlib Require Import List NArith Arith Bool Lia String Ascii DecimalNat.
Import ListNotations.

Set Implicit Arguments.

(* [String] is loaded for literals only; [length] is the one of lists. *)
Abbreviation length := Datatypes.length.

(** ** Code units and string helpers *)

Definition cu := N.
Definition str := list cu.

Definition ch (a : ascii) : cu := N_of_ascii a.
Arguments ch a%_char.

(** A source literal without double quotes or non-ASCII characters. *)
Definition js (s : string) : str := List.map N_of_ascii (list_ascii_of_string s).
Arguments js s%_string.

(** The double quote, kept apart so that templates can be written as
    concatenations. *)
Definition dq : str := [34%N].

Definition cu_eqb (a b : cu) : bool := N.eqb a b.
Arguments cu_eqb (a b)%_N.

Fixpoint str_eqb (a b : str) : bool :=
  match a, b with
  | [], [] => true
  | x :: a', y :: b' => cu_eqb x y && str_eqb a' b'
  | _, _ => false
  end.

(** [String.prototype.startsWith] *)
Fixpoint startsWith (s p : str) : bool :=
  match p, s with
  | [], _ => true
  | y :: p', x :: s' => cu_eqb x y && startsWith s' p'
  | _ :: _, [] => false
  end.

(** [String.prototype.endsWith] *)
Definition endsWith (s p : str) : bool := startsWith (rev s) (rev p).

(** [String.prototype.includes] *)
Fixpoint includes (s p : str) : bool :=
  startsWith s p ||
  match s with
  | [] => false
  | _ :: s' => includes s' p
  end.

(** [String.prototype.split] with a one code unit separator: the result
    always has at least one element. *)
Fixpoint split (sep : cu) (s : str) : list str :=
  match s with
  | [] => [[]]
  | c :: s' =>
      if cu_eqb c sep then [] :: split sep s'
      else match split sep s' with
           | [] => [[c]]
           | l :: ls => (c :: l) :: ls
           end
  end.

(** [Array.prototype.join] *)
Fixpoint join (sep : str) (l : list str) : str :=
  match l with
  | [] => []
  | [x] => x
  | x :: l' => x ++ sep ++ join sep l'
  end.

Definition LF : cu := 10%N.

(** Decimal rendering of a number, as a template literal does. *)
Fixpoint uint_digits (d : Decimal.uint) : str :=
  match d with
  | Decimal.Nil => []
  | Decimal.D0 d => 48%N :: uint_digits d
  | Decimal.D1 d => 49%N :: uint_digits d
  | Decimal.D2 d => 50%N :: uint_digits d
  | Decimal.D3 d => 51%N :: uint_digits d
  | Decimal.D4 d => 52%N :: uint_digits d
  | Decimal.D5 d => 53%N :: uint_digits d
  | Decimal.D6 d => 54%N :: uint_digits d
  | Decimal.D7 d => 55%N :: uint_digits d
  | Decimal.D8 d => 56%N :: uint_digits d
  | Decimal.D9 d => 57%N :: uint_digits d
  end.

Definition decimal (n : nat) : str := uint_digits (Nat.to_uint n).

(** ** Character classes of the ECMAScript regular expression syntax *)

(** LineTerminator: LF, CR, LS, PS. *)
Definition isLineTerminator (c : cu) : bool :=
  cu_eqb c 10 || cu_eqb c 13 || cu_eqb c 8232 || cu_eqb c 8233.

(** [\s]: WhiteSpace and LineTerminator. *)
Definition isSpace (c : cu) : bool :=
  cu_eqb c 9 || cu_eqb c 10 || cu_eqb c 11 || cu_eqb c 12 || cu_eqb c 13
  || cu_eqb c 32 || cu_eqb c 160 || cu_eqb c 5760
  || (N.leb 8192 c && N.leb c 8202)
  || cu_eqb c 8232 || cu_eqb c 8233 || cu_eqb c 8239 || cu_eqb c 8287
  || cu_eqb c 12288 || cu_eqb c 65279.

(** [\d] *)
Definition isDigit (c : cu) : bool := N.leb 48 c && N.leb c 57.

Definition isUpper (c : cu) : bool := N.leb 65 c && N.leb c 90.
Definition isLower (c : cu) : bool := N.leb 97 c && N.leb c 122.

(** [[a-zA-Z0-9]] *)
Definition isAlnum (c : cu) : bool := isLower c || isUpper c || isDigit c.

(** [\w] *)
Definition isWord (c : cu) : bool := isAlnum c || cu_eqb c 95.

(** [.] (no [s] flag): anything but a line terminator. *)
Definition isDot (c : cu) : bool := negb (isLineTerminator c).

Definition isCh (a : ascii) (c : cu) : bool := cu_eqb c (ch a).
Arguments isCh a%_char c.

Definition notCh (a : ascii) (c : cu) : bool := negb (cu_eqb c (ch a)).
Arguments notCh a%_char c.

(** A letter under the [i] flag: for an ASCII letter the canonical form
    of a code unit of 128 or more never equals it, so only the two
    ASCII cases match. *)
Definition isCI (a : ascii) (c : cu) : bool :=
  let x := ch a in
  cu_eqb c x
  || (isUpper x && cu_eqb c (x + 32))
  || (isLower x && cu_eqb c (x - 32)).
Arguments isCI a%_char c.

Definition toUpperCase (s : str) : str :=
  List.map (fun c => if isLower c then (c - 32)%N else c) s.
Definition toLowerCase (s : str) : str :=
  List.map (fun c => if isUpper c then (c + 32)%N else c) s.

(** [String.prototype.trim], [trimEnd]: the stripped set is [\s]. *)
Fixpoint trimStart (s : str) : str :=
  match s with
  | c :: s' => if isSpace c then trimStart s' else s
  | [] => []
  end.
Definition trimEnd (s : str) : str := rev (trimStart (rev s)).
Definition trim (s : str) : str := trimEnd (trimStart s).

(** ** A backtracking matcher for the patterns of the source *)

Module Regex.

(** The fragment of the pattern syntax the source uses.  Every
    quantifier of the source ranges over a single character class. *)
Inductive re : Type :=
| Eps
| Chr (p : cu -> bool)
| Seq (a b : re)
| Alt (a b : re)
| Rep (greedy : bool) (lo : nat) (hi : option nat) (p : cu -> bool)
| Group (i : nat) (a : re)
| Bol
| Eol
| NotBehind (p : cu -> bool)
| NotAhead (p : cu -> bool).

Definition captures := list (nat * str).

(** The text of capture [i] ([$i]); empty when the group took no part. *)
Fixpoint cap (cs : captures) (i : nat) : str :=
  match cs with
  | [] => []
  | (j, s) :: cs' => if Nat.eqb i j then s else cap cs' i
  end.

Definition stop_here {R} (lo : nat) (k : str -> str -> option R)
    (pre rest : str) : option R :=
  match lo with
  | 0 => k pre rest
  | S _ => None
  end.

Definition can_take (hi : option nat) : bool :=
  match hi with
  | Some 0 => false
  | _ => true
  end.

(** A quantified character class.  [pre] is the text already
    consumed, most recent code unit first. *)
Fixpoint rep {R} (greedy : bool) (p : cu -> bool) (lo : nat) (hi : option nat)
    (pre rest : str) (k : str -> str -> option R) {struct rest} : option R :=
  match rest with
  | c :: rest' =>
      if p c && can_take hi then
        if greedy then
          match rep greedy p (pred lo) (option_map pred hi) (c :: pre) rest' k with
          | Some r => Some r
          | None => stop_here lo k pre rest
          end
        else
          match stop_here lo k pre rest with
          | Some r => Some r
          | None => rep greedy p (pred lo) (option_map pred hi) (c :: pre) rest' k
          end
      else stop_here lo k pre rest
  | [] => stop_here lo k pre rest
  end.

(** The text consumed between two matcher states. *)
Definition captured (pre pre' : str) : str :=
  rev (firstn (length pre' - length pre) pre').

(** Matching in continuation-passing style: [k] is the rest of the
    pattern, and a [None] from it makes the matcher backtrack. *)
Fixpoint mt {R} (r : re) (pre rest : str) (cs : captures)
    (k : str -> str -> captures -> option R) : option R :=
  match r with
  | Eps => k pre rest cs
  | Chr p =>
      match rest with
      | c :: rest' => if p c then k (c :: pre) rest' cs else None
      | [] => None
      end
  | Seq a b => mt a pre rest cs (fun pre' rest' cs' => mt b pre' rest' cs' k)
  | Alt a b =>
      match mt a pre rest cs k with
      | Some x => Some x
      | None => mt b pre rest cs k
      end
  | Rep g lo hi p => rep g p lo hi pre rest (fun pre' rest' => k pre' rest' cs)
  | Group i a =>
      mt a pre rest cs (fun pre' rest' cs' => k pre' rest' ((i, captured pre pre') :: cs'))
  | Bol => match pre with [] => k pre rest cs | _ :: _ => None end
  | Eol => match rest with [] => k pre rest cs | _ :: _ => None end
  | NotBehind p =>
      match pre with
      | c :: _ => if p c then None else k pre rest cs
      | [] => k pre rest cs
      end
  | NotAhead p =>
      match rest with
      | c :: _ => if p c then None else k pre rest cs
      | [] => k pre rest cs
      end
  end.

(** One attempt at the current position: the state after the match
    and the captures. *)
Definition exec (r : re) (pre rest : str) : option (str * str * captures) :=
  mt r pre rest [] (fun pre' rest' cs => Some (pre', rest', cs)).

(** The leftmost match at or after the current position: the text
    before it (reversed), the text after it, and the captures. *)
Fixpoint search_from (r : re) (pre rest : str) : option (str * str * captures) :=
  match exec r pre rest with
  | Some (_, rest', cs) => Some (pre, rest', cs)
  | None =>
      match rest with
      | [] => None
      | c :: rest' => search_from r (c :: pre) rest'
      end
  end.

(** [s.match(r)] for a pattern without the [g] flag. *)
Definition rmatch (r : re) (s : str) : option captures :=
  match search_from r [] s with
  | Some (_, _, cs) => Some cs
  | None => None
  end.

(** [r.test(s)] *)
Definition test (r : re) (s : str) : bool :=
  match rmatch r s with Some _ => true | None => false end.

(** [s.replace(r, f)] for a pattern without the [g] flag. *)
Definition replace_first (r : re) (f : captures -> str) (s : str) : str :=
  match search_from r [] s with
  | Some (before, after, cs) => rev before ++ f cs ++ after
  | None => s
  end.

(** [s.replace(r, f)] for a pattern with the [g] flag.  [skip] counts
    the code units of the current match still to be passed over. *)
Fixpoint replace_all_from (r : re) (f : captures -> str) (pre rest : str)
    (skip : nat) {struct rest} : str :=
  match rest with
  | [] =>
      match skip with
      | 0 => match exec r pre [] with
             | Some (_, _, cs) => f cs
             | None => []
             end
      | S _ => []
      end
  | c :: rest' =>
      match skip with
      | S n => replace_all_from r f (c :: pre) rest' n
      | 0 =>
          match exec r pre rest with
          | Some (pre', _, cs) =>
              match length pre' - length pre with
              | 0 => f cs ++ c :: replace_all_from r f (c :: pre) rest' 0
              | S n => f cs ++ replace_all_from r f (c :: pre) rest' n
              end
          | None => c :: replace_all_from r f (c :: pre) rest' 0
          end
      end
  end.

Definition replace_all (r : re) (f : captures -> str) (s : str) : str :=
  replace_all_from r f [] s 0.

(** The same with a callback that reads and updates a state and may
    raise ([None]). *)
Fixpoint replace_all_with_from {St} (r : re)
    (f : St -> captures -> option (str * St)) (st : St) (pre rest : str)
    (skip : nat) {struct rest} : option (str * St) :=
  match rest with
  | [] =>
      match skip with
      | 0 => match exec r pre [] with
             | Some (_, _, cs) => f st cs
             | None => Some ([], st)
             end
      | S _ => Some ([], st)
      end
  | c :: rest' =>
      match skip with
      | S n => replace_all_with_from r f st (c :: pre) rest' n
      | 0 =>
          match exec r pre rest with
          | Some (pre', _, cs) =>
              match f st cs with
              | None => None
              | Some (out, st') =>
                  match length pre' - length pre with
                  | 0 =>
                      match replace_all_with_from r f st' (c :: pre) rest' 0 with
                      | Some (o, st'') => Some (out ++ c :: o, st'')
                      | None => None
                      end
                  | S n =>
                      match replace_all_with_from r f st' (c :: pre) rest' n with
                      | Some (o, st'') => Some (out ++ o, st'')
                      | None => None
                      end
                  end
              end
          | None =>
              match replace_all_with_from r f st (c :: pre) rest' 0 with
              | Some (o, st') => Some (c :: o, st')
              | None => None
              end
          end
      end
  end.

Definition replace_all_with {St} (r : re)
    (f : St -> captures -> option (str * St)) (st : St) (s : str)
    : option (str * St) :=
  replace_all_with_from r f st [] s 0.

(** The declarative reading of a pattern: [ms r pre m rest cs cs']
    says that [r], started after the text [pre] (reversed) on the
    input [m ++ rest], can consume exactly [m], turning the captures
    [cs] into [cs'].  It says nothing on which match comes first. *)
Inductive ms : re -> str -> str -> str -> captures -> captures -> Prop :=
| ms_eps : forall pre rest cs, ms Eps pre [] rest cs cs
| ms_chr : forall p c pre rest cs, p c = true -> ms (Chr p) pre [c] rest cs cs
| ms_seq : forall a b pre m1 m2 rest cs cs1 cs2,
    ms a pre m1 (m2 ++ rest) cs cs1 ->
    ms b (rev m1 ++ pre) m2 rest cs1 cs2 ->
    ms (Seq a b) pre (m1 ++ m2) rest cs cs2
| ms_alt_l : forall a b pre m rest cs cs',
    ms a pre m rest cs cs' -> ms (Alt a b) pre m rest cs cs'
| ms_alt_r : forall a b pre m rest cs cs',
    ms b pre m rest cs cs' -> ms (Alt a b) pre m rest cs cs'
| ms_rep : forall g lo hi p pre m rest cs,
    forallb p m = true ->
    lo <= length m ->
    (forall h, hi = Some h -> length m <= h) ->
    ms (Rep g lo hi p) pre m rest cs cs
| ms_group : forall i a pre m rest cs cs',
    ms a pre m rest cs cs' -> ms (Group i a) pre m rest cs ((i, m) :: cs')
| ms_bol : forall rest cs, ms Bol [] [] rest cs cs
| ms_eol : forall pre cs, ms Eol pre [] [] cs cs
| ms_notbehind : forall p pre rest cs,
    match pre with c :: _ => p c = false | [] => True end ->
    ms (NotBehind p) pre [] rest cs cs
| ms_notahead : forall p pre rest cs,
    match rest with c :: _ => p c = false | [] => True end ->
    ms (NotAhead p) pre [] rest cs cs.

(** Pattern-building helpers. *)
Fixpoint lit (s : str) : re :=
  match s with
  | [] => Eps
  | [c] => Chr (cu_eqb c)
  | c :: s' => Seq (Chr (cu_eqb c)) (lit s')
  end.

Fixpoint seqs (l : list re) : re :=
  match l with
  | [] => Eps
  | [r] => r
  | r :: l' => Seq r (seqs l')
  end.

Fixpoint alts (l : list re) : re :=
  match l with
  | [] => Eps
  | [r] => r
  | r :: l' => Alt r (alts l')
  end.

Definition star (p : cu -> bool) : re := Rep true 0 None p.
Definition plus (p : cu -> bool) : re := Rep true 1 None p.
Definition opt (p : cu -> bool) : re := Rep true 0 (Some 1) p.
Definition lazy_plus (p : cu -> bool) : re := Rep false 1 None p.
Definition at_least (n : nat) (p : cu -> bool) : re := Rep true n None p.
Definition between (lo hi : nat) (p : cu -> bool) : re := Rep true lo (Some hi) p.

End Regex.

Import Regex.

(** ** Error-raising computations

    [None] stands for a raised exception (a [TypeError] or a DOM
    exception); the source has no handler on the paths modelled here. *)

Definition bind {A B} (x : option A) (f : A -> option B) : option B :=
  match x with
  | Some a => f a
  | None => None
  end.

Notation "x <- c ;; k" := (bind c (fun x => k))
  (at level 61, c at next level, right associativity).

Fixpoint mapM {A B} (f : A -> option B) (l : list A) : option (list B) :=
  match l with
  | [] => Some []
  | a :: l' =>
      b <- f a ;;
      bs <- mapM f l' ;;
      Some (b :: bs)
  end.

(** ** Markup templates *)

Definition q (s : string) : str := dq ++ js s ++ dq.
Arguments q s%_string.

(** A [span] element of class [cls] around [body]. *)
Definition span (cls : string) (body : str) : str :=
  js "<span class=" ++ q cls ++ js ">" ++ body ++ js "</span>".
Arguments span cls%_string body.

(** A [span] of class [md-syntax], the de-emphasised syntax characters. *)
Definition syn (body : str) : str := span "md-syntax" body.

(** [<tag>body</tag>] *)
Definition tagged (tag : string) (body : str) : str :=
  js "<" ++ js tag ++ js ">" ++ body ++ js "</" ++ js tag ++ js ">".
Arguments tagged tag%_string body.

(** ** The Escaper *)

Definition replace_char (c : cu) (by_ : str) (s : str) : str :=
  flat_map (fun x => if cu_eqb x c then by_ else [x]) s.

(** [escapeHtml]: five global replacements, ampersand first. *)
Definition escapeHtml (text : str) : str :=
  replace_char (ch "'") (js "&#39;")
    (replace_char 34%N (js "&quot;")
      (replace_char (ch ">") (js "&gt;")
        (replace_char (ch "<") (js "&lt;")
          (replace_char (ch "&") (js "&amp;") text)))).

(** ** The Inline Styler *)

(** ['\u0000ESC\u0000'] *)
Definition ESCAPE_PLACEHOLDER : str := 0%N :: js "ESC" ++ [0%N].
Definition ASTERISK : cu := 1%N.
Definition UNDERSCORE : cu := 2%N.

(** The class [[*_`\[\]()#+-\.!\\]]; [+-\.] is the range from [+] to [.]. *)
Definition isEscapable (c : cu) : bool :=
  isCh "*" c || isCh "_" c || isCh "`" c || isCh "[" c || isCh "]" c
  || isCh "(" c || isCh ")" c || isCh "#" c
  || (N.leb (ch "+") c && N.leb c (ch "."))
  || isCh "!" c || isCh "\" c.

(** Pattern (g): [\\ ( [*_`\[\]()#+-\.!\\] )] *)
Definition escapeRe : re := Seq (Chr (isCh "\")) (Group 1 (Chr isEscapable)).

(** Pattern (g): [! \[ ( [^\]]* ) \] \( ( [^)]+ ) \)] *)
Definition imageRe : re :=
  seqs [Chr (isCh "!"); Chr (isCh "["); Group 1 (star (notCh "]")); Chr (isCh "]");
        Chr (isCh "("); Group 2 (plus (notCh ")")); Chr (isCh ")")].

(** Pattern (g): [\[ \^ ( [^\]]+ ) \]] *)
Definition footnoteRe : re :=
  seqs [Chr (isCh "["); Chr (isCh "^"); Group 1 (plus (notCh "]")); Chr (isCh "]")].

(** Pattern (g): [\[ ( [^\]]+ ) \] \( ( [^)]+ ) \)] *)
Definition linkRe : re :=
  seqs [Chr (isCh "["); Group 1 (plus (notCh "]")); Chr (isCh "]");
        Chr (isCh "("); Group 2 (plus (notCh ")")); Chr (isCh ")")].

(** Pattern (g): [\*\*\* ( .+? ) \*\*\*] *)
Definition boldItalicRe : re :=
  seqs [lit (js "***"); Group 1 (lazy_plus isDot); lit (js "***")].

(** Pattern (g): [\*\* ( .+? ) \*\*] *)
Definition boldRe : re :=
  seqs [lit (js "**"); Group 1 (lazy_plus isDot); lit (js "**")].

(** Pattern (g): [(?<![a-zA-Z0-9]) __ ( .+? ) __ (?![a-zA-Z0-9])] *)
Definition boldUnderscoreRe : re :=
  seqs [NotBehind isAlnum; lit (js "__"); Group 1 (lazy_plus isDot); lit (js "__");
        NotAhead isAlnum].

(** Pattern (g): [(?<! \* ) \* ( [^*]+ ) \* (?! \* )] *)
Definition italicRe : re :=
  seqs [NotBehind (isCh "*"); Chr (isCh "*"); Group 1 (plus (notCh "*"));
        Chr (isCh "*"); NotAhead (isCh "*")].

(** Pattern (g): [(?<!_) _ ( [^_]+ ) _ (?!_)] *)
Definition italicUnderscoreRe : re :=
  seqs [NotBehind (isCh "_"); Chr (isCh "_"); Group 1 (plus (notCh "_"));
        Chr (isCh "_"); NotAhead (isCh "_")].

(** Pattern (g): [` ( [^`]+ ) `] *)
Definition codeRe : re :=
  seqs [Chr (isCh "`"); Group 1 (plus (notCh "`")); Chr (isCh "`")].

(** Pattern (g): [\$ ( [^$]+ ) \$] *)
Definition mathRe : re :=
  seqs [Chr (isCh "$"); Group 1 (plus (notCh "$")); Chr (isCh "$")].

(** Pattern (g): [~~ ( [^~]+ ) ~~] *)
Definition strikeRe : re :=
  seqs [lit (js "~~"); Group 1 (plus (notCh "~")); lit (js "~~")].

(** Pattern (g): the placeholder, [( \d+ )], the placeholder. *)
Definition restoreRe : re :=
  seqs [lit ESCAPE_PLACEHOLDER; Group 1 (plus isDigit); lit ESCAPE_PLACEHOLDER].

(** [parseInt(s, 10)] on a run of decimal digits. *)
Definition parseInt (s : str) : N :=
  fold_left (fun acc c => (acc * 10 + (c - 48))%N) s 0%N.

(** The callback of the first replacement: push the escaped character
    and leave a numbered placeholder. *)
Definition extractEscape (escapedChars : list str) (cs : captures)
    : option (str * list str) :=
  let escapedChars' := escapedChars ++ [cap cs 1] in
  Some (ESCAPE_PLACEHOLDER ++ decimal (length escapedChars' - 1) ++ ESCAPE_PLACEHOLDER,
        escapedChars').

(** The callback of the last replacement.  An index outside
    [escapedChars] yields [undefined], on which [escapeHtml] raises. *)
Definition restoreEscape (escapedChars : list str) (_ : unit) (cs : captures)
    : option (str * unit) :=
  match nth_error escapedChars (N.to_nat (parseInt (cap cs 1))) with
  | Some char => Some (span "md-escaped" (syn (js "\") ++ escapeHtml char), tt)
  | None => None
  end.

Definition styleImages : str -> str :=
  replace_all imageRe (fun cs =>
    span "md-image" (syn (js "![") ++ span "md-alt" (cap cs 1) ++ syn (js "](")
                     ++ span "md-url" (cap cs 2) ++ syn (js ")"))).

Definition styleFootnoteRefs : str -> str :=
  replace_all footnoteRe (fun cs =>
    span "md-footnote" (syn (js "[^") ++ cap cs 1 ++ syn (js "]"))).

Definition styleLinks : str -> str :=
  replace_all linkRe (fun cs =>
    span "md-link" (syn (js "[") ++ span "md-text" (cap cs 1) ++ syn (js "](")
                    ++ span "md-url" (cap cs 2) ++ syn (js ")"))).

Definition styleBoldItalic : str -> str :=
  replace_all boldItalicRe (fun cs =>
    span "md-bold-italic"
      (syn [ASTERISK; ASTERISK; ASTERISK]
       ++ tagged "strong" (tagged "em" (cap cs 1))
       ++ syn [ASTERISK; ASTERISK; ASTERISK])).

Definition styleBold : str -> str :=
  replace_all boldRe (fun cs =>
    span "md-bold" (syn [ASTERISK; ASTERISK] ++ tagged "strong" (cap cs 1)
                    ++ syn [ASTERISK; ASTERISK])).

Definition styleBoldUnderscore : str -> str :=
  replace_all boldUnderscoreRe (fun cs =>
    span "md-bold" (syn [UNDERSCORE; UNDERSCORE] ++ tagged "strong" (cap cs 1)
                    ++ syn [UNDERSCORE; UNDERSCORE])).

Definition styleItalic : str -> str :=
  replace_all italicRe (fun cs =>
    span "md-italic" (syn [ASTERISK] ++ tagged "em" (cap cs 1) ++ syn [ASTERISK])).

Definition styleItalicUnderscore : str -> str :=
  replace_all italicUnderscoreRe (fun cs =>
    span "md-italic" (syn [UNDERSCORE] ++ tagged "em" (cap cs 1) ++ syn [UNDERSCORE])).

Definition restoreMarkers (s : str) : str :=
  replace_all (Chr (cu_eqb UNDERSCORE)) (fun _ => js "_")
    (replace_all (Chr (cu_eqb ASTERISK)) (fun _ => js "*") s).

Definition styleCode : str -> str :=
  replace_all codeRe (fun cs =>
    span "md-code" (syn (js "`") ++ tagged "code" (cap cs 1) ++ syn (js "`"))).

Definition styleMath : str -> str :=
  replace_all mathRe (fun cs =>
    span "md-math" (syn (js "$") ++ span "md-math-content" (cap cs 1) ++ syn (js "$"))).

Definition styleStrike : str -> str :=
  replace_all strikeRe (fun cs =>
    span "md-strike" (syn (js "~~") ++ tagged "del" (cap cs 1) ++ syn (js "~~"))).

(** The five emphasis passes, in the order of the source. *)
Definition styleEmphasis (s : str) : str :=
  styleItalicUnderscore
    (styleItalic (styleBoldUnderscore (styleBold (styleBoldItalic s)))).

(** Everything between the extraction of the escapes and their
    restoration. *)
Definition styleSpans (s : str) : str :=
  styleStrike
    (styleMath
      (styleCode
        (restoreMarkers
          (styleEmphasis (styleLinks (styleFootnoteRefs (styleImages (escapeHtml s)))))))).

(** [styleInline] *)
Definition styleInline (text : str) : option str :=
  match text with
  | [] => Some []
  | _ :: _ =>
      r <- replace_all_with escapeRe extractEscape [] text ;;
      let '(result, escapedChars) := r in
      r' <- replace_all_with restoreRe (restoreEscape escapedChars) tt (styleSpans result) ;;
      Some (fst r')
  end.

(** ** The Line Classifier and block rendering *)

Fixpoint lit_ci (s : string) : re :=
  match s with
  | EmptyString => Eps
  | String a EmptyString => Chr (isCI a)
  | String a s' => Seq (Chr (isCI a)) (lit_ci s')
  end.

(** [(NOTE|TIP|IMPORTANT|WARNING|CAUTION)] under the [i] flag. *)
Definition alertTypes : re :=
  Group 1 (alts [lit_ci "NOTE"; lit_ci "TIP"; lit_ci "IMPORTANT";
                 lit_ci "WARNING"; lit_ci "CAUTION"]).

(** Pattern (i): [^ > \s* \[ ! (NOTE|TIP|IMPORTANT|WARNING|CAUTION) \] \s* $] *)
Definition alertHeaderRe : re :=
  seqs [Bol; Chr (isCh ">"); star isSpace; Chr (isCh "["); Chr (isCh "!"); alertTypes;
        Chr (isCh "]"); star isSpace; Eol].

(** Pattern (i): [^ > \s* \[ ! (NOTE|TIP|IMPORTANT|WARNING|CAUTION) \]] *)
Definition alertPrefixRe : re :=
  seqs [Bol; Chr (isCh ">"); star isSpace; Chr (isCh "["); Chr (isCh "!"); alertTypes;
        Chr (isCh "]")].

(** Pattern: [^ >+ \s?] *)
Definition quotePrefixRe : re := seqs [Bol; plus (isCh ">"); opt isSpace].

(** Pattern: [^ > \s?] *)
Definition alertContinuationRe : re := seqs [Bol; Chr (isCh ">"); opt isSpace].

(** Pattern: [^ ( >+ )] *)
Definition quoteDepthRe : re := seqs [Bol; Group 1 (plus (isCh ">"))].

(** [isBlockquoteLine] *)
Definition isBlockquoteLine (line : str) : bool :=
  if negb (test quotePrefixRe line) then false
  else if test alertPrefixRe line then false
  else true.

(** [getBlockquoteDepth] *)
Definition getBlockquoteDepth (line : str) : nat :=
  match rmatch quoteDepthRe line with
  | Some cs => length (cap cs 1)
  | None => 0
  end.

(** Pattern: [^ ( #{1,6} ) \s ( .* ) $] *)
Definition headingRe : re :=
  seqs [Bol; Group 1 (between 1 6 (isCh "#")); Chr isSpace; Group 2 (star isDot); Eol].

(** Pattern: [^ ( >+ ) \s? ( .* ) $] *)
Definition quoteRe : re :=
  seqs [Bol; Group 1 (plus (isCh ">")); opt isSpace; Group 2 (star isDot); Eol].

Definition isListMarker (c : cu) : bool := isCh "-" c || isCh "*" c || isCh "+" c.
Definition isCheck (c : cu) : bool := isCh " " c || isCh "x" c || isCh "X" c.

(** Pattern: [^ ( \s* ) ( [-*+] ) \s \[ ( [ xX] ) \] \s ( .* ) $] *)
Definition taskRe : re :=
  seqs [Bol; Group 1 (star isSpace); Group 2 (Chr isListMarker); Chr isSpace;
        Chr (isCh "["); Group 3 (Chr isCheck); Chr (isCh "]"); Chr isSpace;
        Group 4 (star isDot); Eol].

(** Pattern: [^ ( \s* ) ( [-*+] ) \s ( .* ) $] *)
Definition ulRe : re :=
  seqs [Bol; Group 1 (star isSpace); Group 2 (Chr isListMarker); Chr isSpace;
        Group 3 (star isDot); Eol].

(** Pattern: [^ ( \s* ) ( \d+ \. ) \s ( .* ) $] *)
Definition olRe : re :=
  seqs [Bol; Group 1 (star isSpace); Group 2 (Seq (plus isDigit) (Chr (isCh ".")));
        Chr isSpace; Group 3 (star isDot); Eol].

(** Pattern: [^ ( -{3,} | _{3,} | \*{3,} ) $] *)
Definition hrRe : re :=
  seqs [Bol; Group 1 (alts [at_least 3 (isCh "-"); at_least 3 (isCh "_");
                            at_least 3 (isCh "*")]); Eol].

(** Pattern: [^ \| ( .+ ) \| $] *)
Definition tableRe : re :=
  seqs [Bol; Chr (isCh "|"); Group 1 (plus isDot); Chr (isCh "|"); Eol].

(** Pattern: [^ [\s:-]+ $] *)
Definition tableSepRe : re :=
  seqs [Bol; plus (fun c => isSpace c || isCh ":" c || isCh "-" c); Eol].

(** Pattern: [^ : \s ( .* ) $] *)
Definition defRe : re :=
  seqs [Bol; Chr (isCh ":"); Chr isSpace; Group 1 (star isDot); Eol].

(** Pattern: [^ \[ \^ ( [^\]]+ ) \] : \s ( .* ) $] *)
Definition footnoteDefRe : re :=
  seqs [Bol; Chr (isCh "["); Chr (isCh "^"); Group 1 (plus (notCh "]"));
        Chr (isCh "]"); Chr (isCh ":"); Chr isSpace; Group 2 (star isDot); Eol].

(** [cells.slice(1, -1)] *)
Definition slice_1_m1 {A} (l : list A) : list A := removelast (tl l).

Definition styleCell (cell : str) : option str :=
  if test tableSepRe cell then Some (span "md-table-sep" (escapeHtml cell))
  else styleInline cell.

(** [styleLine] *)
Definition styleLine (line : str) : option str :=
  match line with
  | [] => Some []
  | _ :: _ =>
  match rmatch headingRe line with
  | Some m =>
      let level := length (cap m 1) in
      let hashes := cap m 1 in
      text <- styleInline (cap m 2) ;;
      Some (js "<span class=" ++ dq ++ js "md-heading md-h" ++ decimal level ++ dq ++ js ">"
            ++ syn hashes ++ js " " ++ text ++ js "</span>")
  | None =>
  match rmatch alertHeaderRe line with
  | Some m =>
      let alertType := toUpperCase (cap m 1) in
      Some (js "<span class=" ++ dq ++ js "md-alert md-alert-" ++ toLowerCase alertType ++ dq
            ++ js ">" ++ syn (js "&gt; [!") ++ span "md-alert-type" alertType
            ++ syn (js "]") ++ js "</span>")
  | None =>
  match rmatch quoteRe line with
  | Some m =>
      let markers := cap m 1 in
      let depth := length markers in
      content <- styleInline (cap m 2) ;;
      Some (js "<span class=" ++ dq ++ js "md-blockquote md-quote-" ++ decimal depth ++ dq
            ++ js ">" ++ syn (escapeHtml markers) ++ js " " ++ content ++ js "</span>")
  | None =>
  match rmatch taskRe line with
  | Some m =>
      let indent := cap m 1 in
      let marker := cap m 2 in
      let checked := str_eqb (toLowerCase (cap m 3)) (js "x") in
      content <- styleInline (cap m 4) ;;
      let checkClass := if checked then js "md-task-checked" else js "md-task-unchecked" in
      Some (escapeHtml indent ++ js "<span class=" ++ dq ++ js "md-task " ++ checkClass ++ dq
            ++ js ">" ++ syn (marker ++ js " [" ++ cap m 3 ++ js "]") ++ js " " ++ content
            ++ js "</span>")
  | None =>
  match rmatch ulRe line with
  | Some m =>
      content <- styleInline (cap m 3) ;;
      Some (escapeHtml (cap m 1) ++ span "md-list" (syn (cap m 2) ++ js " " ++ content))
  | None =>
  match rmatch olRe line with
  | Some m =>
      content <- styleInline (cap m 3) ;;
      Some (escapeHtml (cap m 1) ++ span "md-list" (syn (cap m 2) ++ js " " ++ content))
  | None =>
  if test hrRe (trim line) then
    Some (span "md-hr" (span "md-hr-text" (escapeHtml line)))
  else
  match rmatch tableRe line with
  | Some _ =>
      let cells := slice_1_m1 (split (ch "|") line) in
      styledCells <- mapM styleCell cells ;;
      Some (span "md-table" (syn (js "|") ++ join (syn (js "|")) styledCells ++ syn (js "|")))
  | None =>
  match rmatch defRe line with
  | Some m =>
      content <- styleInline (cap m 1) ;;
      Some (span "md-definition" (syn (js ":") ++ js " " ++ content))
  | None =>
  match rmatch footnoteDefRe line with
  | Some m =>
      content <- styleInline (cap m 2) ;;
      Some (span "md-footnote-def"
              (syn (js "[^" ++ escapeHtml (cap m 1) ++ js "]:") ++ js " " ++ content))
  | None => styleInline line
  end end end end end end end end end
  end.

(** ** Line types: [LINE_TYPES], [getLineType], the gutter *)

Inductive LineTypeName : Type :=
| paragraph | h1 | h2 | h3 | h4 | h5 | h6 | hr | task | ul | ol | alert | quote | code.

Record LineTypeDefinition : Type := {
  type : LineTypeName;
  pattern : re;
  icon : str;
  label : option string
}.

(** Pattern: [^ #{n} \s] *)
Definition headingPrefixRe (n : nat) : re :=
  seqs [Bol; between n n (isCh "#"); Chr isSpace].

(** Pattern: [^ ( -{3,} | \*{3,} | _{3,} ) \s* $] *)
Definition hrLineRe : re :=
  seqs [Bol; Group 1 (alts [at_least 3 (isCh "-"); at_least 3 (isCh "*");
                            at_least 3 (isCh "_")]); star isSpace; Eol].

(** Pattern: [^ [-*+] \s \[ [ xX] \]] *)
Definition taskPrefixRe : re :=
  seqs [Bol; Chr isListMarker; Chr isSpace; Chr (isCh "["); Chr isCheck; Chr (isCh "]")].

(** Pattern: [^ [-*+] \s] *)
Definition ulPrefixRe : re := seqs [Bol; Chr isListMarker; Chr isSpace].

(** Pattern: [^ \d+ \. \s] *)
Definition olPrefixRe : re := seqs [Bol; plus isDigit; Chr (isCh "."); Chr isSpace].

(** Pattern: [^ >] *)
Definition quoteStartRe : re := seqs [Bol; Chr (isCh ">")].

(** Pattern: [^ ```] *)
Definition fenceStartRe : re := seqs [Bol; lit (js "```")].

Definition LINE_TYPES : list LineTypeDefinition :=
  [ {| type := h1; pattern := headingPrefixRe 1; icon := [72; 8321]%N; label := Some "Heading 1"%string |};
    {| type := h2; pattern := headingPrefixRe 2; icon := [72; 8322]%N; label := Some "Heading 2"%string |};
    {| type := h3; pattern := headingPrefixRe 3; icon := [72; 8323]%N; label := Some "Heading 3"%string |};
    {| type := h4; pattern := headingPrefixRe 4; icon := [72; 8324]%N; label := Some "Heading 4"%string |};
    {| type := h5; pattern := headingPrefixRe 5; icon := [72; 8325]%N; label := Some "Heading 5"%string |};
    {| type := h6; pattern := headingPrefixRe 6; icon := [72; 8326]%N; label := Some "Heading 6"%string |};
    {| type := hr; pattern := hrLineRe; icon := [8213]%N; label := Some "Horizontal Rule"%string |};
    {| type := task; pattern := taskPrefixRe; icon := [9744]%N; label := Some "Task List"%string |};
    {| type := ul; pattern := ulPrefixRe; icon := [8226]%N; label := Some "Bullet List"%string |};
    {| type := ol; pattern := olPrefixRe; icon := js "1."; label := Some "Numbered List"%string |};
    {| type := alert; pattern := alertPrefixRe; icon := js "!"; label := None |};
    {| type := quote; pattern := quoteStartRe; icon := [10077]%N; label := Some "Quote"%string |};
    {| type := code; pattern := fenceStartRe; icon := js "{}"; label := Some "Code Block"%string |} ].

(** Pattern: [^] *)
Definition DEFAULT_LINE_TYPE : LineTypeDefinition :=
  {| type := paragraph; pattern := Bol; icon := js "T"; label := Some "Text"%string |}.

(** [getLineType]: the first definition whose pattern matches. *)
Fixpoint firstMatching (defs : list LineTypeDefinition) (line : str) : LineTypeDefinition :=
  match defs with
  | [] => DEFAULT_LINE_TYPE
  | def :: defs' => if test (pattern def) line then def else firstMatching defs' line
  end.

Definition getLineType (line : str) : LineTypeDefinition := firstMatching LINE_TYPES line.

Definition getLineTypeIcon (line : str) : str := icon (getLineType line).

(** [generateLinePrefix]: the gutter of a line, its number and its
    line-type button. *)
Definition generateLinePrefix (lineNumber : nat) (line : str) (isCodeContent : bool) : str :=
  if isCodeContent then
    js "<span class=" ++ q "line-prefix" ++ js " contenteditable=" ++ q "false" ++ js ">"
    ++ span "line-number" (decimal lineNumber)
    ++ span "line-type-btn disabled" [] ++ js "</span>"
  else
    js "<span class=" ++ q "line-prefix" ++ js " contenteditable=" ++ q "false" ++ js ">"
    ++ span "line-number" (decimal lineNumber)
    ++ js "<button type=" ++ q "button" ++ js " class=" ++ q "line-type-btn"
    ++ js " data-line=" ++ dq ++ decimal (lineNumber - 1) ++ dq
    ++ js " title=" ++ q "Change line type" ++ js ">"
    ++ getLineTypeIcon line ++ js "</button></span>".

(** ** The Document Renderer: [markdownToStyledHtml] *)

Record LineInfo : Type := {
  line : str;
  isBlockquote : bool;
  blockquoteDepth : nat;
  isAlertHeader : bool;
  isAlertContent : bool;
  isCodeFence : bool;
  isCodeContent : bool;
  alertType : option str
}.

Definition blankInfo (l : str) : LineInfo :=
  {| line := l; isBlockquote := false; blockquoteDepth := 0; isAlertHeader := false;
     isAlertContent := false; isCodeFence := false; isCodeContent := false;
     alertType := None |}.

Definition fence : str := js "```".

(** The cross-line state of the first pass. *)
Record RenderState : Type := {
  inCodeBlock : bool;
  currentAlertType : option str
}.

Definition initialState : RenderState :=
  {| inCodeBlock := false; currentAlertType := None |}.

(** A string used as a condition: the empty string is falsy. *)
Definition truthy (s : option str) : bool :=
  match s with
  | Some (_ :: _) => true
  | _ => false
  end.

(** One iteration of the first loop: the info pushed for [l] and the
    state after it. *)
Definition classifyLine (st : RenderState) (l : str) : LineInfo * RenderState :=
  let info := blankInfo l in
  if startsWith l fence then
    ({| line := l; isBlockquote := false; blockquoteDepth := 0; isAlertHeader := false;
        isAlertContent := false; isCodeFence := true; isCodeContent := false;
        alertType := None |},
     {| inCodeBlock := negb (inCodeBlock st); currentAlertType := None |})
  else if inCodeBlock st then
    ({| line := l; isBlockquote := false; blockquoteDepth := 0; isAlertHeader := false;
        isAlertContent := false; isCodeFence := false; isCodeContent := true;
        alertType := None |}, st)
  else
    match rmatch alertHeaderRe l with
    | Some m =>
        let t := toLowerCase (cap m 1) in
        ({| line := l; isBlockquote := false; blockquoteDepth := 0; isAlertHeader := true;
            isAlertContent := false; isCodeFence := false; isCodeContent := false;
            alertType := Some t |},
         {| inCodeBlock := inCodeBlock st; currentAlertType := Some t |})
    | None =>
        if truthy (currentAlertType st) && test alertContinuationRe l then
          ({| line := l; isBlockquote := false; blockquoteDepth := 0; isAlertHeader := false;
              isAlertContent := true; isCodeFence := false; isCodeContent := false;
              alertType := currentAlertType st |}, st)
        else
          let st' :=
            if negb (test alertContinuationRe l)
            then {| inCodeBlock := inCodeBlock st; currentAlertType := None |}
            else st in
          if isBlockquoteLine l then
            ({| line := l; isBlockquote := true; blockquoteDepth := getBlockquoteDepth l;
                isAlertHeader := false; isAlertContent := false; isCodeFence := false;
                isCodeContent := false; alertType := None |}, st')
          else (info, st')
    end.

(** The first loop. *)
Fixpoint firstPass (st : RenderState) (lines : list str) : list LineInfo :=
  match lines with
  | [] => []
  | l :: lines' =>
      let '(info, st') := classifyLine st l in
      info :: firstPass st' lines'
  end.

(** The state reached after a run of lines. *)
Fixpoint stateAfter (st : RenderState) (lines : list str) : RenderState :=
  match lines with
  | [] => st
  | l :: lines' => stateAfter (snd (classifyLine st l)) lines'
  end.

(** [!x?.field] for an optional neighbour. *)
Definition lacks (f : LineInfo -> bool) (x : option LineInfo) : bool :=
  match x with
  | Some i => negb (f i)
  | None => true
  end.

Definition div (classes : str) (prefix content : str) : str :=
  js "<div class=" ++ dq ++ classes ++ dq ++ js ">" ++ prefix
  ++ span "line-content" content ++ js "</div>".

Definition orBr (s : str) : str :=
  match s with
  | [] => js "<br>"
  | _ :: _ => s
  end.

(** One iteration of the second loop: the block pushed for line [i]
    and the fence state after it. *)
Definition renderBlock (i : nat) (inCode : bool) (prevInfo : option LineInfo)
    (info : LineInfo) (nextInfo : option LineInfo) : option (str * bool) :=
  let lineNum := i + 1 in
  if isCodeFence info then
    let prefix := generateLinePrefix lineNum (line info) false in
    if negb inCode then
      let lang := trim (skipn 3 (line info)) in
      Some (div (js "line code-fence code-start") prefix
              (span "code-inner" (fence ++ escapeHtml lang)), true)
    else
      Some (div (js "line code-fence code-end") prefix (span "code-inner" fence), false)
  else if isCodeContent info then
    let prefix := generateLinePrefix lineNum (line info) true in
    let content := escapeHtml (line info) in
    let classes := js "line code-content"
                   ++ match content with [] => js " empty-line" | _ :: _ => [] end in
    Some (div classes prefix (span "code-inner" (orBr content)), inCode)
  else
    let prefix := generateLinePrefix lineNum (line info) false in
    if isAlertHeader info then
      (* the pattern matched in the first pass, so the group is there *)
      let alertTypeU :=
        match rmatch alertHeaderRe (line info) with
        | Some m => toUpperCase (cap m 1)
        | None => []
        end in
      let isLast := lacks isAlertContent nextInfo in
      let classes := js "line md-alert md-alert-"
                     ++ match alertType info with Some t => t | None => js "null" end
                     ++ js " alert-first"
                     ++ (if isLast then js " alert-last alert-single" else []) in
      Some (div classes prefix
              (span "alert-inner" (syn (js "&gt; [!") ++ span "md-alert-type" alertTypeU
                                   ++ syn (js "]"))), inCode)
    else if isAlertContent info then
      let content := replace_first alertContinuationRe (fun _ => []) (line info) in
      styledContent <- styleInline content ;;
      let isLast := lacks isAlertContent nextInfo in
      let classes := js "line md-alert-content md-alert-"
                     ++ match alertType info with Some t => t | None => js "null" end
                     ++ (if isLast then js " alert-last" else []) in
      Some (div classes prefix
              (span "alert-inner" (syn (js "&gt;") ++ js " " ++ styledContent)), inCode)
    else if isBlockquote info then
      let isFirst := lacks isBlockquote prevInfo in
      let isLast := lacks isBlockquote nextInfo in
      let depth := Nat.min (blockquoteDepth info) 3 in
      let classes := js "line blockquote-line"
                     ++ (if isFirst then js " blockquote-first" else [])
                     ++ (if isLast then js " blockquote-last" else [])
                     ++ (if Nat.ltb 1 depth then js " blockquote-depth-" ++ decimal depth else []) in
      styledLine <- styleLine (line info) ;;
      Some (div classes prefix styledLine, inCode)
    else
      styledLine <- styleLine (line info) ;;
      let classes := js "line" ++ match styledLine with [] => js " empty-line" | _ :: _ => [] end in
      Some (div classes prefix (orBr styledLine), inCode).

(** The second loop. *)
Fixpoint secondPass (i : nat) (inCode : bool) (prevInfo : option LineInfo)
    (infos : list LineInfo) : option (list str) :=
  match infos with
  | [] => Some []
  | info :: infos' =>
      r <- renderBlock i inCode prevInfo info (hd_error infos') ;;
      let '(block, inCode') := r in
      blocks <- secondPass (S i) inCode' (Some info) infos' ;;
      Some (block :: blocks)
  end.

(** The array [htmlLines] at the end of [markdownToStyledHtml]. *)
Definition htmlLines (markdown : str) : option (list str) :=
  secondPass 0 false None (firstPass initialState (split LF markdown)).

Definition markdownToStyledHtml (markdown : str) : option str :=
  blocks <- htmlLines markdown ;;
  Some (List.concat blocks).

(** ** The editing surface: a model of the DOM the script works on

    [container.innerHTML = markup] hands the markup to the HTML parser
    of the host.  The model below covers the markup the renderer emits
    when its elements are properly nested: tags with double-quoted
    attributes, the void element [br], text with the five entities of
    [escapeHtml].  Markup outside this fragment is rejected ([None]). *)

Inductive node : Type :=
| Text (data : str)
| Element (tag : str) (attrs : list (str * str)) (childNodes : list node).

Definition path := list nat.

Inductive token : Type :=
| TText (data : str)
| TOpen (tag : str) (attrs : list (str * str))
| TClose (tag : str).

(** Character references, decoded in one left-to-right pass. *)
Fixpoint decodeEntities (s : str) (skip : nat) : str :=
  match s with
  | [] => []
  | c :: s' =>
      match skip with
      | S n => decodeEntities s' n
      | 0 =>
          if startsWith s (js "&amp;") then ch "&" :: decodeEntities s' 4
          else if startsWith s (js "&lt;") then ch "<" :: decodeEntities s' 3
          else if startsWith s (js "&gt;") then ch ">" :: decodeEntities s' 3
          else if startsWith s (js "&quot;") then 34%N :: decodeEntities s' 5
          else if startsWith s (js "&#39;") then ch "'" :: decodeEntities s' 4
          else c :: decodeEntities s' 0
      end
  end.

(** The pieces of a start tag between double quotes, paired up as
    attribute names and values. *)
Fixpoint pairAttrs (pieces : list str) : list (str * str) :=
  match pieces with
  | n :: v :: rest =>
      (trim (removelast n), v) :: pairAttrs rest
  | _ => []
  end.

Fixpoint takeName (s : str) : str :=
  match s with
  | c :: s' => if isSpace c then [] else c :: takeName s'
  | [] => []
  end.

Definition tagToken (raw : str) : token :=
  match raw with
  | c :: name => 
      if cu_eqb c (ch "/") then TClose name
      else
        let nm := takeName raw in
        TOpen nm (pairAttrs (split 34%N (skipn (length nm) raw)))
  | [] => TOpen [] []
  end.

Definition textToken (acc : str) : list token :=
  match acc with
  | [] => []
  | _ :: _ => [TText (decodeEntities (rev acc) 0)]
  end.

(** [acc] is the current text run or tag, most recent code unit first. *)
Fixpoint tokenize (s : str) (inTag : bool) (acc : str) : option (list token) :=
  match s with
  | [] => if inTag then None else Some (textToken acc)
  | c :: s' =>
      if inTag then
        if cu_eqb c (ch ">") then
          ts <- tokenize s' false [] ;;
          Some (tagToken (rev acc) :: ts)
        else tokenize s' true (c :: acc)
      else
        if cu_eqb c (ch "<") then
          ts <- tokenize s' true [] ;;
          Some (textToken acc ++ ts)
        else tokenize s' false (c :: acc)
  end.

Definition isVoid (tag : str) : bool := str_eqb tag (js "br").

(** Tree construction.  [stack] holds the open elements with the
    children each had collected when the next one opened; [cur] holds
    the children of the current element, most recent first. *)
Fixpoint build (ts : list token) (stack : list (str * list (str * str) * list node))
    (cur : list node) : option (list node) :=
  match ts with
  | [] =>
      match stack with
      | [] => Some (rev cur)
      | _ :: _ => None
      end
  | TText d :: ts' => build ts' stack (Text d :: cur)
  | TOpen tag attrs :: ts' =>
      if isVoid tag then build ts' stack (Element tag attrs [] :: cur)
      else build ts' ((tag, attrs, cur) :: stack) []
  | TClose tag :: ts' =>
      match stack with
      | (tag', attrs, parentCur) :: stack' =>
          if str_eqb tag tag'
          then build ts' stack' (Element tag' attrs (rev cur) :: parentCur)
          else None
      | [] => None
      end
  end.

(** The child nodes of a container after [container.innerHTML = markup]. *)
Definition setInnerHTML (markup : str) : option (list node) :=
  ts <- tokenize markup false [] ;;
  build ts [] [].

Section Traversals.
Variable A : Type.
Variable f : node -> list (path * A).
Variable g : node -> option (path * A).

(** Results of [f] on each child, in document order, each prefixed by
    the index of the child. *)
Fixpoint collectFrom (i : nat) (l : list node) : list (path * A) :=
  match l with
  | [] => []
  | c :: l' => List.map (fun pa => (i :: fst pa, snd pa)) (f c) ++ collectFrom (S i) l'
  end.

Fixpoint firstFrom (i : nat) (l : list node) : option (path * A) :=
  match l with
  | [] => None
  | c :: l' =>
      match g c with
      | Some (p, a) => Some (i :: p, a)
      | None => firstFrom (S i) l'
      end
  end.
End Traversals.

(** [Node.textContent] *)
Fixpoint textContent (n : node) : str :=
  match n with
  | Text d => d
  | Element _ _ cs => flat_map textContent cs
  end.

Fixpoint lookupAttr (name : str) (attrs : list (str * str)) : option str :=
  match attrs with
  | [] => None
  | (n, v) :: attrs' => if str_eqb n name then Some v else lookupAttr name attrs'
  end.

Fixpoint memStr (x : str) (l : list str) : bool :=
  match l with
  | [] => false
  | y :: l' => str_eqb x y || memStr x l'
  end.

(** [classList.contains] *)
Definition hasClass (cls : str) (attrs : list (str * str)) : bool :=
  match lookupAttr (js "class") attrs with
  | Some v => memStr cls (split (ch " ") v)
  | None => false
  end.

(** The first node of class [cls] among a node and its descendants, in
    document order, with its path. *)
Fixpoint findClass (cls : str) (n : node) : option (path * node) :=
  match n with
  | Text _ => None
  | Element _ attrs cs =>
      if hasClass cls attrs then Some ([], n)
      else firstFrom (findClass cls) 0 cs
  end.

(** [el.querySelector('.cls')]: descendants only. *)
Definition querySelector (cls : str) (el : node) : option (path * node) :=
  match el with
  | Text _ => None
  | Element _ _ cs => firstFrom (findClass cls) 0 cs
  end.

(** The text nodes below a node, in document order, with their paths. *)
Fixpoint textNodes (n : node) : list (path * str) :=
  match n with
  | Text d => [([], d)]
  | Element _ _ cs => collectFrom textNodes 0 cs
  end.

(** The nodes a [TreeWalker] with [SHOW_TEXT] rooted at [root] visits:
    the root itself is never returned. *)
Definition treeWalkerText (root : node) : list (path * str) :=
  match root with
  | Text _ => []
  | Element _ _ cs => collectFrom textNodes 0 cs
  end.

Definition isElement (n : node) : bool :=
  match n with
  | Element _ _ _ => true
  | Text _ => false
  end.

(** [container.children]: the element children, each with its index
    among the child nodes. *)
Fixpoint childrenFrom (i : nat) (l : list node) : list (nat * node) :=
  match l with
  | [] => []
  | n :: l' => (if isElement n then [(i, n)] else []) ++ childrenFrom (S i) l'
  end.

Definition children (container : list node) : list (nat * node) := childrenFrom 0 container.

(** The node reached from [n] along a path of child indices. *)
Fixpoint nodeAt (n : node) (p : path) : option node :=
  match p with
  | [] => Some n
  | i :: p' =>
      match n with
      | Element _ _ cs =>
          match nth_error cs i with
          | Some c => nodeAt c p'
          | None => None
          end
      | Text _ => None
      end
  end.

(** The node of the container at a path; the container itself is not
    one of them. *)
Definition resolve (l : list node) (p : path) : option node :=
  match p with
  | [] => None
  | i :: p' =>
      match nth_error l i with
      | Some c => nodeAt c p'
      | None => None
      end
  end.

(** The length a boundary point offset is checked against. *)
Definition nodeLength (n : node) : nat :=
  match n with
  | Text d => length d
  | Element _ _ cs => length cs
  end.

(** ** Extraction: [extractMarkdown] *)

Definition lineContentClass : str := js "line-content".

Definition extractLine (child : node) : str :=
  match querySelector lineContentClass child with
  | Some (_, lineContent) => textContent lineContent
  | None => textContent child
  end.

Definition extractMarkdown (container : list node) : str :=
  join [LF] (List.map (fun c => extractLine (snd c)) (children container)).

(** ** The Position Mapper *)

Record CursorPosition : Type := {
  lineIndex : nat;
  offset : nat
}.

(** The start of the selection range: a node of the container, by its
    path, and an offset in it. *)
Record Boundary : Type := {
  startContainer : path;
  startOffset : nat
}.

Fixpoint path_eqb (a b : path) : bool :=
  match a, b with
  | [], [] => true
  | x :: a', y :: b' => Nat.eqb x y && path_eqb a' b'
  | _, _ => false
  end.

(** The loop of [saveCursorPosition] over the text nodes of the line:
    [Some] when the start container is met. *)
Fixpoint countUntil (nodes : list (path * str)) (target : path) (off : nat)
    (charCount : nat) : option nat :=
  match nodes with
  | [] => None
  | (p, d) :: nodes' =>
      if path_eqb p target then Some (charCount + off)
      else countUntil nodes' target off (charCount + length d)
  end.

(** [saveCursorPosition]; [None] is the [null] result. *)
Definition saveCursorPosition (container : list node) (selection : option Boundary)
    : option CursorPosition :=
  match selection with
  | None => None
  | Some range =>
      match startContainer range with
      | [] => None
      | i :: p =>
          match nth_error container i with
          | Some (Element t a cs as lineEl) =>
              let lineIndex := length (children (firstn i container)) in
              let charCount :=
                match countUntil (treeWalkerText lineEl) p (startOffset range) 0 with
                | Some n => n
                | None => startOffset range
                end in
              Some {| lineIndex := lineIndex; offset := charCount |}
          | _ => None
          end
      end
  end.

(** The outcome of an operation on the selection. *)
Inductive outcome : Type :=
| Threw
| Unchanged
| Placed (b : Boundary).

(** [range.setStart(node, off)] followed by the replacement of the
    selection: an offset beyond the length of the node raises. *)
Definition setStart (container : list node) (p : path) (off : nat) : outcome :=
  match resolve container p with
  | Some n => if Nat.leb off (nodeLength n) then Placed {| startContainer := p; startOffset := off |}
              else Threw
  | None => Threw
  end.

(** The first loop of [restoreCursorPosition]: the text node in which
    the running count reaches the offset. *)
Fixpoint findTarget (nodes : list (path * str)) (off : nat) (charCount : nat)
    : option (path * str * nat) :=
  match nodes with
  | [] => None
  | (p, d) :: nodes' =>
      if Nat.leb off (charCount + length d) then Some (p, d, off - charCount)
      else findTarget nodes' off (charCount + length d)
  end.

(** [restoreCursorPosition] *)
Definition restoreCursorPosition (container : list node) (pos : CursorPosition) : outcome :=
  match nth_error (children container) (lineIndex pos) with
  | None => Unchanged
  | Some (i, lineEl) =>
      match querySelector lineContentClass lineEl with
      | None => Unchanged
      | Some (pc, lineContent) =>
          let nodes := treeWalkerText lineContent in
          match findTarget nodes (offset pos) 0 with
          | None =>
              match last (List.map Some nodes) None with
              | Some (p, d) => setStart container (i :: pc ++ p) (length d)
              | None => setStart container (i :: pc) 0
              end
          | Some (p, d, targetOffset) =>
              setStart container (i :: pc ++ p) (Nat.min targetOffset (length d))
          end
      end
  end.

(** ** The earlier revision of the cursor mapper

    [src/webview/main.ts] holds an earlier revision of the script, whose
    lines have no gutter.  Its [restoreCursorPosition] roots the walker
    at the line element and, when the walk finds no text node for the
    offset, puts the cursor into the first child of the content region,
    at offset 0 (the minimum of 0 and the length of the text of that
    child). *)
Module EarlierRevision.

Definition restoreCursorPosition (container : list node) (pos : CursorPosition) : outcome :=
  match nth_error (children container) (lineIndex pos) with
  | None => Unchanged
  | Some (i, lineEl) =>
      match findTarget (treeWalkerText lineEl) (offset pos) 0 with
      | Some (p, d, targetOffset) =>
          setStart container (i :: p) (Nat.min targetOffset (length d))
      | None =>
          match querySelector lineContentClass lineEl with
          | Some (pc, Element _ _ (firstChild :: _)) =>
              setStart container (i :: pc ++ [0])
                (Nat.min 0 (length (textContent firstChild)))
          | _ => Unchanged
          end
      end
  end.

End EarlierRevision.

(** ** The Inline-Format Toggler: [applyInlineFormat] *)

Inductive InlineFormat : Type :=
| Bold | Italic | Code | Strikethrough | Link | OtherFormat.

Inductive editResult : Type :=
| Raised
| NoEdit
| Edited (lines : list str) (cursor : CursorPosition).

(** [lines[i] = x] on an array: an index past the end extends the
    array, and the holes are joined as empty strings. *)
Fixpoint setAt (i : nat) (x : str) (l : list str) : list str :=
  match i, l with
  | 0, [] => [x]
  | 0, _ :: l' => x :: l'
  | S i', [] => [] :: setAt i' x []
  | S i', y :: l' => y :: setAt i' x l'
  end.

(** Pattern: [^ \[ ( .+ ) \] \( .+ \) $] *)
Definition wholeLinkRe : re :=
  seqs [Bol; Chr (isCh "["); Group 1 (plus isDot); Chr (isCh "]"); Chr (isCh "(");
        plus isDot; Chr (isCh ")"); Eol].

Definition formatMarker (format : InlineFormat) : option str :=
  match format with
  | Bold => Some (js "**")
  | Italic => Some (js "*")
  | Code => Some (js "`")
  | Strikethrough => Some (js "~~")
  | Link | OtherFormat => None
  end.

(** The body of [applyInlineFormat] once the selection is read from the
    surface: [lineIdx] is the line of the saved cursor, [selectionStart]
    the length of the content text before the selection and
    [selectedText] the text of the selection.  The result is the new
    line array and the cursor position handed to
    [restoreCursorPosition]. *)
Definition applyInlineFormat (lines : list str) (lineIdx selectionStart : nat)
    (selectedText : str) (format : InlineFormat) : editResult :=
  match selectedText with
  | [] => NoEdit
  | _ :: _ =>
  match nth_error lines lineIdx with
  | None => Raised
  | Some line =>
      let selectionEnd := selectionStart + length selectedText in
      match format with
      | OtherFormat => NoEdit
      | Link =>
          match rmatch wholeLinkRe selectedText with
          | Some m =>
              let newLine := firstn selectionStart line ++ cap m 1 ++ skipn selectionEnd line in
              Edited (setAt lineIdx newLine lines)
                {| lineIndex := lineIdx; offset := selectionStart + length (cap m 1) |}
          | None =>
              let wrappedLink := js "[" ++ selectedText ++ js "](url)" in
              let newLine := firstn selectionStart line ++ wrappedLink ++ skipn selectionEnd line in
              Edited (setAt lineIdx newLine lines)
                {| lineIndex := lineIdx; offset := selectionStart + length wrappedLink |}
          end
      | _ =>
          let prefix := match formatMarker format with Some m => m | None => [] end in
          let suffix := prefix in
          let beforeSelection := firstn selectionStart line in
          let afterSelection := skipn selectionEnd line in
          if endsWith beforeSelection prefix && startsWith afterSelection suffix then
            let newLine := firstn (selectionStart - length prefix) line ++ selectedText
                           ++ skipn (selectionEnd + length suffix) line in
            Edited (setAt lineIdx newLine lines)
              {| lineIndex := lineIdx;
                 offset := selectionStart - length prefix + length selectedText |}
          else if startsWith selectedText prefix && endsWith selectedText suffix
                  && Nat.ltb (length prefix + length suffix) (length selectedText) then
            let innerText := firstn (length selectedText - length suffix - length prefix)
                               (skipn (length prefix) selectedText) in
            let newLine := firstn selectionStart line ++ innerText ++ skipn selectionEnd line in
            Edited (setAt lineIdx newLine lines)
              {| lineIndex := lineIdx; offset := selectionStart + length innerText |}
          else
            let wrappedText := prefix ++ selectedText ++ suffix in
            let newLine := firstn selectionStart line ++ wrappedText ++ skipn selectionEnd line in
            Edited (setAt lineIdx newLine lines)
              {| lineIndex := lineIdx; offset := selectionStart + length wrappedText |}
      end
  end
  end.

(** ** The Line-Type Transformer: [applyLineType] *)

(** Pattern: [^ #{1,6} \s] *)
Definition stripHeadingRe : re := seqs [Bol; between 1 6 (isCh "#"); Chr isSpace].

(** Pattern: [^ [-*+] \s \[ [ xX] \] \s] *)
Definition stripTaskRe : re :=
  seqs [Bol; Chr isListMarker; Chr isSpace; Chr (isCh "["); Chr isCheck; Chr (isCh "]");
        Chr isSpace].

(** Pattern: [^ ``` \w* \s*] *)
Definition stripFenceRe : re := seqs [Bol; lit (js "```"); star isWord; star isSpace].

Definition remove (r : re) (s : str) : str := replace_first r (fun _ => []) s.

(** The seven replacements at the head of [applyLineType], each applied
    to the result of the one before. *)
Definition stripLinePrefix (l : str) : str :=
  remove stripFenceRe
    (remove quotePrefixRe
      (remove olPrefixRe
        (remove ulPrefixRe
          (remove stripTaskRe
            (remove stripHeadingRe
              (remove hrLineRe l)))))).

(** The [switch] of [applyLineType]. *)
Definition applyPrefix (t : LineTypeName) (l : str) : str :=
  match t with
  | paragraph => l
  | h1 => js "# " ++ l
  | h2 => js "## " ++ l
  | h3 => js "### " ++ l
  | h4 => js "#### " ++ l
  | h5 => js "##### " ++ l
  | h6 => js "###### " ++ l
  | hr => js "---"
  | ul => js "- " ++ l
  | ol => js "1. " ++ l
  | task => js "- [ ] " ++ l
  | quote => js "> " ++ l
  | code => js "```" ++ [LF] ++ l ++ [LF] ++ js "```"
  | alert => l
  end.

(** [applyLineType]: the new markdown text, from the line array read
    off the surface. *)
Definition applyLineType (lines : list str) (lineIdx : nat) (t : LineTypeName) : str :=
  let l := nth lineIdx lines [] in
  join [LF] (setAt lineIdx (applyPrefix t (stripLinePrefix l)) lines).

(** The stripping step as the specification words it: remove the match
    of the one pattern the classifier selects for the line, the first
    of [LINE_TYPES] that matches. *)
Definition stripByClassifier (l : str) : str :=
  remove (pattern (getLineType l)) l.

(** The canonical marker of a line type, for the types whose marker is
    a prefix of the line. *)
Definition canonicalMarker (t : LineTypeName) : option str :=
  match t with
  | h1 => Some (js "# ")
  | h2 => Some (js "## ")
  | h3 => Some (js "### ")
  | h4 => Some (js "#### ")
  | h5 => Some (js "##### ")
  | h6 => Some (js "###### ")
  | ul => Some (js "- ")
  | ol => Some (js "1. ")
  | task => Some (js "- [ ] ")
  | quote => Some (js "> ")
  | _ => None
  end.

(** ** Notions used to state the properties *)

(** A fence line toggles the code-block state. *)
Definition isFence (l : str) : bool := startsWith l fence.

(** The number of fence lines in a run of lines. *)
Definition fenceCount (ls : list str) : nat := length (filter isFence ls).

(** The info the first pass records for a line inside a code block. *)
Definition codeContentInfo (l : str) : LineInfo :=
  {| line := l; isBlockquote := false; blockquoteDepth := 0; isAlertHeader := false;
     isAlertContent := false; isCodeFence := false; isCodeContent := true;
     alertType := None |}.

(** The number of characters of the text of [n] that precede the
    boundary point [(p, off)], where [p] leads from [n] to the node of
    the boundary: the logical offset of the point in [n]. *)
Fixpoint charsBefore (n : node) (p : path) (off : nat) {struct p} : nat :=
  match p, n with
  | [], Text _ => off
  | [], Element _ _ cs => length (flat_map textContent (firstn off cs))
  | i :: p', Element _ _ cs =>
      length (flat_map textContent (firstn i cs))
      + match nth_error cs i with
        | Some c => charsBefore c p' off
        | None => 0
        end
  | _ :: _, Text _ => off
  end.

(** The text a walk over text nodes passes. *)
Definition texts (nodes : list (path * str)) : str := flat_map snd nodes.
Arguments texts : simpl never.

(** The editing surface after [container.innerHTML =
    markdownToStyledHtml(markdown)]. *)
Definition surface (markdown : str) : option (list node) :=
  markup <- markdownToStyledHtml markdown ;;
  setInnerHTML markup.

(** Render, then extract. *)
Definition roundTrip (markdown : str) : option str :=
  container <- surface markdown ;;
  Some (extractMarkdown container).

(** Trailing-whitespace normalisation, as the serialization tests of
    the repository define it: every line without its trailing blanks,
    and the whole trimmed. *)
Definition normalize (text : str) : str :=
  trim (join [LF] (List.map trimEnd (split LF text))).

(** The patterns of the stripping step of [applyLineType], in the
    order they are applied. *)
Definition stripPatterns : list re :=
  [hrLineRe; stripHeadingRe; stripTaskRe; ulPrefixRe; olPrefixRe; quotePrefixRe; stripFenceRe].

(** Text that carries no leading marker: none of the stripping
    patterns matches it. *)
Definition unmarked (text : str) : bool :=
  forallb (fun r => negb (test r text)) stripPatterns.

(** The replacement of the stripping step that belongs to a line
    type, by its place in [stripPatterns]: an alert line is a quote
    line to the stripping step, and a paragraph has no marker. *)
Definition stripStep (t : LineTypeName) : option nat :=
  match t with
  | hr => Some 0
  | h1 | h2 | h3 | h4 | h5 | h6 => Some 1
  | task => Some 2
  | ul => Some 3
  | ol => Some 4
  | alert | quote => Some 5
  | code => Some 6
  | paragraph => None
  end.

(** Text that none of the replacements after the [k]-th matches. *)
Definition unmarkedAfter (k : nat) (text : str) : bool :=
  forallb (fun r => negb (test r text)) (skipn (S k) stripPatterns).

(** ** The placeholders of [styleInline] *)

(** A numbered placeholder, as [extractEscape] writes it. *)
Definition placeholder (i : nat) : str :=
  ESCAPE_PLACEHOLDER ++ decimal i ++ ESCAPE_PLACEHOLDER.

(** The code units placeholders are made of. *)
Definition phChar (c : cu) : bool :=
  cu_eqb c 0 || cu_eqb c 69 || cu_eqb c 83 || cu_eqb c 67 || isDigit c.

(** Text free of the code unit U+0000, which [styleInline] reserves. *)
Definition nulFree (s : str) : bool := forallb (fun c => negb (cu_eqb c 0)) s.

(** Documents in which U+0000 occurs at most on fence lines and in the
    content of code blocks, the lines the renderer does not hand to
    the inline styler. *)
Definition nulFreeOutsideCode (markdown : str) : bool :=
  forallb (fun info => isCodeFence info || isCodeContent info || nulFree (line info))
    (firstPass initialState (split LF markdown)).

(** Text in which U+0000 only occurs in whole placeholders numbered
    below [n]. *)
Inductive placed (n : nat) : str -> Prop :=
| placed_nil : placed n []
| placed_char : forall c s, c <> 0%N -> placed n s -> placed n (c :: s)
| placed_holder : forall i s, i < n -> placed n s -> placed n (placeholder i ++ s).

(** ** Escaped emphasis markers *)

(** [styleInline] with its five emphasis passes left out. *)
Definition styleSpansPlain (s : str) : str :=
  styleStrike
    (styleMath
      (styleCode
        (restoreMarkers (styleLinks (styleFootnoteRefs (styleImages (escapeHtml s))))))).

Definition styleInlinePlain (text : str) : option str :=
  match text with
  | [] => Some []
  | _ :: _ =>
      r <- replace_all_with escapeRe extractEscape [] text ;;
      let '(result, escapedChars) := r in
      r' <- replace_all_with restoreRe (restoreEscape escapedChars) tt (styleSpansPlain result) ;;
      Some (fst r')
  end.

(** The code units that open and close emphasis. *)
Definition isMarker (c : cu) : bool := isCh "*" c || isCh "_" c.

(** Text whose emphasis markers are all escaped: once the escapes are
    taken out, no asterisk and no underscore is left. *)
Definition markersEscaped (text : str) : bool :=
  match replace_all_with escapeRe extractEscape [] text with
  | Some (result, _) => forallb (fun c => negb (isMarker c)) result
  | None => false
  end.

Definition noMarker (c : cu) : Prop := isMarker c = false.

(** ** Heading lines *)

(** A run of [n] hash signs. *)
Definition hashes (n : nat) : str := repeat (ch "#") n.

(** The line type of a heading of level [n]. *)
Definition headingOfLevel (n : nat) : LineTypeName :=
  match n with
  | 1 => h1 | 2 => h2 | 3 => h3 | 4 => h4 | 5 => h5 | 6 => h6
  | _ => paragraph
  end.

(** ** Line editing: the paste and key handlers of [initEditor]

    Each handler reads the cursor with [saveCursorPosition] and the
    text with [extractMarkdown], edits the array of lines, renders the
    joined text again and hands a position to [restoreCursorPosition].
    [enterAt], [backspaceAt], [deleteAt] and [pasteAt] are the bodies
    of the handlers from the two reads on: [markdown] is the extracted
    text, [cursorPos] the saved position ([None] for [null]).  The
    handlers themselves, [onEnter], [onBackspace], [onDelete] and
    [onPaste], follow them.  The outcome [KeyEdit] holds the text that
    is sent and rendered and the position handed to
    [restoreCursorPosition]. *)

Inductive keyOutcome : Type :=
| KeyRaised
| KeyDefault
| KeyIgnored
| KeyEdit (newMarkdown : str) (cursor : option CursorPosition).

(** The [Enter] branch of the [keydown] handler. *)
Definition enterAt (markdown : str) (cursorPos : option CursorPosition) : keyOutcome :=
  match cursorPos with
  | None => KeyIgnored
  | Some pos =>
      let lines := split LF markdown in
      let insertLineIndex := lineIndex pos in
      let insertCharIndex := offset pos in
      let currentLine := nth insertLineIndex lines [] in
      let beforeCursor := firstn insertCharIndex currentLine in
      let afterCursor := skipn insertCharIndex currentLine in
      let newLines := firstn insertLineIndex lines ++ [beforeCursor; afterCursor]
                      ++ skipn (insertLineIndex + 1) lines in
      KeyEdit (join [LF] newLines) (Some {| lineIndex := insertLineIndex + 1; offset := 0 |})
  end.

(** [a + b] where [b] is an array element that may be [undefined]. *)
Definition plusElement (a : str) (b : option str) : str :=
  a ++ match b with Some s => s | None => js "undefined" end.

(** The [Backspace] branch. *)
Definition backspaceAt (markdown : str) (cursorPos : option CursorPosition) : keyOutcome :=
  match cursorPos with
  | None => KeyDefault
  | Some pos =>
      let lines := split LF markdown in
      let currentLineText := nth (lineIndex pos) lines [] in
      let isAtLineStart :=
        Nat.eqb (offset pos) 0
        || (Nat.leb (offset pos) 1 && str_eqb currentLineText []) in
      if isAtLineStart && Nat.ltb 0 (lineIndex pos) then
        match nth_error lines (lineIndex pos - 1) with
        | None => KeyRaised
        | Some prevLine =>
            let prevLineLength := length prevLine in
            let newLines := firstn (lineIndex pos - 1) lines
                            ++ [plusElement prevLine (nth_error lines (lineIndex pos))]
                            ++ skipn (lineIndex pos + 1) lines in
            KeyEdit (join [LF] newLines)
              (Some {| lineIndex := lineIndex pos - 1; offset := prevLineLength |})
        end
      else KeyDefault
  end.

(** The [Delete] branch. *)
Definition deleteAt (markdown : str) (cursorPos : option CursorPosition) : keyOutcome :=
  match cursorPos with
  | None => KeyDefault
  | Some pos =>
      let lines := split LF markdown in
      if Nat.ltb (lineIndex pos + 1) (length lines) then
        let currentLine := nth (lineIndex pos) lines [] in
        if Nat.leb (length currentLine) (offset pos) then
          let newLines := firstn (lineIndex pos) lines
                          ++ [plusElement currentLine (nth_error lines (lineIndex pos + 1))]
                          ++ skipn (lineIndex pos + 2) lines in
          KeyEdit (join [LF] newLines) (Some pos)
        else KeyDefault
      else KeyDefault
  end.

(** The [paste] handler; [text] is the plain text of the clipboard. *)
Definition pasteAt (markdown : str) (cursorPos : option CursorPosition) (text : str)
    : keyOutcome :=
  match text with
  | [] => KeyIgnored
  | _ :: _ =>
      match cursorPos with
      | None => KeyEdit (markdown ++ text) None
      | Some pos =>
          let lines := split LF markdown in
          let currentLine := nth (lineIndex pos) lines [] in
          let beforeCursor := firstn (offset pos) currentLine in
          let afterCursor := skipn (offset pos) currentLine in
          let pastedLines := split LF text in
          let newLines :=
            match pastedLines with
            | [_] | [] => setAt (lineIndex pos) (beforeCursor ++ text ++ afterCursor) lines
            | firstPastedLine :: _ =>
                let lastPastedLine := last pastedLines [] in
                let middlePastedLines := slice_1_m1 pastedLines in
                firstn (lineIndex pos) lines
                ++ [beforeCursor ++ firstPastedLine]
                ++ middlePastedLines
                ++ [lastPastedLine ++ afterCursor]
                ++ skipn (lineIndex pos + 1) lines
            end in
          let pastedLineCount := length pastedLines in
          let newCursor :=
            if Nat.eqb pastedLineCount 1 then
              {| lineIndex := lineIndex pos; offset := offset pos + length text |}
            else
              {| lineIndex := lineIndex pos + pastedLineCount - 1;
                 offset := length (last pastedLines []) |} in
          KeyEdit (join [LF] newLines) (Some newCursor)
      end
  end.

(** The handlers, on the editing surface and the selection. *)
Definition onEnter (container : list node) (selection : option Boundary) : keyOutcome :=
  let cursorPos := saveCursorPosition container selection in
  let markdown := extractMarkdown container in
  enterAt markdown cursorPos.

Definition onBackspace (container : list node) (selection : option Boundary) : keyOutcome :=
  let cursorPos := saveCursorPosition container selection in
  let markdown := extractMarkdown container in
  backspaceAt markdown cursorPos.

Definition onDelete (container : list node) (selection : option Boundary) : keyOutcome :=
  let cursorPos := saveCursorPosition container selection in
  let markdown := extractMarkdown container in
  deleteAt markdown cursorPos.

Definition onPaste (container : list node) (selection : option Boundary) (text : str)
    : keyOutcome :=
  match text with
  | [] => KeyIgnored
  | _ :: _ =>
      let cursorPos := saveCursorPosition container selection in
      let currentMarkdown := extractMarkdown container in
      pasteAt currentMarkdown cursorPos text
  end.

(** The index, in the joined text, of a position given by line and
    offset. *)
Definition flatIndex (lines : list str) (pos : CursorPosition) : nat :=
  length (flat_map (fun l => l ++ [LF]) (firstn (lineIndex pos) lines)) + offset pos.

(** A position that lies in the text: on one of its lines, at most at
    the end of it. *)
Definition inText (markdown : str) (pos : CursorPosition) : Prop :=
  lineIndex pos < length (split LF markdown)
  /\ offset pos <= length (nth (lineIndex pos) (split LF markdown) []).

(** A line without line feed. *)
Definition oneLine (l : str) : Prop := ~ In LF l.

(** ** The table of contents: [updateTocFromMarkdown], [extractHeadings] *)

(** Pattern: [^ ( #{1,6} ) \s+ ( .* ) $] *)
Definition tocHeadingRe : re :=
  seqs [Bol; Group 1 (between 1 6 (isCh "#")); plus isSpace; Group 2 (star isDot); Eol].

Record Heading : Type := {
  headingLevel : nat;
  headingText : str
}.

(** The body of the loop of [updateTocFromMarkdown]. *)
Definition headingOfLine (line : str) : list Heading :=
  match rmatch tocHeadingRe line with
  | Some m => [{| headingLevel := length (cap m 1); headingText := cap m 2 |}]
  | None => []
  end.

(** The array [headings] of [updateTocFromMarkdown]. *)
Definition markdownHeadings (markdown : str) : list Heading :=
  flat_map headingOfLine (split LF markdown).

Record TocItem : Type := {
  tocLevel : nat;
  tocText : str;
  tocId : str
}.

(** [extractHeadings] on the document that [updateTocFromMarkdown]
    builds, all of whose nodes are heading nodes: the index counts
    every node, and a node with blank text gives no item. *)
Fixpoint extractHeadingsFrom (headingIndex : nat) (nodes : list Heading) : list TocItem :=
  match nodes with
  | [] => []
  | node :: nodes' =>
      let id := js "heading-" ++ decimal headingIndex in
      match trim (headingText node) with
      | [] => extractHeadingsFrom (S headingIndex) nodes'
      | _ :: _ =>
          {| tocLevel := headingLevel node; tocText := headingText node; tocId := id |}
          :: extractHeadingsFrom (S headingIndex) nodes'
      end
  end.

Definition extractHeadings (nodes : list Heading) : list TocItem :=
  extractHeadingsFrom 0 nodes.

(** The items [updateToc] lists for a text. *)
Definition tocItems (markdown : str) : list TocItem :=
  extractHeadings (markdownHeadings markdown).

(** ** Formatting at the cursor: [isNodeInLineContent],
    [getFormattingAtCursor], [findFormattingSpanAtCursor] *)

(** The nodes from [n] down a path, outermost first. *)
Fixpoint nodesAlong (n : node) (p : path) : list node :=
  n :: match p, n with
       | i :: p', Element _ _ cs =>
           match nth_error cs i with
           | Some c => nodesAlong c p'
           | None => []
           end
       | _, _ => []
       end.

(** The nodes a walk visits that starts at the node of the container
    at path [p] and follows [parentNode] until it reaches the
    container: the node first, the child of the container last. *)
Definition parentChain (container : list node) (p : path) : list node :=
  match p with
  | [] => []
  | i :: p' =>
      match nth_error container i with
      | Some c => rev (nodesAlong c p')
      | None => []
      end
  end.

(** [node instanceof HTMLElement && node.classList.contains(cls)] *)
Definition elementHasClass (cls : string) (n : node) : bool :=
  match n with
  | Element _ attrs _ => hasClass (js cls) attrs
  | Text _ => false
  end.

(** [isNodeInLineContent] *)
Definition isNodeInLineContent (container : list node) (p : path) : bool :=
  existsb (elementHasClass "line-content") (parentChain container p).

Module FormattingInfo.
Record t : Type := {
  hasFormatting : bool;
  bold : bool;
  italic : bool;
  code : bool;
  strikethrough : bool;
  link : bool
}.
End FormattingInfo.

(** The body of the loop of [getFormattingAtCursor]. *)
Definition noteFormatting (result : FormattingInfo.t) (n : node) : FormattingInfo.t :=
  let r1 :=
    if elementHasClass "md-bold" n || elementHasClass "md-bold-italic" n then
      {| FormattingInfo.hasFormatting := true; FormattingInfo.bold := true;
         FormattingInfo.italic := FormattingInfo.italic result;
         FormattingInfo.code := FormattingInfo.code result;
         FormattingInfo.strikethrough := FormattingInfo.strikethrough result;
         FormattingInfo.link := FormattingInfo.link result |}
    else result in
  let r2 :=
    if elementHasClass "md-italic" n || elementHasClass "md-bold-italic" n then
      {| FormattingInfo.hasFormatting := true; FormattingInfo.bold := FormattingInfo.bold r1;
         FormattingInfo.italic := true;
         FormattingInfo.code := FormattingInfo.code r1;
         FormattingInfo.strikethrough := FormattingInfo.strikethrough r1;
         FormattingInfo.link := FormattingInfo.link r1 |}
    else r1 in
  let r3 :=
    if elementHasClass "md-code" n then
      {| FormattingInfo.hasFormatting := true; FormattingInfo.bold := FormattingInfo.bold r2;
         FormattingInfo.italic := FormattingInfo.italic r2;
         FormattingInfo.code := true;
         FormattingInfo.strikethrough := FormattingInfo.strikethrough r2;
         FormattingInfo.link := FormattingInfo.link r2 |}
    else r2 in
  let r4 :=
    if elementHasClass "md-strike" n then
      {| FormattingInfo.hasFormatting := true; FormattingInfo.bold := FormattingInfo.bold r3;
         FormattingInfo.italic := FormattingInfo.italic r3;
         FormattingInfo.code := FormattingInfo.code r3;
         FormattingInfo.strikethrough := true;
         FormattingInfo.link := FormattingInfo.link r3 |}
    else r3 in
  if elementHasClass "md-link" n then
    {| FormattingInfo.hasFormatting := true; FormattingInfo.bold := FormattingInfo.bold r4;
       FormattingInfo.italic := FormattingInfo.italic r4;
       FormattingInfo.code := FormattingInfo.code r4;
       FormattingInfo.strikethrough := FormattingInfo.strikethrough r4;
       FormattingInfo.link := true |}
  else r4.

Definition noFormatting : FormattingInfo.t :=
  {| FormattingInfo.hasFormatting := false; FormattingInfo.bold := false;
     FormattingInfo.italic := false; FormattingInfo.code := false;
     FormattingInfo.strikethrough := false; FormattingInfo.link := false |}.

(** [getFormattingAtCursor]; [None] is a selection without range. *)
Definition getFormattingAtCursor (container : list node) (selection : option Boundary)
    : FormattingInfo.t :=
  match selection with
  | None => noFormatting
  | Some range =>
      fold_left noteFormatting (parentChain container (startContainer range)) noFormatting
  end.

(** [classMap[format] || []] *)
Definition classMap (format : InlineFormat) : list string :=
  match format with
  | Bold => ["md-bold"; "md-bold-italic"]%string
  | Italic => ["md-italic"; "md-bold-italic"]%string
  | Code => ["md-code"]%string
  | Strikethrough => ["md-strike"]%string
  | Link => ["md-link"]%string
  | OtherFormat => []
  end.

(** [findFormattingSpanAtCursor] *)
Definition findFormattingSpanAtCursor (container : list node) (selection : option Boundary)
    (format : InlineFormat) : option node :=
  match selection with
  | None => None
  | Some range =>
      find (fun n => existsb (fun cls => elementHasClass cls n) (classMap format))
        (parentChain container (startContainer range))
  end.

(** The flag of [getFormattingAtCursor] that belongs to a format. *)
Definition formatFlag (format : InlineFormat) (info : FormattingInfo.t) : bool :=
  match format with
  | Bold => FormattingInfo.bold info
  | Italic => FormattingInfo.italic info
  | Code => FormattingInfo.code info
  | Strikethrough => FormattingInfo.strikethrough info
  | Link => FormattingInfo.link info
  | OtherFormat => false
  end.

(** ** Notions about the first pass *)

(** The number of kind flags a line info has set. *)
Definition flagCount (info : LineInfo) : nat :=
  Nat.b2n (isCodeFence info) + Nat.b2n (isCodeContent info) + Nat.b2n (isAlertHeader info)
  + Nat.b2n (isAlertContent info) + Nat.b2n (isBlockquote info).

(** A line info of an alert, header or continuation. *)
Definition isAlertLine (info : LineInfo) : bool := isAlertHeader info || isAlertContent info.

(** Inside a code block no alert is open. *)
Definition quietInCode (st : RenderState) : Prop :=
  inCodeBlock st = true -> currentAlertType st = None.

(** ** Synchronisation with the host: [sendEdit], [updateEditorContent]
    and the message handlers of the provider *)

(** The module state of the webview script that the synchronisation
    uses, with the messages posted so far (latest first) and the text
    last rendered by [updateEditorContent].  [editDebounceTimer] is the
    timer that is set and has neither fired nor been cleared, given by
    the text its callback holds; the variable of the script keeps the
    handle of a timer that has fired, on which [clearTimeout] does
    nothing. *)
Record SyncState : Type := {
  lastSentContent : str;
  editDebounceTimer : option str;
  postedEdits : list str;
  renderedUpdates : list str
}.

Inductive SyncEvent : Type :=
| SendEdit (markdown : str)
| TimerFires
| UpdateEditorContent (markdown : str).

(** [sendEdit] replaces the pending timer; the timer callback posts
    the text unless it is the one sent last; [updateEditorContent]
    (with the editor initialised) skips a text equal to the one sent
    last and renders any other. *)
Definition syncStep (st : SyncState) (ev : SyncEvent) : SyncState :=
  match ev with
  | SendEdit markdown =>
      {| lastSentContent := lastSentContent st; editDebounceTimer := Some markdown;
         postedEdits := postedEdits st; renderedUpdates := renderedUpdates st |}
  | TimerFires =>
      match editDebounceTimer st with
      | None => st
      | Some markdown =>
          if str_eqb markdown (lastSentContent st) then
            {| lastSentContent := lastSentContent st; editDebounceTimer := None;
               postedEdits := postedEdits st; renderedUpdates := renderedUpdates st |}
          else
            {| lastSentContent := markdown; editDebounceTimer := None;
               postedEdits := markdown :: postedEdits st;
               renderedUpdates := renderedUpdates st |}
      end
  | UpdateEditorContent markdown =>
      if str_eqb markdown (lastSentContent st) then st
      else
        {| lastSentContent := markdown; editDebounceTimer := editDebounceTimer st;
           postedEdits := postedEdits st; renderedUpdates := markdown :: renderedUpdates st |}
  end.

Definition syncRun (st : SyncState) (evs : list SyncEvent) : SyncState :=
  fold_left syncStep evs st.

(** The state of the provider for one document, with the [update]
    messages posted to the webview (latest first). *)
Record HostState : Type := {
  documentText : str;
  lastKnownContent : str;
  isApplyingEdit : bool;
  postedUpdates : list str
}.

(** The listener of document changes. *)
Definition changeHandler (h : HostState) : HostState :=
  if isApplyingEdit h then h
  else if str_eqb (documentText h) (lastKnownContent h) then h
  else
    {| documentText := documentText h; lastKnownContent := documentText h;
       isApplyingEdit := false; postedUpdates := documentText h :: postedUpdates h |}.

(** The [edit] case of the message handler.  The workspace edit
    replaces the whole text and the change listener runs while the
    edit is being applied. *)
Definition onEditMessage (h : HostState) (content : str) : HostState :=
  if str_eqb content (documentText h) then h
  else
    let applying :=
      {| documentText := content; lastKnownContent := content;
         isApplyingEdit := true; postedUpdates := postedUpdates h |} in
    let after := changeHandler applying in
    {| documentText := documentText after; lastKnownContent := lastKnownContent after;
       isApplyingEdit := false; postedUpdates := postedUpdates after |}.

(** A change of the document made outside the editor. *)
Definition onExternalChange (h : HostState) (text : str) : HostState :=
  changeHandler
    {| documentText := text; lastKnownContent := lastKnownContent h;
       isApplyingEdit := isApplyingEdit h; postedUpdates := postedUpdates h |}.

(** ** Styled markup and its visible text *)

(** [stripHtml], the helper of the styling tests:
    [html.replace(/< [^>]* >/g, '')]. *)
Definition tagRe : re := seqs [Chr (isCh "<"); star (notCh ">"); Chr (isCh ">")].

Definition stripHtml (html : str) : str := replace_all tagRe (fun _ => []) html.

(** The code units the patterns of [styleInline] begin and end with,
    and the two code units that stand for emphasis markers between the
    emphasis passes and [restoreMarkers]. *)
Definition isDelimiter (c : cu) : bool :=
  isCh "!" c || isCh "[" c || isCh "]" c || isCh "(" c || isCh ")" c || isCh "*" c
  || isCh "_" c || isCh "`" c || isCh "$" c || isCh "~" c
  || cu_eqb c ASTERISK || cu_eqb c UNDERSCORE.

(** The code units between the angle brackets of the tags the styler
    writes. *)
Definition tagSafe (c : cu) : bool :=
  negb (isDelimiter c) && negb (cu_eqb c 0) && negb (isCh "<" c) && negb (isCh ">" c).

(** A code unit of text as it is read once the markers are restored. *)
Definition readMarker (c : cu) : cu :=
  if cu_eqb c ASTERISK then ch "*" else if cu_eqb c UNDERSCORE then ch "_" else c.

(** The text of markup outside its tags. *)
Fixpoint visibleFrom (inTag : bool) (s : str) : str :=
  match s with
  | [] => []
  | c :: s' =>
      if inTag then (if isCh ">" c then visibleFrom false s' else visibleFrom true s')
      else if isCh "<" c then visibleFrom true s'
      else readMarker c :: visibleFrom false s'
  end.

Definition visible (s : str) : str := visibleFrom false s.

(** Markup made of text, whole tags and whole placeholders numbered
    below [n]. *)
Inductive styled (n : nat) : str -> Prop :=
| styled_nil : styled n []
| styled_char : forall c s,
    c <> 0%N -> isCh "<" c = false -> isCh ">" c = false ->
    styled n s -> styled n (c :: s)
| styled_tag : forall body s,
    forallb tagSafe body = true -> styled n s ->
    styled n (ch "<" :: body ++ ch ">" :: s)
| styled_holder : forall i s, i < n -> styled n s -> styled n (placeholder i ++ s).

(** Text with placeholders, and the text it stands for: placeholder
    [i] stands for a backslash and the [i]-th collected character. *)
Inductive expands (chars : list str) : str -> str -> Prop :=
| expands_nil : expands chars [] []
| expands_char : forall (c : cu) s t,
    c <> 0%N -> expands chars s t -> expands chars (c :: s) (c :: t)
| expands_holder : forall i (c : cu) s t,
    nth_error chars i = Some [c] -> expands chars s t ->
    expands chars (placeholder i ++ s) (ch "\" :: c :: t).

(** Text free of the three code units the styler reserves. *)
Definition reservedFree (text : str) : bool :=
  forallb (fun c => negb (cu_eqb c 0 || cu_eqb c ASTERISK || cu_eqb c UNDERSCORE)) text.

(** Markup free of the two code units that stand for emphasis markers. *)
Definition markerFree (s : str) : bool :=
  forallb (fun c => negb (cu_eqb c ASTERISK || cu_eqb c UNDERSCORE)) s.

(** A collected character: one escapable code unit. *)
Definition isEscapedChar (x : str) : bool :=
  match x with
  | [c] => isEscapable c
  | _ => false
  end.

(** A code unit that is text to every pass of the styler. *)
Definition isText (c : cu) : bool :=
  negb (cu_eqb c 0 || cu_eqb c ASTERISK || cu_eqb c UNDERSCORE || isCh "<" c || isCh ">" c).

(** *** Tags and escaped spans of markup *)

(** The bodies of the tags of markup, in order: what stands between
    each [<] and the next [>]. *)
Fixpoint tagsFrom (cur : option str) (s : str) : list str :=
  match s with
  | [] => []
  | c :: s' =>
      match cur with
      | Some body =>
          if isCh ">" c then rev body :: tagsFrom None s' else tagsFrom (Some (c :: body)) s'
      | None => if isCh "<" c then tagsFrom (Some []) s' else tagsFrom None s'
      end
  end.

Definition tagsOf (s : str) : list str := tagsFrom None s.

(** The tags that open emphasis: [em], [strong] and the spans of the
    emphasis classes. *)
Definition emphasisTags : list str :=
  [js "em"; js "strong"; js "span class=" ++ q "md-italic";
   js "span class=" ++ q "md-bold"; js "span class=" ++ q "md-bold-italic"].

Definition isEmphasisTag (body : str) : bool := memStr body emphasisTags.

(** The markup of an escaped character up to the character. *)
Definition escapedOpen : str := js "<span class=" ++ q "md-escaped" ++ js ">" ++ syn (js "\").

(** The characters shown by the spans of class [md-escaped] of markup,
    in order: for each place where the markup of an escaped character
    starts, the code unit it holds between the backslash and the end
    of the span. *)
Fixpoint escapedSpanChars (s : str) : list cu :=
  match s with
  | [] => []
  | c :: s' =>
      (if startsWith (c :: s') escapedOpen then
         match skipn (length escapedOpen) (c :: s') with
         | x :: rest => if startsWith rest (js "</span>") then [x] else []
         | [] => []
         end
       else [])
      ++ escapedSpanChars s'
  end.

(** The escaped characters of a text, in order, as the first
    replacement of [styleInline] finds them: a backslash and an
    escapable code unit are taken together, and the search goes on
    behind them. *)
Fixpoint escapesOf (text : str) : list cu :=
  match text with
  | b :: ((c :: text') as rest) =>
      if isCh "\" b && isEscapable c then c :: escapesOf text' else escapesOf rest
  | _ => []
  end.

(** A tag that neither opens emphasis nor an escaped character. *)
Definition plainTag (body : str) : bool :=
  negb (isEmphasisTag body) && negb (str_eqb body (js "span class=" ++ q "md-escaped")).

(** [expands], with the list of the characters the placeholders stand
    for. *)
Inductive expandsTo (chars : list str) : str -> str -> list cu -> Prop :=
| expandsTo_nil : expandsTo chars [] [] []
| expandsTo_char : forall (c : cu) s t l,
    c <> 0%N -> expandsTo chars s t l -> expandsTo chars (c :: s) (c :: t) l
| expandsTo_holder : forall i (c : cu) s t l,
    nth_error chars i = Some [c] -> expandsTo chars s t l ->
    expandsTo chars (placeholder i ++ s) (ch "\" :: c :: t) (c :: l).

(** * Properties *)

Unset Implicit Arguments.

Lemma setAt_app : forall (before after : list str) (x y : str),
  setAt (length before) x (before ++ y :: after) = before ++ x :: after.
Proof.
  induction before as [|b before IH]; intros; simpl; [reflexivity|].
  now rewrite IH.
Qed.

Lemma nth_error_middle : forall (A : Type) (before after : list A) (x : A),
  nth_error (before ++ x :: after) (length before) = Some x.
Proof.
  induction before; simpl; auto.
Qed.

Lemma firstn_length_app : forall (A : Type) (a b : list A), firstn (length a) (a ++ b) = a.
Proof.
  induction a; simpl; intros; [now destruct b | now rewrite IHa].
Qed.

Lemma skipn_length_app : forall (A : Type) (a b : list A), skipn (length a) (a ++ b) = b.
Proof.
  induction a; simpl; auto.
Qed.

Lemma skipn_add_app : forall (A : Type) (a b : list A) (k : nat),
  skipn (length a + k) (a ++ b) = skipn k b.
Proof.
  induction a; simpl; auto.
Qed.

(** C7.  Toggling bold on the selected text [word] puts [**word**] in
    its place, and toggling bold again with [**word**] selected gives
    the line back, in any line whose text around the selection does
    not already put the marker on both sides of it. *)
Theorem bold_toggle_roundtrip :
  forall (before after : list str) (pre post : str),
    endsWith pre (js "**") && startsWith post (js "**") = false ->
    let plain := pre ++ js "word" ++ post in
    let wrapped := pre ++ js "**word**" ++ post in
    applyInlineFormat (before ++ plain :: after) (length before) (length pre) (js "word") Bold
      = Edited (before ++ wrapped :: after)
          {| lineIndex := length before; offset := length pre + 8 |}
    /\ applyInlineFormat (before ++ wrapped :: after) (length before) (length pre)
         (js "**word**") Bold
      = Edited (before ++ plain :: after)
          {| lineIndex := length before; offset := length pre + 4 |}.
Proof.
  intros before after pre post H plain wrapped.
  unfold applyInlineFormat, plain, wrapped.
  rewrite !nth_error_middle.
  cbn [formatMarker].
  rewrite !firstn_length_app, !skipn_add_app.
  change (skipn (length (js "word")) (js "word" ++ post)) with post.
  change (skipn (length (js "**word**")) (js "**word**" ++ post)) with post.
  rewrite H.
  split.
  - change (startsWith (js "word") (js "**")) with false. cbn [andb].
    rewrite setAt_app. reflexivity.
  - change (startsWith (js "**word**") (js "**") && endsWith (js "**word**") (js "**")
            && Nat.ltb (length (js "**") + length (js "**")) (length (js "**word**")))
      with true. cbv iota.
    rewrite setAt_app. reflexivity.
Qed.

Lemma bold_toggle_roundtrip_witness :
  applyInlineFormat [js "word"] 0 0 (js "word") Bold
    = Edited [js "**word**"] {| lineIndex := 0; offset := 8 |}
  /\ applyInlineFormat [js "**word**"] 0 0 (js "**word**") Bold
    = Edited [js "word"] {| lineIndex := 0; offset := 4 |}.
Proof.
  apply (bold_toggle_roundtrip [] [] [] []). reflexivity.
Defined.

Lemma classifyLine_inCodeBlock : forall st l,
  inCodeBlock (snd (classifyLine st l)) = xorb (inCodeBlock st) (isFence l).
Proof.
  intros st l. unfold classifyLine, isFence.
  destruct (startsWith l fence); [simpl; now destruct (inCodeBlock st)|].
  destruct (inCodeBlock st) eqn:E; [simpl; now rewrite E|].
  destruct (rmatch alertHeaderRe l); [reflexivity|].
  destruct (truthy (currentAlertType st) && test alertContinuationRe l); [simpl; now rewrite E|].
  destruct (isBlockquoteLine l), (negb (test alertContinuationRe l)); simpl; now rewrite ?E.
Qed.

Lemma stateAfter_inCodeBlock : forall ls st,
  inCodeBlock (stateAfter st ls) = xorb (inCodeBlock st) (Nat.odd (fenceCount ls)).
Proof.
  induction ls as [|l ls IH]; intros st; simpl.
  - now rewrite xorb_false_r.
  - rewrite IH, classifyLine_inCodeBlock. unfold fenceCount. simpl.
    destruct (isFence l); simpl.
    + rewrite Nat.odd_succ, <- Nat.negb_odd. 
      now destruct (inCodeBlock st), (Nat.odd (length (filter isFence ls))).
    + now rewrite xorb_false_r.
Qed.

Lemma firstPass_nth : forall before st l after,
  nth_error (firstPass st (before ++ l :: after)) (length before)
  = Some (fst (classifyLine (stateAfter st before) l)).
Proof.
  induction before as [|b before IH]; intros; simpl.
  - now destruct (classifyLine st l).
  - destruct (classifyLine st b) as [info st'] eqn:E. simpl. now rewrite IH.
Qed.

(** C5.  A line that follows an odd number of fence lines and is not
    itself a fence line is recorded as code content by the first pass,
    whatever its text, and the second pass renders it from that record
    alone: the escaped text inside a code block, with no call to the
    line styler. *)
Theorem code_fence_suppresses_classification :
  forall (before after : list str) (l : str),
    Nat.odd (fenceCount before) = true ->
    startsWith l fence = false ->
    nth_error (firstPass initialState (before ++ l :: after)) (length before)
      = Some (codeContentInfo l)
    /\ forall i inCode prev next,
         renderBlock i inCode prev (codeContentInfo l) next
         = Some (div (js "line code-content"
                      ++ match escapeHtml l with [] => js " empty-line" | _ :: _ => [] end)
                   (generateLinePrefix (i + 1) l true)
                   (span "code-inner" (orBr (escapeHtml l))), inCode).
Proof.
  intros before after l Hodd Hl. split.
  - rewrite firstPass_nth. f_equal.
    pose proof (stateAfter_inCodeBlock before initialState) as Hst.
    rewrite Hodd in Hst. simpl in Hst.
    unfold classifyLine. now rewrite Hl, Hst.
  - reflexivity.
Qed.

(** *** The cursor mapper on the tree *)

Section NodeInduction.
Variable P : node -> Prop.
Hypothesis HText : forall d, P (Text d).
Hypothesis HElement : forall t a cs, Forall P cs -> P (Element t a cs).

Fixpoint node_induction (n : node) : P n :=
  match n with
  | Text d => HText d
  | Element t a cs =>
      HElement t a cs
        ((fix all (l : list node) : Forall P l :=
            match l with
            | [] => Forall_nil P
            | c :: l' => Forall_cons c (node_induction c) (all l')
            end) cs)
  end.
End NodeInduction.


Lemma texts_app : forall a b, texts (a ++ b) = texts a ++ texts b.
Proof. intros. apply flat_map_app. Qed.

Lemma texts_shift : forall i (l : list (path * str)),
  texts (List.map (fun pa => (i :: fst pa, snd pa)) l) = texts l.
Proof.
  induction l as [|[p d] l IH]; [reflexivity|]. unfold texts in *. simpl. now rewrite IH.
Qed.

Lemma textNodes_text : forall n, texts (textNodes n) = textContent n.
Proof.
  induction n as [d|t a cs IH] using node_induction; simpl.
  - unfold texts. simpl. apply app_nil_r.
  - generalize 0. induction IH as [|c cs Hc _ IHcs]; intros i; simpl; [reflexivity|].
    now rewrite texts_app, texts_shift, Hc, IHcs.
Qed.

Lemma treeWalkerText_text : forall t a cs,
  texts (treeWalkerText (Element t a cs)) = textContent (Element t a cs).
Proof. intros. apply (textNodes_text (Element t a cs)). Qed.

(** Where the walk meets a text node, the characters walked so far are
    the characters before it, and its path leads to it. *)
Lemma collect_split : forall cs,
  Forall (fun c => forall l1 p d l2 off,
            textNodes c = l1 ++ (p, d) :: l2 ->
            charsBefore c p off = length (texts l1) + off /\ nodeAt c p = Some (Text d)) cs ->
  forall i l1 p d l2,
    collectFrom textNodes i cs = l1 ++ (p, d) :: l2 ->
    exists j p' c l1',
      p = (i + j) :: p' /\ nth_error cs j = Some c /\ nodeAt c p' = Some (Text d)
      /\ texts l1 = flat_map textContent (firstn j cs) ++ texts l1'
      /\ forall off, charsBefore c p' off = length (texts l1') + off.
Proof.
  induction 1 as [|c cs Hc _ IH]; intros i l1 p d l2 E; simpl in E.
  - now destruct l1.
  - apply app_eq_app in E. destruct E as [l [[E1 E2]|[E1 E2]]].
    + destruct l as [|x l].
      * (* the node is the first one after [c] *)
        rewrite app_nil_r in E1. simpl in E2. symmetry in E2.
        destruct (IH (S i) [] p d l2 E2) as (j & p' & c' & l1' & -> & Hn & Ha & Ht & Hc').
        exists (S j), p', c', l1'. repeat split; auto.
        -- f_equal. lia.
        -- rewrite <- E1, texts_shift, textNodes_text. simpl.
           rewrite <- app_assoc, <- Ht. now rewrite app_nil_r.
      * (* the node is below [c] *)
        simpl in E2. injection E2 as <- E2.
        apply map_eq_app in E1. destruct E1 as (a1 & a2 & Ea & <- & E1).
        destruct a2 as [|[q e] a2]; [discriminate|]. simpl in E1.
        injection E1 as <- <- E1.
        exists 0, q, c, a1. repeat split; auto.
        -- f_equal. lia.
        -- now destruct (Hc a1 q e a2 0 Ea).
        -- simpl. now rewrite texts_shift.
        -- intros off. now destruct (Hc a1 q e a2 off Ea).
    + (* the node lies further on *)
      destruct (IH (S i) l p d l2 E2) as (j & p' & c' & l1' & -> & Hn & Ha & Ht & Hc').
      exists (S j), p', c', l1'. repeat split; auto.
      * f_equal. lia.
      * rewrite E1, texts_app, texts_shift, textNodes_text, Ht. simpl.
        now rewrite app_assoc.
Qed.

Lemma textNodes_split : forall n l1 p d l2 off,
  textNodes n = l1 ++ (p, d) :: l2 ->
  charsBefore n p off = length (texts l1) + off /\ nodeAt n p = Some (Text d).
Proof.
  induction n as [d0|t a cs IH] using node_induction; intros l1 p d l2 off E; simpl in E.
  - destruct l1 as [|x l1]; [|now destruct l1].
    injection E as <- <-. now split.
  - destruct (collect_split cs IH 0 l1 p d l2 E) as (j & p' & c & l1' & -> & Hn & Ha & Ht & Hc).
    simpl. rewrite Hn, Ha, Hc, Ht, length_app. split; [lia|reflexivity].
Qed.
Lemma findTarget_some : forall nodes off acc p d t,
  findTarget nodes off acc = Some (p, d, t) ->
  acc <= off ->
  exists l1 l2,
    nodes = l1 ++ (p, d) :: l2
    /\ acc + length (texts l1) <= off <= acc + length (texts l1) + length d
    /\ t = off - (acc + length (texts l1)).
Proof.
  induction nodes as [|[q e] nodes IH]; intros off acc p d t H Hacc; simpl in H; [discriminate|].
  destruct (Nat.leb off (acc + length e)) eqn:E.
  - injection H as <- <- <-. apply Nat.leb_le in E.
    exists [], nodes. unfold texts. simpl. repeat split; lia.
  - apply Nat.leb_gt in E.
    destruct (IH off (acc + length e) p d t H ltac:(lia)) as (l1 & l2 & -> & Hb & ->).
    exists ((q, e) :: l1), l2. unfold texts in *. simpl. rewrite length_app.
    repeat split; try lia.
Qed.

Lemma findTarget_none : forall nodes off acc,
  findTarget nodes off acc = None -> acc <= off -> acc + length (texts nodes) <= off.
Proof.
  induction nodes as [|[q e] nodes IH]; intros off acc H Hacc; simpl in H.
  - unfold texts. simpl. lia.
  - destruct (Nat.leb off (acc + length e)) eqn:E; [discriminate|].
    apply Nat.leb_gt in E. specialize (IH off (acc + length e) H ltac:(lia)).
    unfold texts in *. simpl. rewrite length_app. lia.
Qed.

Lemma last_map_Some : forall (A : Type) (l : list A) (x : A),
  last (List.map Some (l ++ [x])) None = Some x.
Proof.
  induction l as [|y l IH]; intros x; [reflexivity|].
  simpl. specialize (IH x). destruct (List.map Some (l ++ [x])) eqn:E; [|exact IH].
  now destruct l.
Qed.

Lemma nodeAt_app : forall p n m q,
  nodeAt n p = Some m -> nodeAt n (p ++ q) = nodeAt m q.
Proof.
  induction p as [|i p IH]; intros n m q H; simpl in *.
  - now injection H as ->.
  - destruct n as [|t a cs]; [discriminate|].
    destruct (nth_error cs i); [|discriminate]. now apply IH.
Qed.

Lemma firstFrom_found : forall (A : Type) (g : node -> option (path * A)) cs i p x,
  firstFrom g i cs = Some (p, x) ->
  exists j p' c, p = (i + j) :: p' /\ nth_error cs j = Some c /\ g c = Some (p', x).
Proof.
  induction cs as [|c cs IH]; intros i p x H; simpl in H; [discriminate|].
  destruct (g c) as [[p' a]|] eqn:E.
  - injection H as <- <-. exists 0, p', c. repeat split; auto. f_equal; lia.
  - destruct (IH (S i) p x H) as (j & p' & c' & -> & Hn & Hg).
    exists (S j), p', c'. repeat split; auto. f_equal; lia.
Qed.

Lemma findClass_nodeAt : forall cls n p x,
  findClass cls n = Some (p, x) -> nodeAt n p = Some x /\ isElement x = true.
Proof.
  intros cls. induction n as [d|t a cs IH] using node_induction; intros p x H; simpl in H.
  - discriminate.
  - destruct (hasClass cls a).
    + injection H as <- <-. now split.
    + apply firstFrom_found in H. destruct H as (j & p' & c & -> & Hn & Hg).
      simpl. rewrite Hn. rewrite Forall_forall in IH.
      apply (IH c (nth_error_In _ _ Hn)). exact Hg.
Qed.

Lemma querySelector_nodeAt : forall cls el p x,
  querySelector cls el = Some (p, x) -> nodeAt el p = Some x /\ isElement x = true.
Proof.
  intros cls [d|t a cs] p x H; simpl in H; [discriminate|].
  apply firstFrom_found in H. destruct H as (j & p' & c & -> & Hn & Hg).
  simpl. rewrite Hn. now apply findClass_nodeAt with (cls := cls).
Qed.

Lemma childrenFrom_nth : forall l i0 k i n,
  nth_error (childrenFrom i0 l) k = Some (i, n) ->
  exists j, i = i0 + j /\ nth_error l j = Some n.
Proof.
  induction l as [|m l IH]; intros i0 k i n H; simpl in H.
  - now destruct k.
  - destruct (isElement m); simpl in H.
    + destruct k as [|k]; simpl in H.
      * injection H as <- <-. exists 0. split; [lia|reflexivity].
      * destruct (IH (S i0) k i n H) as (j & -> & Hj). exists (S j). split; [lia|exact Hj].
    + destruct (IH (S i0) k i n H) as (j & -> & Hj). exists (S j). split; [lia|exact Hj].
Qed.

Lemma children_nth : forall container k i n,
  nth_error (children container) k = Some (i, n) -> nth_error container i = Some n.
Proof.
  intros container k i n H. apply childrenFrom_nth in H. now destruct H as (j & -> & H).
Qed.

Lemma setStart_text : forall container i lineEl pc lineContent p d off,
  nth_error container i = Some lineEl ->
  nodeAt lineEl pc = Some lineContent ->
  nodeAt lineContent p = Some (Text d) ->
  off <= length d ->
  setStart container (i :: pc ++ p) off
  = Placed {| startContainer := i :: pc ++ p; startOffset := off |}.
Proof.
  intros container i lineEl pc lineContent p d off Hi Hpc Hp Hoff.
  unfold setStart, resolve. rewrite Hi, (nodeAt_app _ _ _ _ Hpc), Hp. simpl.
  apply Nat.leb_le in Hoff. now rewrite Hoff.
Qed.

(** The selection the restore operation makes, as a position in the
    text of the content region. *)
Lemma restore_in_content : forall container pos i lineEl pc lineContent,
  nth_error (children container) (lineIndex pos) = Some (i, lineEl) ->
  querySelector lineContentClass lineEl = Some (pc, lineContent) ->
  exists p off,
    restoreCursorPosition container pos
      = Placed {| startContainer := i :: pc ++ p; startOffset := off |}
    /\ charsBefore lineContent p off
       = Nat.min (offset pos) (length (textContent lineContent)).
Proof.
  intros container pos i lineEl pc lineContent Hline Hq.
  unfold restoreCursorPosition. rewrite Hline, Hq.
  pose proof (children_nth _ _ _ _ Hline) as Hi.
  destruct (querySelector_nodeAt _ _ _ _ Hq) as [Hpc Hel].
  destruct lineContent as [d0|t a cs]; [discriminate|].
  pose proof (treeWalkerText_text t a cs) as Htext.
  remember (treeWalkerText (Element t a cs)) as nodes eqn:Enodes.
  assert (Hsplit : forall l1 p d l2 off, nodes = l1 ++ (p, d) :: l2 ->
            charsBefore (Element t a cs) p off = length (texts l1) + off
            /\ nodeAt (Element t a cs) p = Some (Text d)).
  { intros l1 p d l2 off E. apply (textNodes_split (Element t a cs) l1 p d l2 off).
    rewrite <- E, Enodes. reflexivity. }
  clear Enodes.
  destruct (findTarget nodes (offset pos) 0) as [[[p d] tgt]|] eqn:F.
  - apply findTarget_some in F; [|lia].
    destruct F as (l1 & l2 & Hn & Hb & ->). simpl in Hb.
    change (0 + length (texts l1)) with (length (texts l1)).
    destruct (Hsplit l1 p d l2 (Nat.min (offset pos - length (texts l1)) (length d)) Hn)
      as [Hc Ha].
    exists p, (Nat.min (offset pos - length (texts l1)) (length d)). split.
    + apply setStart_text with (lineEl := lineEl) (lineContent := Element t a cs) (d := d); auto.
      apply Nat.le_min_r.
    + rewrite Hc, <- Htext, Hn, texts_app, length_app.
      assert (H : texts ((p, d) :: l2) = d ++ texts l2) by reflexivity.
      rewrite H, length_app. lia.
  - apply findTarget_none in F; [|lia]. simpl in F.
    destruct nodes as [|x nodes'].
    + exists [], 0. split.
      * simpl. unfold setStart, resolve. rewrite app_nil_r, Hi, Hpc. reflexivity.
      * rewrite <- Htext. unfold texts. simpl. lia.
    + destruct (@exists_last _ (x :: nodes') ltac:(discriminate)) as (l & [p d] & Hn).
      rewrite Hn in *. rewrite last_map_Some.
      destruct (Hsplit l p d [] (length d) eq_refl) as [Hc Ha].
      exists p, (length d). split.
      * apply setStart_text with (lineEl := lineEl) (lineContent := Element t a cs) (d := d); auto.
      * rewrite Hc, <- Htext.
        rewrite texts_app, length_app in *.
        assert (H : texts [(p, d)] = d) by (unfold texts; simpl; apply app_nil_r).
        rewrite H in *. lia.
Qed.

(** ** C8 *)

(** The current revision.  [restoreCursorPosition] never raises; a
    line index at or past the number of rendered lines leaves the
    selection untouched; an offset beyond the text of the content
    region of the line puts the cursor at the end of that text. *)
Theorem restore_never_throws_and_clamps :
  forall (container : list node) (pos : CursorPosition),
    restoreCursorPosition container pos <> Threw
    /\ (length (children container) <= lineIndex pos ->
        restoreCursorPosition container pos = Unchanged)
    /\ (forall i lineEl pc lineContent,
          nth_error (children container) (lineIndex pos) = Some (i, lineEl) ->
          querySelector lineContentClass lineEl = Some (pc, lineContent) ->
          length (textContent lineContent) < offset pos ->
          exists p off,
            restoreCursorPosition container pos
              = Placed {| startContainer := i :: pc ++ p; startOffset := off |}
            /\ charsBefore lineContent p off = length (textContent lineContent)).
Proof.
  intros container pos. split; [|split].
  - unfold restoreCursorPosition.
    destruct (nth_error (children container) (lineIndex pos)) as [[i lineEl]|] eqn:Hline;
      [|discriminate].
    destruct (querySelector lineContentClass lineEl) as [[pc lineContent]|] eqn:Hq;
      [|discriminate].
    destruct (restore_in_content container pos i lineEl pc lineContent Hline Hq)
      as (p & off & H & _).
    unfold restoreCursorPosition in H. rewrite Hline, Hq in H. rewrite H. discriminate.
  - intros H. unfold restoreCursorPosition.
    apply nth_error_None in H. now rewrite H.
  - intros i lineEl pc lineContent Hline Hq Hoff.
    destruct (restore_in_content container pos i lineEl pc lineContent Hline Hq)
      as (p & off & H & Hc).
    exists p, off. split; [exact H|]. rewrite Hc. lia.
Qed.

Lemma restore_never_throws_and_clamps_witness :
  restoreCursorPosition [] {| lineIndex := 0; offset := 0 |} = Unchanged
  /\ exists p off,
       restoreCursorPosition
         [Element (js "div") [(js "class", js "line")]
            [Element (js "span") [(js "class", js "line-content")] [Text (js "abc")]]]
         {| lineIndex := 0; offset := 30 |}
       = Placed {| startContainer := 0 :: [0] ++ p; startOffset := off |}
       /\ charsBefore (Element (js "span") [(js "class", js "line-content")] [Text (js "abc")])
            p off = 3.
Proof.
  split.
  - apply (restore_never_throws_and_clamps [] {| lineIndex := 0; offset := 0 |}).
    simpl. lia.
  - apply (proj2 (proj2 (restore_never_throws_and_clamps
             [Element (js "div") [(js "class", js "line")]
                [Element (js "span") [(js "class", js "line-content")] [Text (js "abc")]]]
             {| lineIndex := 0; offset := 30 |}))
           0 (Element (js "div") [(js "class", js "line")]
                [Element (js "span") [(js "class", js "line-content")] [Text (js "abc")]])).
    + reflexivity.
    + reflexivity.
    + simpl. lia.
Defined.

(** The earlier revision raises as little as the current one, and
    leaves the selection alone when the line is gone. *)
Lemma earlier_restore_never_throws : forall container pos,
  EarlierRevision.restoreCursorPosition container pos <> Threw
  /\ (length (children container) <= lineIndex pos ->
      EarlierRevision.restoreCursorPosition container pos = Unchanged).
Proof.
  intros container pos. unfold EarlierRevision.restoreCursorPosition. split.
  - destruct (nth_error (children container) (lineIndex pos)) as [[i lineEl]|] eqn:Hline;
      [|discriminate].
    pose proof (children_nth _ _ _ _ Hline) as Hi.
    destruct (findTarget (treeWalkerText lineEl) (offset pos) 0) as [[[p d] tgt]|] eqn:F.
    + apply findTarget_some in F; [|lia]. destruct F as (l1 & l2 & Hn & _ & _).
      destruct lineEl as [d0|t a cs]; [now destruct l1|].
      destruct (textNodes_split (Element t a cs) l1 p d l2 0 Hn) as [_ Ha].
      pose proof (setStart_text container i (Element t a cs) [] (Element t a cs) p d
                    (Nat.min tgt (length d)) Hi eq_refl Ha (Nat.le_min_r _ _)) as E.
      cbn [app] in E. rewrite E. discriminate.
    + destruct (querySelector lineContentClass lineEl) as [[pc lineContent]|] eqn:Hq;
        [|discriminate].
      destruct (querySelector_nodeAt _ _ _ _ Hq) as [Hpc _].
      destruct lineContent as [d0|t a [|firstChild cs]]; try discriminate.
      unfold setStart, resolve. rewrite Hi, (nodeAt_app _ _ _ [0] Hpc). cbn. discriminate.
  - intros H. apply nth_error_None in H. now rewrite H.
Qed.

(** C8, the earlier revision.  On the surface that revision renders
    for the document [abc] (one line, no gutter), a position whose
    offset is past the end of the line puts the cursor at the start of
    the content, offset 0, where the claim asks for the end; the
    current revision puts it at offset 3 on the same surface. *)
Theorem earlier_restore_puts_caret_at_start :
  let pos := {| lineIndex := 0; offset := 10 |} in
  option_map
    (fun container =>
       (EarlierRevision.restoreCursorPosition container pos,
        restoreCursorPosition container pos))
    (setInnerHTML (div (js "line") [] (js "abc")))
  = Some (Placed {| startContainer := [0; 0; 0]; startOffset := 0 |},
          Placed {| startContainer := [0; 0; 0]; startOffset := 3 |}).
Proof. vm_compute. reflexivity. Qed.

(** ** Evaluations at concrete inputs *)

(** C3.  The underscore italic pattern has no alphanumeric guard: in
    [foo_bar_baz] the inner [_bar_] is styled as italic, whereas the
    double-underscore pattern leaves [foo__bar__baz] alone. *)
Theorem underscore_italic_inside_word :
  styleInline (js "foo_bar_baz")
    = Some (js "foo"
            ++ span "md-italic" (syn (js "_") ++ tagged "em" (js "bar") ++ syn (js "_"))
            ++ js "baz")
  /\ styleInline (js "foo__bar__baz") = Some (js "foo__bar__baz").
Proof. split; vm_compute; reflexivity. Qed.

(** C1.  A quote line without a blank after its marker comes back with
    one: the round trip of [>a] is [> a], which no trimming of
    trailing whitespace undoes.  A closing fence loses the rest of its
    line. *)
Theorem roundtrip_changes_tight_quote :
  roundTrip (js ">a") = Some (js "> a")
  /\ normalize (js "> a") <> normalize (js ">a")
  /\ roundTrip (js "```" ++ [LF] ++ js "```x") = Some (js "```" ++ [LF] ++ js "```").
Proof.
  split; [vm_compute; reflexivity|]. split; [vm_compute; discriminate|].
  vm_compute; reflexivity.
Qed.

(** C2.  On the surface of the one-line document [abc], with the
    caret after [a] in the content text, [saveCursorPosition] walks the
    text of the gutter too (the line number and the icon of the
    line-type button) and returns offset 3; [restoreCursorPosition] at
    that position puts the caret after [c]. *)
Theorem save_counts_gutter_text :
  let caret := {| startContainer := [0; 1; 0]; startOffset := 1 |} in
  option_map
    (fun container =>
       (resolve container [0; 1],
        resolve container [0; 1; 0],
        saveCursorPosition container (Some caret),
        restoreCursorPosition container {| lineIndex := 0; offset := 3 |}))
    (surface (js "abc"))
  = Some (Some (Element (js "span") [(js "class", js "line-content")] [Text (js "abc")]),
          Some (Text (js "abc")),
          Some {| lineIndex := 0; offset := 3 |},
          Placed {| startContainer := [0; 1; 0]; startOffset := 3 |}).
Proof. vm_compute. reflexivity. Qed.

(** A heading line that ends in a carriage return, as every heading of
    a document with CRLF line ends does once the text is split at the
    line feeds: the heading pattern of [styleLine] fails, since its dot
    matches no line terminator, and the line is styled as a paragraph,
    while [getLineType] classifies it as [h1]. *)
Theorem heading_before_carriage_return :
  let l := js "# Title" ++ [13%N] in
  rmatch headingRe l = None
  /\ styleLine l = styleInline l
  /\ styleLine l = Some l
  /\ type (getLineType l) = h1
  /\ option_map (fun m => cap m 1) (rmatch headingRe (js "# Title")) = Some (js "#").
Proof. repeat split; vm_compute; reflexivity. Qed.

(** ** The matcher against the declarative reading of patterns *)

Lemma captured_app : forall m pre, captured pre (rev m ++ pre) = m.
Proof.
  intros m pre. unfold captured.
  rewrite length_app, length_rev, Nat.add_sub, <- (length_rev m), firstn_length_app.
  apply rev_involutive.
Qed.

Lemma rep_sound : forall (R : Type) g p input lo hi pre (k : str -> str -> option R) res,
  rep g p lo hi pre input k = Some res ->
  exists m rest,
    input = m ++ rest /\ forallb p m = true /\ lo <= length m
    /\ (forall h, hi = Some h -> length m <= h)
    /\ k (rev m ++ pre) rest = Some res.
Proof.
  intros R g p.
  assert (Hstop : forall lo hi pre input (k : str -> str -> option R) res,
            stop_here lo k pre input = Some res ->
            exists m rest,
              input = m ++ rest /\ forallb p m = true /\ lo <= length m
              /\ (forall h, hi = Some h -> length m <= h)
              /\ k (rev m ++ pre) rest = Some res).
  { intros lo hi pre input k res H. destruct lo; [|discriminate].
    exists [], input. simpl. repeat split; auto. intros; lia. }
  induction input as [|c input IH]; intros lo hi pre k res H; simpl in H.
  - now apply Hstop.
  - destruct (p c && can_take hi) eqn:E; [|now apply Hstop].
    apply andb_prop in E. destruct E as [Hp Hc].
    assert (Hmore : rep g p (pred lo) (option_map pred hi) (c :: pre) input k = Some res ->
              exists m rest,
                c :: input = m ++ rest /\ forallb p m = true /\ lo <= length m
                /\ (forall h, hi = Some h -> length m <= h)
                /\ k (rev m ++ pre) rest = Some res).
    { intros H'. destruct (IH _ _ _ _ _ H') as (m & rest & -> & Hm & Hlo & Hhi & Hk).
      exists (c :: m), rest. simpl. rewrite Hp, Hm, <- app_assoc. simpl.
      repeat split; auto; [lia|].
      intros h ->. destruct h; [discriminate|]. specialize (Hhi h eq_refl). lia. }
    destruct g.
    + destruct (rep true p (pred lo) (option_map pred hi) (c :: pre) input k) eqn:E1.
      * injection H as ->. now apply Hmore.
      * now apply Hstop.
    + destruct (stop_here lo k pre (c :: input)) eqn:E1.
      * injection H as ->. now apply Hstop.
      * now apply Hmore.
Qed.

Lemma mt_sound : forall (R : Type) r pre input cs (k : str -> str -> captures -> option R) res,
  mt r pre input cs k = Some res ->
  exists m rest cs',
    input = m ++ rest /\ ms r pre m rest cs cs' /\ k (rev m ++ pre) rest cs' = Some res.
Proof.
  intros R. induction r as [|p|a IHa b IHb|a IHa b IHb|g lo hi p|i a IHa| | |p|p];
    intros pre input cs k res H; simpl in H.
  - exists [], input, cs. repeat split; auto. constructor.
  - destruct input as [|c input]; [discriminate|]. destruct (p c) eqn:E; [|discriminate].
    exists [c], input, cs. repeat split; auto. now constructor.
  - apply IHa in H. destruct H as (m1 & rest1 & cs1 & -> & H1 & H).
    apply IHb in H. destruct H as (m2 & rest & cs2 & -> & H2 & H).
    exists (m1 ++ m2), rest, cs2. rewrite rev_app_distr, <- !app_assoc.
    repeat split; auto. econstructor; eauto.
  - destruct (mt a pre input cs k) eqn:E.
    + injection H as ->. apply IHa in E. destruct E as (m & rest & cs' & -> & H1 & H).
      exists m, rest, cs'. repeat split; auto. now apply ms_alt_l.
    + apply IHb in H. destruct H as (m & rest & cs' & -> & H1 & H).
      exists m, rest, cs'. repeat split; auto. now apply ms_alt_r.
  - apply rep_sound in H. destruct H as (m & rest & -> & Hm & Hlo & Hhi & H).
    exists m, rest, cs. repeat split; auto. now constructor.
  - apply IHa in H. destruct H as (m & rest & cs' & -> & H1 & H).
    rewrite captured_app in H.
    exists m, rest, ((i, m) :: cs'). repeat split; auto. now constructor.
  - destruct pre; [|discriminate]. exists [], input, cs. repeat split; auto. constructor.
  - destruct input; [|discriminate]. exists [], [], cs. repeat split; auto. constructor.
  - exists [], input, cs. repeat split; auto.
    + constructor. destruct pre as [|c pre]; [exact I|]. now destruct (p c).
    + destruct pre as [|c pre]; [exact H|]. now destruct (p c).
  - exists [], input, cs. repeat split; auto.
    + constructor. destruct input as [|c input]; [exact I|]. now destruct (p c).
    + destruct input as [|c input]; [exact H|]. now destruct (p c).
Qed.

Lemma exec_sound : forall r pre input pre' rest cs,
  exec r pre input = Some (pre', rest, cs) ->
  exists m, input = m ++ rest /\ pre' = rev m ++ pre /\ ms r pre m rest [] cs.
Proof.
  intros r pre input pre' rest cs H. unfold exec in H. apply mt_sound in H.
  destruct H as (m & rest0 & cs' & -> & Hms & H). injection H as <- <- <-.
  now exists m.
Qed.

Lemma search_from_sound : forall r input pre before rest cs,
  search_from r pre input = Some (before, rest, cs) ->
  exists skipped m,
    before = rev skipped ++ pre /\ input = skipped ++ m ++ rest /\ ms r before m rest [] cs.
Proof.
  intros r. induction input as [|c input IH]; intros pre before rest cs H; simpl in H.
  - destruct (exec r pre []) as [[[pre' rest'] cs']|] eqn:E; [|discriminate].
    injection H as <- <- <-. apply exec_sound in E. destruct E as (m & E & _ & Hms).
    exists [], m. now repeat split.
  - destruct (exec r pre (c :: input)) as [[[pre' rest'] cs']|] eqn:E.
    + injection H as <- <- <-. apply exec_sound in E. destruct E as (m & E & _ & Hms).
      exists [], m. now repeat split.
    + apply IH in H. destruct H as (skipped & m & -> & -> & Hms).
      exists (c :: skipped), m. simpl. rewrite <- app_assoc. now repeat split.
Qed.

Lemma rmatch_sound : forall r s cs,
  rmatch r s = Some cs ->
  exists skipped m rest, s = skipped ++ m ++ rest /\ ms r (rev skipped) m rest [] cs.
Proof.
  intros r s cs H. unfold rmatch in H.
  destruct (search_from r [] s) as [[[before rest] cs']|] eqn:E; [|discriminate].
  injection H as <-. apply search_from_sound in E.
  destruct E as (skipped & m & -> & -> & Hms). rewrite app_nil_r in Hms.
  now exists skipped, m, rest.
Qed.

(** Captures are made of input consumed by the match. *)
Lemma ms_caps_Forall : forall (P : cu -> Prop) r pre m rest cs cs',
  ms r pre m rest cs cs' ->
  Forall P m ->
  (forall i, Forall P (cap cs i)) ->
  forall i, Forall P (cap cs' i).
Proof.
  intros P r pre m rest cs cs' H.
  induction H; intros Hm Hcs j; auto.
  - apply Forall_app in Hm. destruct Hm as [Hm1 Hm2]. auto.
  - simpl. destruct (Nat.eqb j i); auto.
Qed.

Lemma cap_nil : forall i, cap [] i = [].
Proof. reflexivity. Qed.

Lemma exec_caps_Forall : forall (P : cu -> Prop) r pre input pre' rest cs,
  exec r pre input = Some (pre', rest, cs) ->
  Forall P input ->
  forall i, Forall P (cap cs i).
Proof.
  intros P r pre input pre' rest cs H Hin.
  apply exec_sound in H. destruct H as (m & -> & _ & Hms).
  apply Forall_app in Hin. destruct Hin as [Hm _].
  apply (ms_caps_Forall P _ _ _ _ _ _ Hms Hm). intros i. constructor.
Qed.

(** A replacement built from captures and text that satisfy a
    condition on code units yields text that satisfies it. *)
Lemma replace_all_from_Forall : forall (P : cu -> Prop) r f,
  (forall cs, (forall i, Forall P (cap cs i)) -> Forall P (f cs)) ->
  forall rest pre skip, Forall P rest -> Forall P (replace_all_from r f pre rest skip).
Proof.
  intros P r f Hf. induction rest as [|c rest IH]; intros pre skip Hrest; simpl.
  - destruct skip; [|constructor].
    destruct (exec r pre []) as [[[pre' rest'] cs]|] eqn:E; [|constructor].
    apply Hf. now apply (exec_caps_Forall P _ _ _ _ _ _ E).
  - destruct skip as [|n]; [|apply IH; now inversion Hrest].
    assert (Hc : P c) by now inversion Hrest.
    assert (Hr : Forall P rest) by now inversion Hrest.
    destruct (exec r pre (c :: rest)) as [[[pre' rest'] cs]|] eqn:E.
    + assert (Hfc : Forall P (f cs)).
      { apply Hf. now apply (exec_caps_Forall P _ _ _ _ _ _ E). }
      destruct (length pre' - length pre); apply Forall_app; split; auto.
    + constructor; auto.
Qed.

Lemma replace_all_Forall : forall (P : cu -> Prop) r f,
  (forall cs, (forall i, Forall P (cap cs i)) -> Forall P (f cs)) ->
  forall s, Forall P s -> Forall P (replace_all r f s).
Proof.
  intros P r f Hf s Hs. now apply replace_all_from_Forall.
Qed.

(** ** Anchored patterns *)

Lemma search_from_bol_later : forall r input c pre,
  search_from (Seq Bol r) (c :: pre) input = None.
Proof.
  intros r. induction input as [|x input IH]; intros c pre; simpl; [reflexivity|].
  apply IH.
Qed.

(** A pattern that starts with [^] is tried at the start only. *)
Lemma search_anchored : forall r s,
  search_from (Seq Bol r) [] s
  = match exec (Seq Bol r) [] s with
    | Some (_, rest, cs) => Some ([], rest, cs)
    | None => None
    end.
Proof.
  intros r s. destruct s as [|c s]; simpl.
  - destruct (exec (Seq Bol r) [] []) as [[[? ?] ?]|]; reflexivity.
  - destruct (exec (Seq Bol r) [] (c :: s)) as [[[? ?] ?]|]; [reflexivity|].
    apply search_from_bol_later.
Qed.

Lemma replace_first_anchored : forall r f s,
  replace_first (Seq Bol r) f s
  = match exec (Seq Bol r) [] s with
    | Some (_, rest, cs) => f cs ++ rest
    | None => s
    end.
Proof.
  intros r f s. unfold replace_first. rewrite search_anchored.
  destruct (exec (Seq Bol r) [] s) as [[[? ?] ?]|]; reflexivity.
Qed.

Lemma test_anchored : forall r s,
  test (Seq Bol r) s = match exec (Seq Bol r) [] s with Some _ => true | None => false end.
Proof.
  intros r s. unfold test, rmatch. rewrite search_anchored.
  destruct (exec (Seq Bol r) [] s) as [[[? ?] ?]|]; reflexivity.
Qed.

Lemma remove_unmatched : forall r s, test r s = false -> remove r s = s.
Proof.
  intros r s H. unfold remove, replace_first. unfold test, rmatch in H.
  destruct (search_from r [] s) as [[[? ?] ?]|]; [discriminate|reflexivity].
Qed.


Lemma rep_exhausted : forall (R : Type) g p lo pre rest (k : str -> str -> option R),
  rep g p lo (Some 0) pre rest k = stop_here lo k pre rest.
Proof.
  intros. destruct rest as [|c rest]; simpl; [reflexivity|]. now rewrite andb_false_r.
Qed.

Lemma unmarked_remove : forall text r,
  unmarked text = true -> In r stripPatterns -> remove r text = text.
Proof.
  intros text r H Hr. apply remove_unmatched.
  unfold unmarked in H. rewrite forallb_forall in H. specialize (H r Hr).
  now destruct (test r text).
Qed.

(** Evaluate the innermost [remove r] of the goal, whose argument
    starts with known code units. *)
Ltac eval_remove r :=
  match goal with
  | |- context [remove r ?arg] =>
      lazymatch arg with _ :: _ => idtac end;
      let E := fresh "E" in
      eassert (E : remove r arg = _);
      [ unfold remove, r; cbn [seqs]; rewrite replace_first_anchored; cbn;
        rewrite ?rep_exhausted; cbn; reflexivity
      | rewrite E; clear E ]
  end.

Ltac literal_marker :=
  match goal with
  | |- context [js ?m ++ ?text] =>
      let v := eval vm_compute in (js m) in
      change (js m ++ text) with (v ++ text); cbn [app]
  end.


Ltac unfold_patterns :=
  unfold headingPrefixRe, hrLineRe, taskPrefixRe, ulPrefixRe, olPrefixRe, alertPrefixRe,
    quoteStartRe, fenceStartRe, stripHeadingRe, stripTaskRe, stripFenceRe, quotePrefixRe in *;
  cbn [seqs] in *.

Ltac eval_getLineType H :=
  unfold getLineType, LINE_TYPES in H; cbn [firstMatching pattern] in H;
  unfold_patterns; rewrite !test_anchored in H; cbn in H.

Lemma ul_not_task : forall text,
  type (getLineType (js "- " ++ text)) = ul ->
  remove stripTaskRe (js "- " ++ text) = js "- " ++ text.
Proof.
  intros text H. literal_marker.
  change (js "- " ++ text) with (45%N :: 32%N :: text) in H.
  unfold remove. unfold stripTaskRe; cbn [seqs]. rewrite replace_first_anchored.
  eval_getLineType H.
  destruct text as [|c1 [|c2 [|c3 [|c4 text]]]]; cbn in *; try reflexivity.
  all: destruct (isCh "[" c1); try reflexivity.
  all: destruct (isCheck c2); try reflexivity.
  all: destruct (isCh "]" c3); try reflexivity.
  all: cbn in H; discriminate H.
Qed.
Lemma nth_middle_default : forall (A : Type) (before after : list A) (x d : A),
  nth (length before) (before ++ x :: after) d = x.
Proof.
  induction before; simpl; auto.
Qed.

Ltac strip_through :=
  repeat first
    [ eval_remove hrLineRe | eval_remove stripHeadingRe | eval_remove stripTaskRe
    | eval_remove ulPrefixRe | eval_remove olPrefixRe | eval_remove quotePrefixRe
    | eval_remove stripFenceRe ].

(** On a line made of the canonical marker of the type the classifier
    gives it, followed by text that none of the seven patterns matches,
    the stripping step removes exactly that marker, and [applyLineType]
    puts the canonical marker of the new type in its place (for [hr]
    the rule itself, for [code] a fence around the text). *)
Theorem strip_inverts_prepend :
  forall (t t' : LineTypeName) (marker text : str) (before after : list str),
    canonicalMarker t = Some marker ->
    unmarked text = true ->
    type (getLineType (marker ++ text)) = t ->
    stripLinePrefix (marker ++ text) = text
    /\ applyLineType (before ++ (marker ++ text) :: after) (length before) t'
       = join [LF] (before ++ applyPrefix t' text :: after).
Proof.
  intros t t' marker text before after Hm Hu Hcls.
  assert (Hstrip : stripLinePrefix (marker ++ text) = text).
  { assert (Hrest : forall r, In r stripPatterns -> remove r text = text)
      by (intros r Hr; now apply unmarked_remove).
    unfold stripLinePrefix.
    destruct t; cbn [canonicalMarker] in Hm; try discriminate Hm;
      injection Hm as <-.
    8: { (* bullet: the classification rules out a checkbox after the marker *)
      pose proof (ul_not_task text Hcls) as Htask.
      literal_marker.
      eval_remove hrLineRe. eval_remove stripHeadingRe.
      change (45%N :: 32%N :: text) with (js "- " ++ text). rewrite Htask.
      literal_marker. eval_remove ulPrefixRe.
      rewrite !Hrest; simpl; tauto. }
    all: literal_marker; strip_through; rewrite ?Hrest; simpl; tauto. }
  split; [exact Hstrip|].
  unfold applyLineType. rewrite nth_middle_default, Hstrip, setAt_app. reflexivity.
Qed.

Lemma strip_inverts_prepend_witness :
  stripLinePrefix (js "- " ++ js "item") = js "item"
  /\ applyLineType ([] ++ (js "- " ++ js "item") :: []) (length (@nil str)) code
     = join [LF] ([] ++ applyPrefix code (js "item") :: []).
Proof.
  apply (strip_inverts_prepend ul code (js "- ") (js "item") [] []);
    vm_compute; reflexivity.
Defined.


Lemma code_fence_suppresses_classification_witness :
  nth_error (firstPass initialState ([js "```"] ++ js "# not a heading" :: [js "```"]))
    (length [js "```"])
    = Some (codeContentInfo (js "# not a heading"))
  /\ forall i inCode prev next,
       renderBlock i inCode prev (codeContentInfo (js "# not a heading")) next
       = Some (div (js "line code-content"
                    ++ match escapeHtml (js "# not a heading") with
                       | [] => js " empty-line"
                       | _ :: _ => []
                       end)
                 (generateLinePrefix (i + 1) (js "# not a heading") true)
                 (span "code-inner" (orBr (escapeHtml (js "# not a heading")))), inCode).
Proof.
  apply (code_fence_suppresses_classification [js "```"] [js "```"] (js "# not a heading"));
    reflexivity.
Defined.

(** ** Placeholders *)

Lemma uint_digits_digits : forall d, forallb isDigit (uint_digits d) = true.
Proof. induction d; simpl; auto. Qed.

Lemma uint_digits_nil : forall d, uint_digits d = [] -> d = Decimal.Nil.
Proof. destruct d; simpl; intros H; auto; discriminate. Qed.

Lemma decimal_nonempty : forall n, decimal n <> [].
Proof.
  intros n H. unfold decimal in H. apply uint_digits_nil in H.
  pose proof (Unsigned.of_to n) as E. rewrite H in E. simpl in E. subst n.
  discriminate H.
Qed.

Lemma parseInt_acc : forall d acc,
  fold_left (fun a c => (a * 10 + (c - 48))%N) (uint_digits d) acc
  = N.of_nat (Nat.of_uint_acc d (N.to_nat acc)).
Proof.
  induction d; intros acc; simpl;
    try (rewrite IHd; f_equal; f_equal; rewrite Nat.tail_mul_spec; lia).
  now rewrite N2Nat.id.
Qed.

Lemma parseInt_decimal : forall n, parseInt (decimal n) = N.of_nat n.
Proof.
  intros n. unfold parseInt, decimal. rewrite parseInt_acc. simpl.
  change (Nat.of_uint_acc (Nat.to_uint n) 0) with (Nat.of_uint (Nat.to_uint n)).
  now rewrite Unsigned.of_to.
Qed.

Lemma isDigit_phChar : forall c, isDigit c = true -> phChar c = true.
Proof. intros c H. unfold phChar. rewrite H. now rewrite !orb_true_r. Qed.

Lemma placeholder_phChar : forall i, forallb phChar (placeholder i) = true.
Proof.
  intros i. unfold placeholder. rewrite !forallb_app.
  assert (H : forallb phChar (decimal i) = true).
  { unfold decimal. pose proof (uint_digits_digits (Nat.to_uint i)) as H.
    rewrite forallb_forall in *. intros c Hc. apply isDigit_phChar. auto. }
  now rewrite H.
Qed.

Lemma placeholder_head : forall i, exists s, placeholder i = 0%N :: s.
Proof. intros i. eexists. reflexivity. Qed.

Lemma placed_app : forall n a b, placed n a -> placed n b -> placed n (a ++ b).
Proof.
  intros n a b Ha Hb. induction Ha; simpl; auto.
  - now apply placed_char.
  - rewrite <- app_assoc. now apply placed_holder.
Qed.

Lemma placed_mono : forall n m s, placed n s -> n <= m -> placed m s.
Proof.
  intros n m s H Hle. induction H.
  - apply placed_nil.
  - now apply placed_char.
  - apply placed_holder; [lia|assumption].
Qed.

Lemma nulFree_Forall : forall s, nulFree s = true <-> Forall (fun c => c <> 0%N) s.
Proof.
  intros s. unfold nulFree. rewrite forallb_forall, Forall_forall.
  split; intros H c Hc; specialize (H c Hc).
  - intros ->. discriminate H.
  - unfold cu_eqb. destruct (N.eqb_spec c 0); [contradiction|reflexivity].
Qed.

Lemma placed_nulFree : forall n s, nulFree s = true -> placed n s.
Proof.
  intros n s H. apply nulFree_Forall in H. induction H.
  - apply placed_nil.
  - now apply placed_char.
Qed.

Lemma placed_cons_inv : forall n c s, placed n (c :: s) -> c <> 0%N -> placed n s.
Proof.
  intros n c s H Hc. remember (c :: s) as l eqn:El.
  destruct H as [|x s' Hx Hs'|i s' Hi Hs'].
  - discriminate El.
  - injection El as -> ->. exact Hs'.
  - destruct (placeholder_head i) as [t E]. rewrite E in El. simpl in El.
    injection El as <- _. contradiction.
Qed.

(** A code unit that no placeholder contains sits between placeholders. *)
Lemma placed_split : forall n s, placed n s ->
  forall a c b, s = a ++ c :: b -> phChar c = false -> placed n a /\ placed n b.
Proof.
  intros n s H. induction H as [|x s Hx Hs IH|i s Hi Hs IH]; intros a c b E Hc.
  - now destruct a.
  - destruct a as [|y a]; simpl in E; injection E as -> ->.
    + split; [apply placed_nil|exact Hs].
    + destruct (IH a c b eq_refl Hc) as [Ha Hb]. split; [now apply placed_char|exact Hb].
  - apply app_eq_app in E. destruct E as [l [[E1 E2]|[E1 E2]]].
    + destruct l as [|y l].
      * rewrite app_nil_r in E1. subst a. simpl in E2.
        destruct (IH [] c b (eq_sym E2) Hc) as [_ Hb].
        split; [|exact Hb]. rewrite <- (app_nil_r (placeholder i)).
        apply placed_holder; [auto|apply placed_nil].
      * simpl in E2. injection E2 as <- E2.
        pose proof (placeholder_phChar i) as Hp. rewrite E1, forallb_app in Hp.
        simpl in Hp. rewrite Hc in Hp. simpl in Hp. rewrite andb_false_r in Hp. discriminate.
    + subst a. destruct (IH l c b E2 Hc) as [Ha Hb].
      split; [now apply placed_holder|exact Hb].
Qed.

(** ** Global replacement and placeholders *)

Lemma replace_all_from_skip : forall r f m rest pre,
  replace_all_from r f pre (m ++ rest) (length m) = replace_all_from r f (rev m ++ pre) rest 0.
Proof.
  intros r f. induction m as [|c m IH]; intros rest pre; simpl.
  - destruct rest; reflexivity.
  - rewrite IH, <- app_assoc. reflexivity.
Qed.

(** After a match that consumes input, the replacement goes on after it. *)
Lemma replace_all_from_match : forall r f pre rest pre' rest' cs,
  exec r pre rest = Some (pre', rest', cs) ->
  length rest' < length rest ->
  replace_all_from r f pre rest 0 = f cs ++ replace_all_from r f pre' rest' 0.
Proof.
  intros r f pre rest pre' rest' cs E Hlen.
  destruct (exec_sound _ _ _ _ _ _ E) as (m & Hm & -> & _).
  destruct m as [|c m]; simpl in Hm; subst rest; [lia|].
  simpl. rewrite E. simpl.
  rewrite !length_app, length_rev. simpl.
  replace (length m + 1 + length pre - length pre) with (S (length m)) by lia.
  rewrite replace_all_from_skip, <- app_assoc. reflexivity.
Qed.

(** No match starts inside a run of code units the pattern cannot
    start with. *)
Lemma replace_all_from_through : forall r f (p : cu -> bool),
  (forall pre c rest, p c = true -> exec r pre (c :: rest) = None) ->
  forall a s pre,
    forallb p a = true ->
    replace_all_from r f pre (a ++ s) 0 = a ++ replace_all_from r f (rev a ++ pre) s 0.
Proof.
  intros r f p H1. induction a as [|c a IH]; intros s pre Ha; simpl in *.
  - reflexivity.
  - apply andb_prop in Ha. destruct Ha as [Hc Ha].
    rewrite (H1 pre c (a ++ s) Hc), (IH s (c :: pre) Ha), <- app_assoc. reflexivity.
Qed.

Section ReplacePlaced.
Variable n : nat.
Variable r : re.
Variable f : captures -> str.
Hypothesis starts_outside : forall pre c rest, phChar c = true -> exec r pre (c :: rest) = None.
Hypothesis never_empty : forall pre, exec r pre [] = None.
Hypothesis keeps_placed : forall pre rest pre' rest' cs,
  exec r pre rest = Some (pre', rest', cs) ->
  placed n rest ->
  placed n (f cs) /\ placed n rest' /\ length rest' < length rest.

Lemma replace_all_from_placed : forall k rest pre,
  length rest <= k -> placed n rest -> placed n (replace_all_from r f pre rest 0).
Proof.
  induction k as [|k IH]; intros rest pre Hk H.
  - destruct rest; [|simpl in Hk; lia]. simpl. rewrite never_empty. apply placed_nil.
  - destruct H as [|c s Hc Hs|i s Hi Hs].
    + simpl. rewrite never_empty. apply placed_nil.
    + destruct (exec r pre (c :: s)) as [[[pre' rest'] cs]|] eqn:E.
      * destruct (keeps_placed _ _ _ _ _ E (@placed_char n c s Hc Hs)) as (Hf & Hr & Hlen).
        rewrite (replace_all_from_match _ _ _ _ _ _ _ E Hlen).
        apply placed_app; [exact Hf|]. apply IH; [simpl in *; lia|exact Hr].
      * simpl. rewrite E. apply placed_char; [exact Hc|].
        apply IH; [simpl in Hk; lia|exact Hs].
    + rewrite (replace_all_from_through r f phChar starts_outside _ _ _ (placeholder_phChar i)).
      apply placed_holder; [exact Hi|]. apply IH; [|exact Hs].
      rewrite length_app in Hk. destruct (placeholder_head i) as [t E]. rewrite E in Hk.
      simpl in Hk. lia.
Qed.

Lemma replace_all_placed : forall s, placed n s -> placed n (replace_all r f s).
Proof.
  intros s H. unfold replace_all. now apply (replace_all_from_placed (length s)).
Qed.
End ReplacePlaced.
(** ** The passes of the inline styler and placeholders *)

Lemma isCh_phChar : forall a, phChar (ch a) = false ->
  forall c, phChar c = true -> isCh a c = false.
Proof.
  intros a Ha c Hc. unfold isCh, cu_eqb. destruct (N.eqb_spec c (ch a)) as [->|]; [|reflexivity].
  congruence.
Qed.

Lemma cu_eqb_phChar : forall k c, phChar k = false -> phChar c = true -> cu_eqb k c = false.
Proof.
  intros k c Hk Hc. unfold cu_eqb. destruct (N.eqb_spec k c) as [->|]; [|reflexivity].
  congruence.
Qed.

Lemma isCh_true : forall a c, isCh a c = true -> c = ch a.
Proof. intros a c H. now apply N.eqb_eq in H. Qed.

Lemma cu_eqb_true : forall k c, cu_eqb k c = true -> c = k.
Proof. intros k c H. apply N.eqb_eq in H. now symmetry. Qed.

(** Inversion of the declarative reading of a concrete pattern. *)
Ltac inv_ms :=
  repeat match goal with
  | H : ms (Seq _ _) _ _ _ _ _ |- _ => inversion H; subst; clear H
  | H : ms (Chr _) _ _ _ _ _ |- _ => inversion H; subst; clear H
  | H : ms (Group _ _) _ _ _ _ _ |- _ => inversion H; subst; clear H
  | H : ms (Rep _ _ _ _) _ _ _ _ _ |- _ => inversion H; subst; clear H
  | H : ms (NotBehind _) _ _ _ _ _ |- _ => inversion H; subst; clear H
  | H : ms (NotAhead _) _ _ _ _ _ |- _ => inversion H; subst; clear H
  | H : ms Eps _ _ _ _ _ |- _ => inversion H; subst; clear H
  | H : ms Bol _ _ _ _ _ |- _ => inversion H; subst; clear H
  | H : ms Eol _ _ _ _ _ |- _ => inversion H; subst; clear H
  | H : isCh _ _ = true |- _ => apply isCh_true in H; subst
  | H : cu_eqb _ _ = true |- _ => apply cu_eqb_true in H; subst
  end.

Lemma rep_greedy_all : forall (R : Type) (p : cu -> bool) a b pre lo (k : str -> str -> option R) res,
  forallb p a = true ->
  match b with c :: _ => p c = false | [] => True end ->
  lo <= length a ->
  k (rev a ++ pre) b = Some res ->
  rep true p lo None pre (a ++ b) k = Some res.
Proof.
  intros R p. induction a as [|c a IH]; intros b pre lo k res Ha Hb Hlo Hk; simpl in *.
  - assert (lo = 0) by lia. subst lo.
    destruct b as [|c b]; simpl; [exact Hk|]. now rewrite Hb.
  - apply andb_prop in Ha. destruct Ha as [Hc Ha]. rewrite Hc. simpl.
    rewrite (IH b (c :: pre) (pred lo) k res Ha Hb); [reflexivity|lia|].
    now rewrite <- app_assoc in Hk.
Qed.

Lemma decimal_digits : forall i, forallb isDigit (decimal i) = true.
Proof. intros i. apply uint_digits_digits. Qed.

Lemma exec_restore_placeholder : forall i s pre,
  exec restoreRe pre (placeholder i ++ s)
  = Some (rev (placeholder i) ++ pre, s, [(1, decimal i)]).
Proof.
  intros i s pre. unfold exec, restoreRe, placeholder, ESCAPE_PLACEHOLDER.
  cbn -[rep decimal captured]. rewrite <- app_assoc.
  apply rep_greedy_all.
  - apply decimal_digits.
  - reflexivity.
  - pose proof (decimal_nonempty i). destruct (decimal i); [contradiction|simpl; lia].
  - cbn -[decimal captured]. rewrite captured_app.
    rewrite !rev_app_distr. cbn -[decimal]. rewrite <- !app_assoc. reflexivity.
Qed.

Ltac unfold_inline_patterns :=
  unfold imageRe, footnoteRe, linkRe, boldItalicRe, boldRe, boldUnderscoreRe, italicRe,
    italicUnderscoreRe, codeRe, mathRe, strikeRe, star, plus, opt, lazy_plus in *.

Ltac first_unit_fails c Hc :=
  repeat match goal with
  | |- context [isCh ?a c] => rewrite (isCh_phChar a eq_refl c Hc)
  | |- context [cu_eqb ?k c] => rewrite (cu_eqb_phChar k c eq_refl Hc)
  end.

(** A pattern whose first code unit is a punctuation mark cannot start
    on a code unit of a placeholder. *)
Ltac starts_outside_tac :=
  let pre := fresh "pre" in let c := fresh "c" in let rest := fresh "rest" in
  let Hc := fresh "Hc" in
  intros pre c rest Hc; unfold exec; unfold_inline_patterns;
  cbn -[isCh notCh isDot isAlnum cu_eqb rep];
  try (destruct pre as [|? ?];
       [|match goal with |- context [if ?b then None else _] => destruct b end]);
  first_unit_fails c Hc; reflexivity.

Ltac never_empty_tac :=
  let pre := fresh "pre" in
  intros pre; unfold exec; unfold_inline_patterns;
  cbn -[isCh notCh isDot isAlnum cu_eqb rep];
  try (destruct pre as [|? ?];
       [|match goal with |- context [if ?b then None else _] => destruct b end]);
  reflexivity.

Lemma literal_nonzero : forall c : cu, cu_eqb c 0 = false -> c <> 0%N.
Proof. intros c H ->. discriminate H. Qed.

Ltac split_placed :=
  repeat match goal with
  | H : placed _ (?c :: ?s) |- _ =>
      apply placed_cons_inv in H; [|apply literal_nonzero; reflexivity]
  | H : placed _ (?a ++ ?c :: ?b) |- _ =>
      let Ha := fresh "Hp" in let Hb := fresh "Hp" in
      destruct (placed_split _ _ H a c b eq_refl eq_refl) as [Ha Hb]; clear H
  end.

Ltac placed_pieces :=
  repeat apply placed_app;
  first [assumption | apply placed_nulFree; reflexivity | apply placed_nil].

Ltac keeps_placed_tac :=
  let pre := fresh "pre" in let rest := fresh "rest" in let pre' := fresh "pre'" in
  let rest' := fresh "rest'" in let cs := fresh "cs" in let E := fresh "E" in
  let H := fresh "H" in let m := fresh "m" in let Hms := fresh "Hms" in
  intros pre rest pre' rest' cs E H;
  destruct (exec_sound _ _ _ _ _ _ E) as (m & -> & -> & Hms); clear E;
  unfold_inline_patterns; cbn in Hms; inv_ms;
  repeat rewrite <- app_assoc in H; cbn [app] in H;
  split_placed;
  split; [unfold syn, tagged; unfold span, q; cbn [cap Nat.eqb]; placed_pieces
         |split; [assumption|rewrite !length_app; cbn [length]; lia]].

Lemma styleImages_placed : forall n s, placed n s -> placed n (styleImages s).
Proof.
  intros n s H. unfold styleImages. apply replace_all_placed; [| | |exact H].
  - starts_outside_tac.
  - never_empty_tac.
  - keeps_placed_tac.
Qed.

Ltac pass_placed H :=
  apply replace_all_placed; [starts_outside_tac | never_empty_tac | keeps_placed_tac | exact H].

Lemma styleFootnoteRefs_placed : forall n s, placed n s -> placed n (styleFootnoteRefs s).
Proof. intros n s H. unfold styleFootnoteRefs. pass_placed H. Qed.

Lemma styleLinks_placed : forall n s, placed n s -> placed n (styleLinks s).
Proof. intros n s H. unfold styleLinks. pass_placed H. Qed.

Lemma styleBoldItalic_placed : forall n s, placed n s -> placed n (styleBoldItalic s).
Proof. intros n s H. unfold styleBoldItalic. pass_placed H. Qed.

Lemma styleBold_placed : forall n s, placed n s -> placed n (styleBold s).
Proof. intros n s H. unfold styleBold. pass_placed H. Qed.

Lemma styleBoldUnderscore_placed : forall n s, placed n s -> placed n (styleBoldUnderscore s).
Proof. intros n s H. unfold styleBoldUnderscore. pass_placed H. Qed.

Lemma styleItalic_placed : forall n s, placed n s -> placed n (styleItalic s).
Proof. intros n s H. unfold styleItalic. pass_placed H. Qed.

Lemma styleItalicUnderscore_placed : forall n s, placed n s -> placed n (styleItalicUnderscore s).
Proof. intros n s H. unfold styleItalicUnderscore. pass_placed H. Qed.

Lemma styleCode_placed : forall n s, placed n s -> placed n (styleCode s).
Proof. intros n s H. unfold styleCode. pass_placed H. Qed.

Lemma styleMath_placed : forall n s, placed n s -> placed n (styleMath s).
Proof. intros n s H. unfold styleMath. pass_placed H. Qed.

Lemma styleStrike_placed : forall n s, placed n s -> placed n (styleStrike s).
Proof. intros n s H. unfold styleStrike. pass_placed H. Qed.

Lemma restoreMarkers_placed : forall n s, placed n s -> placed n (restoreMarkers s).
Proof.
  intros n s H. unfold restoreMarkers.
  apply replace_all_placed; [starts_outside_tac | never_empty_tac | keeps_placed_tac |].
  pass_placed H.
Qed.
Lemma replace_char_unchanged : forall c by_ a,
  forallb (fun x => negb (cu_eqb x c)) a = true -> replace_char c by_ a = a.
Proof.
  intros c by_. induction a as [|x a IH]; intros H; simpl in *; [reflexivity|].
  apply andb_prop in H. destruct H as [Hx Ha].
  destruct (cu_eqb x c); [discriminate|]. simpl. f_equal. now apply IH.
Qed.

Lemma replace_char_placed : forall n c by_ s,
  phChar c = false -> nulFree by_ = true ->
  placed n s -> placed n (replace_char c by_ s).
Proof.
  intros n c by_ s Hc Hby H. induction H as [|x s Hx Hs IH|i s Hi Hs IH].
  - apply placed_nil.
  - change (replace_char c by_ (x :: s))
      with ((if cu_eqb x c then by_ else [x]) ++ replace_char c by_ s).
    apply placed_app; [|exact IH].
    destruct (cu_eqb x c); [now apply placed_nulFree|].
    apply placed_char; [exact Hx|apply placed_nil].
  - unfold replace_char. rewrite flat_map_app. fold (replace_char c by_ (placeholder i)).
    fold (replace_char c by_ s). rewrite replace_char_unchanged.
    + now apply placed_holder.
    + pose proof (placeholder_phChar i) as Hp. rewrite forallb_forall in *.
      intros x Hx. specialize (Hp x Hx). unfold cu_eqb.
      destruct (N.eqb_spec x c) as [->|]; [congruence|reflexivity].
Qed.

Lemma escapeHtml_placed : forall n s, placed n s -> placed n (escapeHtml s).
Proof.
  intros n s H. unfold escapeHtml.
  repeat (apply replace_char_placed; [reflexivity|reflexivity|]). exact H.
Qed.

Lemma styleSpans_placed : forall n s, placed n s -> placed n (styleSpans s).
Proof.
  intros n s H. unfold styleSpans, styleEmphasis.
  apply styleStrike_placed, styleMath_placed, styleCode_placed, restoreMarkers_placed,
    styleItalicUnderscore_placed, styleItalic_placed, styleBoldUnderscore_placed,
    styleBold_placed, styleBoldItalic_placed, styleLinks_placed, styleFootnoteRefs_placed,
    styleImages_placed, escapeHtml_placed, H.
Qed.

Lemma extractEscape_eq : forall st cs,
  extractEscape st cs = Some (placeholder (length st), st ++ [cap cs 1]).
Proof.
  intros st cs. unfold extractEscape, placeholder. cbv zeta.
  rewrite length_app, Nat.add_sub. reflexivity.
Qed.

(** The first replacement never raises, and leaves text with whole
    placeholders, numbered below the number of characters collected. *)
Lemma extract_placed : forall rest pre st skip,
  nulFree rest = true ->
  exists out st',
    replace_all_with_from escapeRe extractEscape st pre rest skip = Some (out, st')
    /\ length st <= length st' /\ placed (length st') out.
Proof.
  induction rest as [|c rest IH]; intros pre st skip Hn.
  - exists [], st. simpl. destruct skip; repeat split; auto; apply placed_nil.
  - simpl in Hn. apply andb_prop in Hn. destruct Hn as [Hc Hn].
    assert (Hc' : c <> 0%N) by (intros ->; discriminate Hc).
    cbn [replace_all_with_from]. destruct skip as [|k]; [|apply IH; exact Hn].
    destruct (exec escapeRe pre (c :: rest)) as [[[pre' rest'] cs]|] eqn:E.
    + rewrite extractEscape_eq.
      destruct (length pre' - length pre) as [|k].
      * destruct (IH (c :: pre) (st ++ [cap cs 1]) 0 Hn) as (o & st' & -> & Hlen & Hp).
        rewrite length_app in Hlen. simpl in Hlen.
        exists (placeholder (length st) ++ c :: o), st'. repeat split; [lia|].
        apply placed_holder; [lia|]. now apply placed_char.
      * destruct (IH (c :: pre) (st ++ [cap cs 1]) k Hn) as (o & st' & -> & Hlen & Hp).
        rewrite length_app in Hlen. simpl in Hlen.
        exists (placeholder (length st) ++ o), st'. repeat split; [lia|].
        apply placed_holder; [lia|exact Hp].
    + destruct (IH (c :: pre) st 0 Hn) as (o & st' & -> & Hlen & Hp).
      exists (c :: o), st'. repeat split; auto. now apply placed_char.
Qed.

Lemma replace_all_with_from_skip :
  forall (St : Type) r (f : St -> captures -> option (str * St)) st m rest pre,
  replace_all_with_from r f st pre (m ++ rest) (length m)
  = replace_all_with_from r f st (rev m ++ pre) rest 0.
Proof.
  intros St r f st. induction m as [|c m IH]; intros rest pre; simpl.
  - destruct rest; reflexivity.
  - rewrite IH, <- app_assoc. reflexivity.
Qed.

(** On text with whole placeholders numbered below the number of
    collected characters, the last replacement does not raise. *)
Lemma restore_total : forall escapedChars k rest pre,
  length rest <= k -> placed (length escapedChars) rest ->
  exists out,
    replace_all_with_from restoreRe (restoreEscape escapedChars) tt pre rest 0 = Some (out, tt).
Proof.
  intros escapedChars. induction k as [|k IH]; intros rest pre Hk H.
  - destruct rest; [|simpl in Hk; lia]. exists []. reflexivity.
  - destruct H as [|c s Hc Hs|i s Hi Hs].
    + exists []. reflexivity.
    + assert (E : exec restoreRe pre (c :: s) = None).
      { unfold exec, restoreRe, ESCAPE_PLACEHOLDER. cbn -[cu_eqb rep].
        unfold cu_eqb. destruct (N.eqb_spec 0 c) as [<-|]; [contradiction|reflexivity]. }
      cbn [replace_all_with_from]. rewrite E.
      assert (Hlen : length s <= k) by (simpl in Hk; lia).
      match goal with
      | |- context [replace_all_with_from _ _ _ ?p s 0] =>
          destruct (IH s p Hlen Hs) as (o & ->)
      end.
      now exists (c :: o).
    + destruct (placeholder i) as [|c0 ph] eqn:Eph;
        [destruct (placeholder_head i) as [t Et]; congruence|].
      pose proof (exec_restore_placeholder i s pre) as E. rewrite Eph in E.
      cbn [app] in E. cbn [app replace_all_with_from]. rewrite E.
      assert (Hl : length (rev (c0 :: ph) ++ pre) - length pre = S (length ph))
        by (rewrite length_app, length_rev; cbn [length]; lia).
      rewrite Hl. unfold restoreEscape at 1. cbn [cap Nat.eqb].
      rewrite parseInt_decimal, Nat2N.id.
      destruct (nth_error escapedChars i) as [char|] eqn:En;
        [|apply nth_error_None in En; lia].
      rewrite replace_all_with_from_skip.
      assert (Hlen : length s <= k) by (rewrite length_app in Hk; cbn [length] in Hk; lia).
      match goal with
      | |- context [replace_all_with_from _ _ _ ?p s 0] =>
          destruct (IH s p Hlen Hs) as (o & ->)
      end.
      eexists. reflexivity.
Qed.

(** [styleInline] does not raise on text free of U+0000. *)
Theorem styleInline_total : forall text,
  nulFree text = true -> exists out, styleInline text = Some out.
Proof.
  intros text H. unfold styleInline. destruct text as [|c text]; [now exists []|].
  unfold replace_all_with.
  destruct (extract_placed (c :: text) [] [] 0 H) as (s1 & esc & -> & _ & Hp).
  cbn [bind].
  destruct (restore_total esc (length (styleSpans s1)) (styleSpans s1) [] (le_n _)
              (styleSpans_placed _ _ Hp)) as (out & ->).
  now exists out.
Qed.

(** ** The renderer returns on documents free of U+0000 *)

Lemma rmatch_caps_nulFree : forall r s m,
  rmatch r s = Some m -> nulFree s = true -> forall i, nulFree (cap m i) = true.
Proof.
  intros r s m H Hs i. apply rmatch_sound in H.
  destruct H as (skipped & mm & rest & -> & Hms).
  apply nulFree_Forall. apply nulFree_Forall in Hs.
  apply Forall_app in Hs. destruct Hs as [_ Hs]. apply Forall_app in Hs. destruct Hs as [Hm _].
  apply (ms_caps_Forall _ _ _ _ _ _ _ Hms Hm). intros j. constructor.
Qed.

Lemma rmatch_styleInline : forall r s m i,
  rmatch r s = Some m -> nulFree s = true -> exists out, styleInline (cap m i) = Some out.
Proof.
  intros r s m i H Hs. apply styleInline_total. now apply (rmatch_caps_nulFree r s).
Qed.

Lemma split_nulFree : forall sep s,
  nulFree s = true -> Forall (fun x => nulFree x = true) (split sep s).
Proof.
  intros sep. induction s as [|c s IH]; intros H; simpl.
  - repeat constructor.
  - simpl in H. apply andb_prop in H. destruct H as [Hc Hs]. specialize (IH Hs).
    destruct (cu_eqb c sep).
    + constructor; [reflexivity|exact IH].
    + destruct (split sep s) as [|l ls]; [repeat constructor; simpl; now rewrite Hc|].
      inversion IH; subst. constructor; [simpl; now rewrite Hc|assumption].
Qed.

Lemma Forall_removelast : forall (A : Type) (P : A -> Prop) l, Forall P l -> Forall P (removelast l).
Proof.
  intros A P. induction l as [|x l IH]; intros H; simpl; [constructor|].
  inversion H; subst. destruct l; [constructor|]. constructor; auto.
Qed.

Lemma Forall_tl : forall (A : Type) (P : A -> Prop) l, Forall P l -> Forall P (tl l).
Proof. intros A P l H. destruct H; simpl; auto. Qed.

Lemma mapM_total : forall (A B : Type) (f : A -> option B) l,
  Forall (fun a => exists b, f a = Some b) l -> exists bs, mapM f l = Some bs.
Proof.
  intros A B f. induction 1 as [|a l [b Hb] _ [bs Hbs]]; simpl.
  - now exists [].
  - rewrite Hb. simpl. rewrite Hbs. simpl. now exists (b :: bs).
Qed.

Lemma styleCell_total : forall cell, nulFree cell = true -> exists out, styleCell cell = Some out.
Proof.
  intros cell H. unfold styleCell. destruct (test tableSepRe cell); [eexists; reflexivity|].
  now apply styleInline_total.
Qed.

Ltac styled_capture E Hl :=
  match goal with
  | |- context [styleInline (cap ?m ?i)] =>
      let out := fresh "out" in let Ho := fresh "Ho" in
      destruct (rmatch_styleInline _ _ _ i E Hl) as (out & Ho); rewrite Ho; cbn [bind];
      eexists; reflexivity
  end.

Lemma styleLine_total : forall l, nulFree l = true -> exists out, styleLine l = Some out.
Proof.
  intros l Hl. unfold styleLine. destruct l as [|c l]; [now exists []|].
  remember (c :: l) as ln eqn:Eln. clear Eln.
  destruct (rmatch headingRe ln) eqn:E1; [styled_capture E1 Hl|].
  destruct (rmatch alertHeaderRe ln) eqn:E2; [eexists; reflexivity|].
  destruct (rmatch quoteRe ln) eqn:E3; [styled_capture E3 Hl|].
  destruct (rmatch taskRe ln) eqn:E4; [styled_capture E4 Hl|].
  destruct (rmatch ulRe ln) eqn:E5; [styled_capture E5 Hl|].
  destruct (rmatch olRe ln) eqn:E6; [styled_capture E6 Hl|].
  destruct (test hrRe (trim ln)); [eexists; reflexivity|].
  destruct (rmatch tableRe ln) eqn:E7.
  - destruct (mapM_total _ _ styleCell (slice_1_m1 (split (ch "|") ln))) as (cells & Hc).
    + unfold slice_1_m1. apply Forall_removelast, Forall_tl.
      eapply Forall_impl; [|apply split_nulFree; exact Hl].
      intros cell Hcell. now apply styleCell_total.
    + rewrite Hc. cbn [bind]. eexists; reflexivity.
  - destruct (rmatch defRe ln) eqn:E8; [styled_capture E8 Hl|].
    destruct (rmatch footnoteDefRe ln) eqn:E9; [styled_capture E9 Hl|].
    now apply styleInline_total.
Qed.

Lemma replace_first_nulFree : forall r s,
  nulFree s = true -> nulFree (replace_first r (fun _ => []) s) = true.
Proof.
  intros r s H. unfold replace_first.
  destruct (search_from r [] s) as [[[before after] cs]|] eqn:E; [|exact H].
  apply search_from_sound in E. destruct E as (skipped & m & -> & -> & _).
  rewrite app_nil_r, rev_involutive. simpl.
  unfold nulFree in *. rewrite !forallb_app in *.
  apply andb_prop in H. destruct H as [H1 H]. apply andb_prop in H. destruct H as [_ H2].
  now rewrite H1, H2.
Qed.

Lemma renderBlock_total : forall i inCode prev info next,
  nulFree (line info) = true ->
  exists block inCode', renderBlock i inCode prev info next = Some (block, inCode').
Proof.
  intros i inCode prev info next Hl. unfold renderBlock.
  destruct (isCodeFence info); [destruct (negb inCode); eexists; eexists; reflexivity|].
  destruct (isCodeContent info); [eexists; eexists; reflexivity|].
  destruct (isAlertHeader info); [eexists; eexists; reflexivity|].
  destruct (isAlertContent info).
  - destruct (styleInline_total _ (replace_first_nulFree alertContinuationRe _ Hl)) as (o & ->).
    cbn [bind]. eexists; eexists; reflexivity.
  - destruct (styleLine_total _ Hl) as (o & ->). cbn [bind].
    destruct (isBlockquote info); eexists; eexists; reflexivity.
Qed.

Lemma secondPass_total : forall infos i inCode prev,
  Forall (fun info => nulFree (line info) = true) infos ->
  exists blocks, secondPass i inCode prev infos = Some blocks.
Proof.
  induction infos as [|info infos IH]; intros i inCode prev H; simpl.
  - now exists [].
  - inversion H as [|? ? Hl Hrest]; subst.
    destruct (renderBlock_total i inCode prev info (hd_error infos) Hl) as (b & c & ->).
    cbn [bind]. destruct (IH (S i) c (Some info) Hrest) as (bs & ->). cbn [bind].
    now exists (b :: bs).
Qed.

Lemma classifyLine_line : forall st l, line (fst (classifyLine st l)) = l.
Proof.
  intros st l. unfold classifyLine.
  destruct (startsWith l fence); [reflexivity|].
  destruct (inCodeBlock st); [reflexivity|].
  destruct (rmatch alertHeaderRe l); [reflexivity|].
  destruct (truthy (currentAlertType st) && test alertContinuationRe l); [reflexivity|].
  destruct (isBlockquoteLine l); reflexivity.
Qed.

Lemma firstPass_lines : forall lines st, List.map line (firstPass st lines) = lines.
Proof.
  induction lines as [|l lines IH]; intros st; simpl; [reflexivity|].
  pose proof (classifyLine_line st l) as Hl.
  destruct (classifyLine st l) as [info st']. simpl in *. now rewrite Hl, IH.
Qed.

Lemma secondPass_length : forall infos i inCode prev blocks,
  secondPass i inCode prev infos = Some blocks -> length blocks = length infos.
Proof.
  induction infos as [|info infos IH]; intros i inCode prev blocks H; simpl in H.
  - now injection H as <-.
  - destruct (renderBlock i inCode prev info (hd_error infos)) as [[b c]|]; [|discriminate].
    cbn [bind] in H. destruct (secondPass (S i) c (Some info) infos) as [bs|] eqn:E; [|discriminate].
    cbn [bind] in H. injection H as <-. simpl. f_equal. now apply (IH _ _ _ _ E).
Qed.

Theorem htmlLines_total : forall markdown,
  nulFree markdown = true ->
  exists blocks,
    htmlLines markdown = Some blocks /\ length blocks = length (split LF markdown).
Proof.
  intros markdown H. unfold htmlLines.
  destruct (secondPass_total (firstPass initialState (split LF markdown)) 0 false None)
    as (blocks & Hb).
  - rewrite Forall_forall. intros info Hin.
    pose proof (split_nulFree LF markdown H) as Hs. rewrite Forall_forall in Hs.
    apply Hs. rewrite <- (firstPass_lines (split LF markdown) initialState).
    now apply in_map.
  - exists blocks. split; [exact Hb|].
    rewrite (secondPass_length _ _ _ _ _ Hb).
    rewrite <- (firstPass_lines (split LF markdown) initialState) at 2.
    now rewrite length_map.
Qed.

(** ** One block per line *)

Lemma secondPass_nth : forall infos i inCode prev blocks j info,
  secondPass i inCode prev infos = Some blocks ->
  nth_error infos j = Some info ->
  exists inCode' prev' block inCode'',
    renderBlock (i + j) inCode' prev' info (nth_error infos (S j)) = Some (block, inCode'')
    /\ nth_error blocks j = Some block.
Proof.
  induction infos as [|info0 infos IH]; intros i inCode prev blocks j info H Hj.
  - now destruct j.
  - simpl in H.
    destruct (renderBlock i inCode prev info0 (hd_error infos)) as [[b c]|] eqn:Eb;
      [|discriminate].
    cbn [bind] in H.
    destruct (secondPass (S i) c (Some info0) infos) as [bs|] eqn:E; [|discriminate].
    cbn [bind] in H. injection H as <-.
    destruct j as [|j]; simpl in Hj.
    + injection Hj as <-. exists inCode, prev, b, c. rewrite Nat.add_0_r. split; [|reflexivity].
      rewrite <- Eb. f_equal; now destruct infos.
    + destruct (IH (S i) c (Some info0) bs j info E Hj) as (c1 & p1 & b1 & c2 & Hr & Hn).
      exists c1, p1, b1, c2. split; [|exact Hn].
      replace (i + S j) with (S i + j) by lia. exact Hr.
Qed.

(** Every block is one [div] of class [line], with the gutter of its
    line in front of the content region. *)
Lemma renderBlock_shape : forall i inCode prev info next block inCode',
  renderBlock i inCode prev info next = Some (block, inCode') ->
  exists classes gutterOff content,
    block = div classes (generateLinePrefix (i + 1) (line info) gutterOff) content
    /\ startsWith classes (js "line") = true.
Proof.
  intros i inCode prev info next block inCode' H. unfold renderBlock in H.
  cbv zeta in H.
  repeat match type of H with
         | (if ?b then _ else _) = _ => destruct b
         | bind ?c _ = _ => destruct c; [cbn [bind] in H|discriminate]
         end;
    match type of H with
    | Some (div ?c (generateLinePrefix _ _ ?g) ?x, _) = _ =>
        exists c, g, x; split; [congruence|try reflexivity;
          match goal with
          | |- context [match ?v with [] => _ | _ :: _ => _ end] => destruct v
          end; reflexivity]
    end.
Qed.

Lemma classifyLine_empty : forall st,
  fst (classifyLine st []) = if inCodeBlock st then codeContentInfo [] else blankInfo [].
Proof.
  intros st. unfold classifyLine.
  change (startsWith [] fence) with false. cbv iota.
  destruct (inCodeBlock st); [reflexivity|].
  change (rmatch alertHeaderRe []) with (@None captures). cbv iota.
  change (test alertContinuationRe []) with false. rewrite andb_false_r. reflexivity.
Qed.

Lemma firstPass_nth_error : forall lines st j l,
  nth_error lines j = Some l ->
  exists st', nth_error (firstPass st lines) j = Some (fst (classifyLine st' l)).
Proof.
  intros lines st j l H. apply nth_error_split in H. destruct H as (l1 & l2 & -> & <-).
  exists (stateAfter st l1). apply firstPass_nth.
Qed.

Lemma renderBlock_returns : forall i inCode prev info next,
  isCodeFence info || isCodeContent info || nulFree (line info) = true ->
  exists block inCode', renderBlock i inCode prev info next = Some (block, inCode').
Proof.
  intros i inCode prev info next H.
  destruct (isCodeFence info) eqn:E1;
    [unfold renderBlock; rewrite E1; destruct (negb inCode); eexists; eexists; reflexivity|].
  destruct (isCodeContent info) eqn:E2;
    [unfold renderBlock; rewrite E1, E2; eexists; eexists; reflexivity|].
  now apply renderBlock_total.
Qed.

Lemma secondPass_returns : forall infos i inCode prev,
  forallb (fun info => isCodeFence info || isCodeContent info || nulFree (line info)) infos
    = true ->
  exists blocks, secondPass i inCode prev infos = Some blocks.
Proof.
  induction infos as [|info infos IH]; intros i inCode prev H; cbn [secondPass].
  - now exists [].
  - cbn [forallb] in H. apply andb_prop in H. destruct H as [Hl Hrest].
    destruct (renderBlock_returns i inCode prev info (hd_error infos) Hl) as (b & c & ->).
    cbn [bind]. destruct (IH (S i) c (Some info) Hrest) as (bs & ->). cbn [bind].
    now exists (b :: bs).
Qed.




(** ** Escaped markers are not emphasis *)

(** Where no code unit of the text can start a match, a global
    replacement changes nothing. *)
Lemma replace_all_from_id : forall (P : cu -> Prop) r f,
  (forall pre c rest, P c -> exec r pre (c :: rest) = None) ->
  (forall pre, exec r pre [] = None) ->
  forall s pre, Forall P s -> replace_all_from r f pre s 0 = s.
Proof.
  intros P r f Hstart Hend. induction s as [|c s IH]; intros pre Hs; simpl.
  - now rewrite Hend.
  - inversion Hs as [|? ? Hc Hs']; subst.
    rewrite (Hstart pre c s Hc). f_equal. now apply IH.
Qed.

Lemma noMarker_isCh_star : forall c, noMarker c -> isCh "*" c = false.
Proof. intros c H. now apply orb_false_elim in H. Qed.

Lemma noMarker_isCh_underscore : forall c, noMarker c -> isCh "_" c = false.
Proof. intros c H. now apply orb_false_elim in H. Qed.

Lemma noMarker_cu_eqb_star : forall c, noMarker c -> cu_eqb 42 c = false.
Proof.
  intros c H. apply noMarker_isCh_star in H. unfold isCh, cu_eqb in *.
  now rewrite N.eqb_sym.
Qed.

Lemma noMarker_cu_eqb_underscore : forall c, noMarker c -> cu_eqb 95 c = false.
Proof.
  intros c H. apply noMarker_isCh_underscore in H. unfold isCh, cu_eqb in *.
  now rewrite N.eqb_sym.
Qed.

Ltac no_marker_start :=
  let pre := fresh "pre" in let c := fresh "c" in let rest := fresh "rest" in
  let Hc := fresh "Hc" in
  intros pre c rest Hc; unfold exec; unfold_inline_patterns;
  cbn -[isCh notCh isDot isAlnum cu_eqb rep];
  try (destruct pre as [|? ?];
       [|match goal with |- context [if ?b then None else _] => destruct b end]);
  rewrite ?(noMarker_isCh_star c Hc), ?(noMarker_isCh_underscore c Hc),
    ?(noMarker_cu_eqb_star c Hc), ?(noMarker_cu_eqb_underscore c Hc);
  reflexivity.

Ltac emphasis_pass_id H :=
  apply (replace_all_from_id noMarker); [no_marker_start | never_empty_tac | exact H].

Lemma styleEmphasis_id : forall s, Forall noMarker s -> styleEmphasis s = s.
Proof.
  intros s H. unfold styleEmphasis.
  assert (E1 : styleBoldItalic s = s).
  { unfold styleBoldItalic, replace_all. emphasis_pass_id H. }
  assert (E2 : styleBold s = s).
  { unfold styleBold, replace_all. emphasis_pass_id H. }
  assert (E3 : styleBoldUnderscore s = s).
  { unfold styleBoldUnderscore, replace_all. emphasis_pass_id H. }
  assert (E4 : styleItalic s = s).
  { unfold styleItalic, replace_all. emphasis_pass_id H. }
  assert (E5 : styleItalicUnderscore s = s).
  { unfold styleItalicUnderscore, replace_all. emphasis_pass_id H. }
  now rewrite E1, E2, E3, E4, E5.
Qed.

Lemma replace_char_Forall : forall (P : cu -> Prop) c by_ s,
  Forall P by_ -> Forall P s -> Forall P (replace_char c by_ s).
Proof.
  intros P c by_ s Hby Hs. unfold replace_char. induction Hs as [|x s Hx Hs IH]; simpl.
  - constructor.
  - apply Forall_app. split; [|exact IH]. destruct (cu_eqb x c); [exact Hby|now constructor].
Qed.

Ltac literal_noMarker := repeat (constructor; [reflexivity|]); constructor.

Lemma escapeHtml_noMarker : forall s, Forall noMarker s -> Forall noMarker (escapeHtml s).
Proof.
  intros s H. unfold escapeHtml.
  repeat (apply replace_char_Forall; [literal_noMarker|]). exact H.
Qed.

Ltac template_noMarker :=
  let cs := fresh "cs" in let Hcs := fresh "Hcs" in
  intros cs Hcs; unfold span, syn, tagged, q, dq;
  repeat (apply Forall_app; split); try apply Hcs; literal_noMarker.

Lemma links_noMarker : forall s,
  Forall noMarker s -> Forall noMarker (styleLinks (styleFootnoteRefs (styleImages s))).
Proof.
  intros s H. unfold styleLinks, styleFootnoteRefs, styleImages.
  repeat (apply replace_all_Forall; [template_noMarker|]). exact H.
Qed.

Lemma styleSpans_plain : forall s,
  forallb (fun c => negb (isMarker c)) s = true -> styleSpans s = styleSpansPlain s.
Proof.
  intros s H. unfold styleSpans, styleSpansPlain. rewrite styleEmphasis_id; [reflexivity|].
  apply links_noMarker, escapeHtml_noMarker. apply Forall_forall. intros c Hc.
  rewrite forallb_forall in H. specialize (H c Hc). unfold noMarker.
  now destruct (isMarker c).
Qed.

(** ** Heading lines *)

Lemma rmatch_anchored : forall r s,
  rmatch (Seq Bol r) s
  = match exec (Seq Bol r) [] s with Some (_, _, cs) => Some cs | None => None end.
Proof.
  intros r s. unfold rmatch. rewrite search_anchored.
  destruct (exec (Seq Bol r) [] s) as [[[? ?] ?]|]; reflexivity.
Qed.

Lemma rep_greedy_whole : forall (R : Type) (p : cu -> bool) a pre lo
    (k : str -> str -> option R) res,
  forallb p a = true ->
  lo <= length a ->
  k (rev a ++ pre) [] = Some res ->
  rep true p lo None pre a k = Some res.
Proof.
  intros R p a pre lo k res Ha Hlo Hk.
  rewrite <- (app_nil_r a) at 1. now apply rep_greedy_all.
Qed.

Lemma isSpace_not_hash : forall c, isSpace c = true -> isCh "#" c = false.
Proof.
  intros c H. unfold isCh, cu_eqb. destruct (N.eqb_spec c (ch "#")) as [->|]; [|reflexivity].
  discriminate H.
Qed.

Lemma heading_match : forall L ws text,
  1 <= L <= 6 -> isSpace ws = true -> forallb isDot text = true ->
  rmatch headingRe (hashes L ++ ws :: text) = Some [(2, text); (1, hashes L)].
Proof.
  intros L ws text HL Hws Htext.
  unfold headingRe. cbn [seqs]. rewrite rmatch_anchored. unfold exec, between, star.
  destruct L as [|[|[|[|[|[|[|L]]]]]]]; try lia.
  all: cbn -[rep isSpace isCh isDot captured].
  all: cbn [rep pred option_map can_take stop_here].
  all: rewrite ?(isSpace_not_hash ws Hws), ?Hws, ?andb_false_r;
    change (isCh "#" 35%N) with true; cbn [andb].
  all: erewrite rep_greedy_whole; [|exact Htext|apply Nat.le_0_l|cbn beta iota; reflexivity].
  all: rewrite captured_app; reflexivity.
Qed.

Lemma heading_line_type : forall L ws text,
  1 <= L <= 6 -> isSpace ws = true ->
  type (getLineType (hashes L ++ ws :: text)) = headingOfLevel L.
Proof.
  intros L ws text HL Hws.
  unfold getLineType, LINE_TYPES. cbn [firstMatching pattern].
  unfold headingPrefixRe. cbn [seqs]. rewrite !test_anchored. unfold exec, between.
  destruct L as [|[|[|[|[|[|[|L]]]]]]]; try lia.
  all: cbn -[isSpace isCh firstMatching]; change (isCh "#" 35%N) with true;
    change (isSpace 35%N) with false; cbn -[isSpace isCh firstMatching];
    rewrite ?andb_false_r, ?(isSpace_not_hash ws Hws), ?Hws;
    cbn -[isSpace isCh firstMatching]; rewrite ?Hws; reflexivity.
Qed.

Lemma startsWith_hash : forall c rest,
  startsWith (c :: rest) (js "#") = false -> isCh "#" c = false.
Proof.
  intros c rest H. unfold isCh.
  destruct rest; cbn in H; now rewrite andb_true_r in H.
Qed.

(** A run of seven hash signs or more, and a run that no white space
    follows, do not match the heading pattern. *)
Lemma heading_no_match : forall L rest,
  1 <= L -> startsWith rest (js "#") = false ->
  7 <= L \/ match rest with [] => True | c :: _ => isSpace c = false end ->
  rmatch headingRe (hashes L ++ rest) = None.
Proof.
  intros L rest HL Hrest H.
  unfold headingRe. cbn [seqs]. rewrite rmatch_anchored. unfold exec, between, star.
  destruct L as [|[|[|[|[|[|[|L]]]]]]]; try lia.
  7: { cbn -[isSpace isCh isDot captured]. reflexivity. }
  all: destruct H as [H|H]; [lia|].
  all: destruct rest as [|c rest]; [reflexivity|].
  all: apply startsWith_hash in Hrest.
  all: cbn -[isSpace isCh isDot captured rep].
  all: cbn [rep pred option_map can_take stop_here].
  all: change (isCh "#" 35%N) with true; change (isSpace 35%N) with false;
    rewrite ?Hrest, ?H, ?andb_false_r; cbn [andb]; reflexivity.
Qed.

Lemma no_heading_line_type : forall L rest,
  1 <= L -> startsWith rest (js "#") = false ->
  7 <= L \/ match rest with [] => True | c :: _ => isSpace c = false end ->
  type (getLineType (hashes L ++ rest)) = paragraph.
Proof.
  intros L rest HL Hrest H.
  unfold getLineType, LINE_TYPES. cbn [firstMatching pattern].
  unfold_patterns. rewrite !test_anchored. unfold exec, between, plus, at_least, star.
  destruct L as [|[|[|[|[|[|[|L]]]]]]]; try lia.
  7: { cbn -[isSpace isCh firstMatching]. reflexivity. }
  all: destruct H as [H|H]; [lia|].
  all: destruct rest as [|c rest]; [reflexivity|].
  all: apply startsWith_hash in Hrest.
  all: cbn -[isSpace isCh isDot captured rep firstMatching].
  all: cbn [rep pred option_map can_take stop_here].
  all: change (isCh "#" 35%N) with true; change (isSpace 35%N) with false;
    rewrite ?Hrest, ?H, ?andb_false_r; cbn [andb]; reflexivity.
Qed.

Lemma trimStart_snoc : forall s c,
  isSpace c = false -> exists u, trimStart (s ++ [c]) = u ++ [c].
Proof.
  induction s as [|x s IH]; intros c Hc; simpl.
  - rewrite Hc. now exists [].
  - destruct (isSpace x); [now apply IH|]. now exists (x :: s).
Qed.

Lemma trim_hash : forall t, exists u, trim (ch "#" :: t) = ch "#" :: u.
Proof.
  intros t. unfold trim. change (trimStart (ch "#" :: t)) with (ch "#" :: t).
  unfold trimEnd. change (rev (ch "#" :: t)) with (rev t ++ [ch "#"]).
  destruct (trimStart_snoc (rev t) (ch "#") eq_refl) as (u & ->).
  exists (rev u). now rewrite rev_app_distr.
Qed.

(** A line that starts with a hash sign and fails the heading pattern
    is styled as a paragraph. *)
Lemma hash_line_plain : forall t,
  rmatch headingRe (ch "#" :: t) = None ->
  styleLine (ch "#" :: t) = styleInline (ch "#" :: t).
Proof.
  intros t H. unfold styleLine. rewrite H.
  destruct (trim_hash t) as (u & ->).
  unfold alertHeaderRe, quoteRe, taskRe, ulRe, olRe, tableRe, defRe, footnoteDefRe, hrRe.
  cbn [seqs]. rewrite !rmatch_anchored, test_anchored. reflexivity.
Qed.

(** C6, with white space for the space and text free of line
    terminators.  A line of [L] hash signs, [1 <= L <= 6], one white
    space character and text has the line type of the heading of level
    [L]; when the text holds no line terminator, [styleLine] renders it
    as the heading of level [L].  A line whose run of hash signs is
    seven or longer, or is followed by no white space, does not match the
    heading pattern, has the line type [paragraph] and is styled as
    inline text. *)
Theorem heading_level_is_hash_count :
  (forall L ws text,
     1 <= L <= 6 -> isSpace ws = true ->
     type (getLineType (hashes L ++ ws :: text)) = headingOfLevel L
     /\ (forallb isDot text = true ->
         styleLine (hashes L ++ ws :: text)
         = (styled <- styleInline text ;;
            Some (js "<span class=" ++ dq ++ js "md-heading md-h" ++ decimal L ++ dq
                  ++ js ">" ++ syn (hashes L) ++ js " " ++ styled ++ js "</span>"))))
  /\ (forall L rest,
        1 <= L -> startsWith rest (js "#") = false ->
        7 <= L \/ match rest with [] => True | c :: _ => isSpace c = false end ->
        rmatch headingRe (hashes L ++ rest) = None
        /\ type (getLineType (hashes L ++ rest)) = paragraph
        /\ styleLine (hashes L ++ rest) = styleInline (hashes L ++ rest)).
Proof.
  split.
  - intros L ws text HL Hws. split; [now apply heading_line_type|].
    intros Htext. pose proof (heading_match L ws text HL Hws Htext) as E.
    unfold styleLine.
    destruct L as [|[|[|[|[|[|[|L]]]]]]]; try lia.
    all: cbn [hashes repeat app] in *; rewrite E; reflexivity.
  - intros L rest HL Hrest H.
    pose proof (heading_no_match L rest HL Hrest H) as E.
    split; [exact E|]. split; [now apply no_heading_line_type|].
    destruct L as [|L]; [lia|]. apply hash_line_plain. exact E.
Qed.

Lemma heading_level_is_hash_count_witness :
  type (getLineType (js "## Title")) = h2
  /\ styleLine (js "## Title")
     = Some (js "<span class=" ++ dq ++ js "md-heading md-h2" ++ dq ++ js ">"
             ++ syn (js "##") ++ js " Title</span>")
  /\ styleLine (js "####### Title") = Some (js "####### Title")
  /\ styleLine (js "#Title") = Some (js "#Title").
Proof.
  destruct (proj1 heading_level_is_hash_count 2 32%N (js "Title")) as [H1 H2];
    [lia|reflexivity|].
  split; [exact H1|]. split; [exact (H2 eq_refl)|].
  split.
  - destruct (proj2 heading_level_is_hash_count 7 (js " Title")) as (_ & _ & H);
      [lia|reflexivity|left; lia|].
    exact H.
  - destruct (proj2 heading_level_is_hash_count 1 (js "Title")) as (_ & _ & H);
      [lia|reflexivity|right; reflexivity|].
    exact H.
Defined.

(** A tab is no space, and the line after it is a heading all the same:
    the heading patterns ask for white space after the hash signs, and
    the rendering writes a blank where the tab was. *)
Lemma heading_after_tab :
  let l := js "#" ++ [9%N] ++ js "Title" in
  startsWith (skipn 1 l) (js " ") = false
  /\ type (getLineType l) = h1
  /\ styleLine l
     = Some (js "<span class=" ++ dq ++ js "md-heading md-h1" ++ dq ++ js ">"
             ++ syn (js "#") ++ js " Title</span>").
Proof. repeat split; vm_compute; reflexivity. Qed.

(** * Further properties of the code *)

(** ** Splitting and joining lines *)

Lemma split_nonempty : forall sep s, split sep s <> [].
Proof.
  intros sep s. destruct s as [|c s]; simpl; [discriminate|].
  destruct (cu_eqb c sep); [discriminate|]. destruct (split sep s); discriminate.
Qed.

Lemma join_cons : forall sep x l,
  l <> [] -> join sep (x :: l) = x ++ sep ++ join sep l.
Proof. intros sep x l H. destruct l; [contradiction|reflexivity]. Qed.

Lemma join_split : forall s, join [LF] (split LF s) = s.
Proof.
  induction s as [|c s IH]; [reflexivity|]. simpl.
  destruct (cu_eqb c LF) eqn:E.
  - apply N.eqb_eq in E. subst c. rewrite join_cons by apply split_nonempty.
    simpl. now rewrite IH.
  - pose proof (split_nonempty LF s) as Hne.
    destruct (split LF s) as [|l ls]; [contradiction|].
    destruct ls as [|l' ls]; simpl in *; now rewrite <- IH.
Qed.

Lemma split_oneLine : forall s, Forall oneLine (split LF s).
Proof.
  induction s as [|c s IH]; simpl; [constructor; [intros []|constructor]|].
  destruct (cu_eqb c LF) eqn:E.
  - constructor; [intros []|exact IH].
  - pose proof (split_nonempty LF s) as Hne.
    destruct (split LF s) as [|l ls]; [contradiction|].
    inversion IH as [|? ? Hl Hls]; subst. constructor; [|exact Hls].
    intros [H|H]; [|now apply Hl]. subst c. discriminate E.
Qed.

Lemma split_oneLine_text : forall l, oneLine l -> split LF l = [l].
Proof.
  induction l as [|c l IH]; intros H; [reflexivity|]. simpl.
  destruct (cu_eqb c LF) eqn:E.
  - apply N.eqb_eq in E. subst c. exfalso. apply H. now left.
  - rewrite IH; [reflexivity|]. intros Hin. apply H. now right.
Qed.

Lemma split_app_oneLine : forall l s,
  oneLine l ->
  split LF (l ++ s) = (l ++ hd [] (split LF s)) :: tl (split LF s).
Proof.
  induction l as [|c l IH]; intros s H; simpl.
  - pose proof (split_nonempty LF s). now destruct (split LF s).
  - destruct (cu_eqb c LF) eqn:E.
    + apply N.eqb_eq in E. subst c. exfalso. apply H. now left.
    + rewrite IH; [reflexivity|]. intros Hin. apply H. now right.
Qed.

Lemma split_join : forall ls,
  ls <> [] -> Forall oneLine ls -> split LF (join [LF] ls) = ls.
Proof.
  induction ls as [|l ls IH]; intros Hne H; [contradiction|].
  inversion H as [|? ? Hl Hls]; subst.
  destruct ls as [|l' ls].
  - simpl. now apply split_oneLine_text.
  - rewrite join_cons by discriminate. rewrite split_app_oneLine by exact Hl.
    change ([LF] ++ join [LF] (l' :: ls)) with (LF :: join [LF] (l' :: ls)).
    change (split LF (LF :: join [LF] (l' :: ls)))
      with ([] :: split LF (join [LF] (l' :: ls))).
    rewrite IH by (discriminate || exact Hls). simpl. now rewrite app_nil_r.
Qed.

Lemma join_head : forall B l,
  join [LF] (l :: B) = l ++ flat_map (fun x => LF :: x) B.
Proof.
  induction B as [|b B IH]; intros l; [simpl; now rewrite app_nil_r|].
  rewrite join_cons by discriminate. rewrite IH. reflexivity.
Qed.

(** The joined text around one of its lines. *)
Lemma join_middle : forall A l B,
  join [LF] (A ++ l :: B)
  = flat_map (fun x => x ++ [LF]) A ++ l ++ flat_map (fun x => LF :: x) B.
Proof.
  induction A as [|a A IH]; intros l B; [apply join_head|].
  change ((a :: A) ++ l :: B) with (a :: (A ++ l :: B)).
  rewrite join_cons by (destruct A; discriminate). rewrite IH. simpl.
  now rewrite <- !app_assoc.
Qed.

Lemma nth_split_at : forall (lines : list str) i,
  i < length lines ->
  lines = firstn i lines ++ nth i lines [] :: skipn (i + 1) lines.
Proof.
  induction lines as [|l lines IH]; intros i H; simpl in H; [lia|].
  destruct i as [|i]; [reflexivity|]. simpl. f_equal. apply IH. lia.
Qed.

Lemma firstn_middle : forall (X l Y : str) o,
  o <= length l -> firstn (length X + o) (X ++ l ++ Y) = X ++ firstn o l.
Proof.
  intros X l Y o H. rewrite firstn_app_2, firstn_app.
  replace (o - length l) with 0 by lia. simpl. now rewrite app_nil_r.
Qed.

Lemma skipn_middle : forall (X l Y : str) o,
  o <= length l -> skipn (length X + o) (X ++ l ++ Y) = skipn o l ++ Y.
Proof.
  intros X l Y o H. rewrite skipn_add_app, skipn_app.
  replace (o - length l) with 0 by lia. reflexivity.
Qed.

(** The lines of a text around a position in it. *)
Lemma lines_around : forall markdown pos,
  inText markdown pos ->
  exists A l B,
    split LF markdown = A ++ l :: B
    /\ length A = lineIndex pos
    /\ offset pos <= length l
    /\ Forall oneLine A /\ oneLine l /\ Forall oneLine B
    /\ markdown = flat_map (fun x => x ++ [LF]) A ++ l ++ flat_map (fun x => LF :: x) B.
Proof.
  intros markdown pos [Hi Ho].
  pose proof (nth_split_at (split LF markdown) (lineIndex pos) Hi) as E.
  pose proof (split_oneLine markdown) as Hone. rewrite E in Hone.
  apply Forall_app in Hone. destruct Hone as [HA Hl]. inversion Hl as [|? ? Hl' HB]; subst.
  exists (firstn (lineIndex pos) (split LF markdown)),
    (nth (lineIndex pos) (split LF markdown) []),
    (skipn (lineIndex pos + 1) (split LF markdown)).
  split; [exact E|]. split; [apply firstn_length_le; lia|]. split; [exact Ho|].
  split; [exact HA|]. split; [exact Hl'|]. split; [exact HB|].
  rewrite <- join_middle, <- E. symmetry. apply join_split.
Qed.

Lemma around_nth : forall (A : list str) l B, nth (length A) (A ++ l :: B) [] = l.
Proof. intros A l B. now rewrite app_nth2, Nat.sub_diag by lia. Qed.

Lemma around_firstn : forall (A : list str) l B, firstn (length A) (A ++ l :: B) = A.
Proof. intros A l B. now rewrite firstn_app, Nat.sub_diag, firstn_all, app_nil_r. Qed.

Lemma around_skipn : forall (A : list str) l B, skipn (length A + 1) (A ++ l :: B) = B.
Proof. intros A l B. rewrite skipn_add_app. reflexivity. Qed.

Lemma oneLine_firstn : forall l n, oneLine l -> oneLine (firstn n l).
Proof.
  intros l n H Hin. apply H. rewrite <- (firstn_skipn n l). apply in_or_app. now left.
Qed.

Lemma oneLine_skipn : forall l n, oneLine l -> oneLine (skipn n l).
Proof.
  intros l n H Hin. apply H. rewrite <- (firstn_skipn n l). apply in_or_app. now right.
Qed.

Lemma oneLine_app : forall a b, oneLine a -> oneLine b -> oneLine (a ++ b).
Proof. intros a b Ha Hb Hin. apply in_app_or in Hin. destruct Hin; auto. Qed.

(** [enterAt] puts one line feed into the text at the position it is
    given, and gives the position behind it. *)
Lemma enterAt_inserts_line_feed : forall markdown pos,
  inText markdown pos ->
  let k := flatIndex (split LF markdown) pos in
  exists markdown' pos',
    enterAt markdown (Some pos) = KeyEdit markdown' (Some pos')
    /\ markdown' = firstn k markdown ++ LF :: skipn k markdown
    /\ inText markdown' pos'
    /\ flatIndex (split LF markdown') pos' = k + 1.
Proof.
  intros markdown pos H k.
  destruct (lines_around markdown pos H) as (A & l & B & E & HA & Ho & H1 & H2 & H3 & Emd).
  set (newLines := A ++ firstn (offset pos) l :: skipn (offset pos) l :: B).
  assert (Enew : join [LF] newLines
                 = flat_map (fun x => x ++ [LF]) A ++ firstn (offset pos) l
                   ++ LF :: skipn (offset pos) l ++ flat_map (fun x => LF :: x) B).
  { unfold newLines. rewrite join_middle. reflexivity. }
  assert (Hsplit : split LF (join [LF] newLines) = newLines).
  { apply split_join; [unfold newLines; now destruct A|].
    unfold newLines. apply Forall_app. split; [exact H1|].
    constructor; [now apply oneLine_firstn|]. constructor; [now apply oneLine_skipn|exact H3]. }
  assert (Ek : k = length (flat_map (fun x => x ++ [LF]) A) + offset pos).
  { unfold k, flatIndex. rewrite E, <- HA, around_firstn. reflexivity. }
  exists (join [LF] newLines), {| lineIndex := lineIndex pos + 1; offset := 0 |}.
  split; [|split; [|split]].
  - unfold enterAt. cbv zeta. rewrite E, <- HA, around_nth, around_firstn, around_skipn.
    unfold newLines. reflexivity.
  - rewrite Enew, Ek. rewrite Emd at 1 2. rewrite firstn_middle, skipn_middle by exact Ho.
    now rewrite <- !app_assoc.
  - unfold inText. rewrite Hsplit. cbn [lineIndex offset]. split; [|apply Nat.le_0_l].
    unfold newLines. rewrite length_app. simpl. lia.
  - unfold flatIndex. rewrite Hsplit. cbn [lineIndex offset].
    unfold newLines. rewrite <- HA.
    replace (A ++ firstn (offset pos) l :: skipn (offset pos) l :: B)
      with ((A ++ [firstn (offset pos) l]) ++ skipn (offset pos) l :: B)
      by now rewrite <- app_assoc.
    replace (length A + 1) with (length (A ++ [firstn (offset pos) l]))
      by (rewrite length_app; reflexivity).
    rewrite around_firstn, flat_map_app, length_app. simpl.
    rewrite app_nil_r, length_app, firstn_length_le by exact Ho. simpl.
    rewrite Ek, Nat.add_0_r, Nat.add_assoc. reflexivity.
Qed.


Lemma firstn_exact : forall (P Q : str) n s,
  n = length P -> s = P ++ Q -> firstn n s = P.
Proof. intros P Q n s -> ->. now rewrite firstn_app, Nat.sub_diag, firstn_all, app_nil_r. Qed.

Lemma skipn_exact : forall (P Q : str) n s,
  n = length P -> s = P ++ Q -> skipn n s = Q.
Proof. intros P Q n s -> ->. now rewrite skipn_app, Nat.sub_diag, skipn_all. Qed.

Lemma two_lines_around : forall markdown i,
  i + 1 < length (split LF markdown) ->
  exists A l l2 B,
    split LF markdown = A ++ l :: l2 :: B
    /\ length A = i
    /\ Forall oneLine A /\ oneLine l /\ oneLine l2 /\ Forall oneLine B
    /\ markdown = flat_map (fun x => x ++ [LF]) A ++ l ++ LF :: l2
                  ++ flat_map (fun x => LF :: x) B.
Proof.
  intros markdown i H.
  destruct (lines_around markdown {| lineIndex := i; offset := 0 |})
    as (A & l & B & E & HA & _ & H1 & H2 & H3 & Emd).
  { split; simpl; [lia|apply Nat.le_0_l]. }
  simpl in HA. destruct B as [|l2 B].
  { rewrite E, length_app in H. simpl in H. lia. }
  inversion H3; subst. exists A, l, l2, B. repeat split; auto.
Qed.

Lemma around_nth_error : forall (A : list str) l B,
  nth_error (A ++ l :: B) (length A) = Some l.
Proof. intros A l B. now rewrite nth_error_app2, Nat.sub_diag by lia. Qed.

Lemma around_next : forall (A : list str) l l2 B,
  nth_error (A ++ l :: l2 :: B) (length A + 1) = Some l2.
Proof.
  intros A l l2 B. rewrite nth_error_app2 by lia.
  replace (length A + 1 - length A) with 1 by lia. reflexivity.
Qed.

Lemma around_skipn2 : forall (A : list str) l l2 B,
  skipn (length A + 2) (A ++ l :: l2 :: B) = B.
Proof. intros A l l2 B. rewrite skipn_add_app. reflexivity. Qed.

(** At or past the end of a line that is not the last, [deleteAt]
    takes out the line feed that ends the line and keeps the position;
    [backspaceAt] at the start of the next line takes out the same line
    feed and gives the position of the join. *)
Lemma deleteAt_backspaceAt_join : forall markdown pos,
  lineIndex pos + 1 < length (split LF markdown) ->
  length (nth (lineIndex pos) (split LF markdown) []) <= offset pos ->
  let lines := split LF markdown in
  let lineEnd := {| lineIndex := lineIndex pos;
                    offset := length (nth (lineIndex pos) lines []) |} in
  let k := flatIndex lines lineEnd in
  nth_error markdown k = Some LF
  /\ deleteAt markdown (Some pos)
     = KeyEdit (firstn k markdown ++ skipn (k + 1) markdown) (Some pos)
  /\ backspaceAt markdown (Some {| lineIndex := lineIndex pos + 1; offset := 0 |})
     = KeyEdit (firstn k markdown ++ skipn (k + 1) markdown) (Some lineEnd).
Proof.
  intros markdown pos Hi Ho lines lineEnd k.
  destruct (two_lines_around markdown (lineIndex pos) Hi)
    as (A & l & l2 & B & E & HA & H1 & H2 & H3 & H4 & Emd).
  assert (Hl : nth (lineIndex pos) lines [] = l).
  { unfold lines. rewrite E, <- HA. apply around_nth. }
  assert (Ek : k = length (flat_map (fun x => x ++ [LF]) A) + length l).
  { unfold k, flatIndex, lineEnd. cbn [lineIndex offset]. rewrite Hl.
    unfold lines. rewrite E, <- HA, around_firstn. reflexivity. }
  assert (Ejoin : join [LF] (A ++ (l ++ l2) :: B)
                  = firstn k markdown ++ skipn (k + 1) markdown).
  { rewrite join_middle.
    rewrite (firstn_exact (flat_map (fun x => x ++ [LF]) A ++ l)
               (LF :: l2 ++ flat_map (fun x => LF :: x) B) k markdown)
      by (rewrite ?length_app, <- ?app_assoc; auto).
    rewrite (skipn_exact ((flat_map (fun x => x ++ [LF]) A ++ l) ++ [LF])
               (l2 ++ flat_map (fun x => LF :: x) B) (k + 1) markdown).
    - now rewrite <- !app_assoc.
    - rewrite !length_app. simpl. rewrite Ek. reflexivity.
    - rewrite <- !app_assoc. exact Emd. }
  split; [|split].
  - rewrite Ek, Emd, nth_error_app2 by lia.
    replace (length (flat_map (fun x => x ++ [LF]) A) + length l
             - length (flat_map (fun x => x ++ [LF]) A)) with (length l) by lia.
    rewrite nth_error_app2, Nat.sub_diag by lia. reflexivity.
  - unfold deleteAt. fold lines. rewrite Hl.
    replace (Nat.ltb (lineIndex pos + 1) (length lines)) with true
      by (symmetry; apply Nat.ltb_lt; exact Hi).
    replace (Nat.leb (length l) (offset pos)) with true
      by (symmetry; apply Nat.leb_le; rewrite <- Hl; exact Ho).
    unfold lines. rewrite E, <- HA, around_next, around_firstn, around_skipn2.
    unfold plusElement. now rewrite <- Ejoin.
  - unfold backspaceAt. cbn [lineIndex offset]. fold lines.
    replace (Nat.ltb 0 (lineIndex pos + 1)) with true
      by (symmetry; apply Nat.ltb_lt; lia).
    replace (lineIndex pos + 1 - 1) with (lineIndex pos) by lia.
    cbn [Nat.eqb orb andb].
    unfold lineEnd. rewrite Hl. unfold lines.
    rewrite E, <- HA, around_nth_error, around_next, around_firstn.
    replace (length A + 1 + 1) with (length A + 2) by lia. rewrite around_skipn2.
    unfold plusElement. now rewrite <- Ejoin.
Qed.



Lemma line_feeds_shift : forall M : list str,
  flat_map (fun x => LF :: x) M ++ [LF] = LF :: flat_map (fun x => x ++ [LF]) M.
Proof.
  induction M as [|m M IH]; [reflexivity|]. simpl.
  rewrite <- !app_assoc, IH. reflexivity.
Qed.

Lemma length_snoc : forall (X : list str) x, length (X ++ [x]) = length X + 1.
Proof. intros X x. now rewrite length_app. Qed.

Lemma length_exact_firstn : forall (l : str) o, o <= length l -> length (firstn o l) = o.
Proof. intros l o H. now apply firstn_length_le. Qed.

(** [pasteAt] puts the clipboard text into the text at the position
    it is given, whether it holds line feeds or not, and gives the
    position of the end of what was pasted. *)
Lemma pasteAt_inserts_text : forall markdown pos text,
  inText markdown pos ->
  text <> [] ->
  let k := flatIndex (split LF markdown) pos in
  exists markdown' pos',
    pasteAt markdown (Some pos) text = KeyEdit markdown' (Some pos')
    /\ markdown' = firstn k markdown ++ text ++ skipn k markdown
    /\ inText markdown' pos'
    /\ flatIndex (split LF markdown') pos' = k + length text.
Proof.
  intros markdown pos text H Htext k.
  destruct (lines_around markdown pos H) as (A & l & B & E & HA & Ho & H1 & H2 & H3 & Emd).
  assert (Ek : k = length (flat_map (fun x => x ++ [LF]) A) + offset pos).
  { unfold k, flatIndex. rewrite E, <- HA, around_firstn. reflexivity. }
  assert (Hfirst : firstn k markdown = flat_map (fun x => x ++ [LF]) A ++ firstn (offset pos) l).
  { rewrite Ek. rewrite Emd at 1. now apply firstn_middle. }
  assert (Hskip : skipn k markdown = skipn (offset pos) l ++ flat_map (fun x => LF :: x) B).
  { rewrite Ek. rewrite Emd at 1. now apply skipn_middle. }
  pose proof (split_oneLine text) as Hp. pose proof (join_split text) as Hj.
  pose proof (length_exact_firstn l (offset pos) Ho) as Hlen.
  unfold pasteAt. destruct text as [|c0 text0]; [contradiction|]. cbv iota.
  remember (c0 :: text0) as text eqn:Et in *. clear Et Htext c0 text0.
  cbv zeta. rewrite E, <- HA, around_nth, around_firstn, around_skipn.
  destruct (split LF text) as [|t1 [|t2 rest]] eqn:Es.
  - exfalso. now apply (split_nonempty LF text).
  - (* one line *)
    simpl in Hj. subst t1. pose proof (Forall_inv Hp) as Hone.
    rewrite setAt_app. cbn [length Nat.eqb].
    eexists. eexists. split; [reflexivity|].
    match goal with |- context [join [LF] ?L] => set (newLines := L) in * end.
    assert (Hsplit : split LF (join [LF] newLines) = newLines).
    { apply split_join; [unfold newLines; now destruct A|].
      unfold newLines. apply Forall_app. split; [exact H1|].
      constructor; [|exact H3].
      apply oneLine_app; [now apply oneLine_firstn|].
      apply oneLine_app; [exact Hone|now apply oneLine_skipn]. }
    split; [|split].
    + unfold newLines. rewrite join_middle, Hfirst, Hskip. now rewrite <- !app_assoc.
    + unfold inText. rewrite Hsplit. cbn [lineIndex offset]. unfold newLines.
      rewrite around_nth. split.
      * rewrite length_app. simpl. lia.
      * rewrite !length_app, Hlen. lia.
    + unfold flatIndex. rewrite Hsplit. cbn [lineIndex offset]. unfold newLines.
      rewrite around_firstn, Ek, Nat.add_assoc. reflexivity.
  - (* several lines *)
    pose proof (Forall_inv Hp) as Ht1. pose proof (Forall_inv_tail Hp) as Hrest.
    set (middle := removelast (t2 :: rest)).
    set (lastLine := last (t2 :: rest) []).
    assert (Erest : t2 :: rest = middle ++ [lastLine])
      by (apply app_removelast_last; discriminate).
    change (last (t1 :: t2 :: rest) []) with lastLine.
    change (slice_1_m1 (t1 :: t2 :: rest)) with middle.
    clearbody middle lastLine.
    assert (Hcount : length (t1 :: t2 :: rest) = length middle + 2).
    { change (length (t1 :: t2 :: rest)) with (S (length (t2 :: rest))).
      rewrite Erest, length_snoc, !Nat.add_succ_r, !Nat.add_0_r. reflexivity. }
    rewrite Hcount.
    replace (Nat.eqb (length middle + 2) 1) with false
      by (symmetry; apply Nat.eqb_neq; lia).
    assert (Etext : text = t1 ++ LF :: flat_map (fun x => x ++ [LF]) middle ++ lastLine).
    { rewrite <- Hj. rewrite join_cons by discriminate. rewrite Erest.
      rewrite (join_middle middle lastLine []).
      simpl. now rewrite app_nil_r. }
    rewrite Erest in Hrest. apply Forall_app in Hrest. destruct Hrest as [Hmid Hlast].
    apply Forall_inv in Hlast.
    eexists. eexists. split; [reflexivity|].
    match goal with |- context [join [LF] ?L] => set (newLines := L) in * end.
    assert (Eshape : newLines
                     = (A ++ (firstn (offset pos) l ++ t1) :: middle)
                       ++ (lastLine ++ skipn (offset pos) l) :: B).
    { unfold newLines. rewrite <- !app_assoc. reflexivity. }
    assert (Hsplit : split LF (join [LF] newLines) = newLines).
    { apply split_join; [unfold newLines; now destruct A|].
      unfold newLines. apply Forall_app. split; [exact H1|].
      apply Forall_app. split; [constructor; [|constructor]|].
      - apply oneLine_app; [now apply oneLine_firstn|exact Ht1].
      - apply Forall_app. split; [exact Hmid|].
        constructor; [|exact H3]. apply oneLine_app; [exact Hlast|now apply oneLine_skipn]. }
    assert (Hpre : flat_map (fun x => x ++ [LF]) (A ++ (firstn (offset pos) l ++ t1) :: middle)
                   = flat_map (fun x => x ++ [LF]) A ++ firstn (offset pos) l ++ t1
                     ++ LF :: flat_map (fun x => x ++ [LF]) middle).
    { rewrite flat_map_app. simpl. now rewrite <- !app_assoc. }
    assert (Hidx : length A + (length middle + 2) - 1
                   = length (A ++ (firstn (offset pos) l ++ t1) :: middle)).
    { rewrite length_app. simpl. lia. }
    split; [|split].
    + rewrite Eshape, join_middle, Hpre, Hfirst, Hskip, Etext.
      rewrite <- !app_assoc. simpl. rewrite <- !app_assoc. reflexivity.
    + unfold inText. rewrite Hsplit. cbn [lineIndex offset].
      rewrite Hidx, Eshape, around_nth. split.
      * rewrite !length_app. simpl. lia.
      * rewrite length_app. lia.
    + unfold flatIndex. rewrite Hsplit. cbn [lineIndex offset].
      rewrite Hidx, Eshape, around_firstn, Hpre, Ek, Etext.
      rewrite !length_app. simpl. rewrite !length_app, Hlen. lia.
Qed.

(** ** Line types *)

Lemma remove_anchored_suffix : forall r s, exists p, s = p ++ remove (Seq Bol r) s.
Proof.
  intros r s. unfold remove. rewrite replace_first_anchored.
  destruct (exec (Seq Bol r) [] s) as [[[pre' rest] cs]|] eqn:E.
  - apply exec_sound in E. destruct E as (m & -> & _). now exists m.
  - now exists [].
Qed.

(** What [stripLinePrefix] returns is the end of the line. *)
Lemma stripLinePrefix_suffix : forall l,
  exists marker, l = marker ++ stripLinePrefix l.
Proof.
  intros l. unfold stripLinePrefix, hrLineRe, stripHeadingRe, stripTaskRe, ulPrefixRe,
    olPrefixRe, quotePrefixRe, stripFenceRe. cbn [seqs].
  repeat match goal with
  | |- context [remove (Seq Bol ?r) ?s] =>
      lazymatch s with
      | context [remove] => fail
      | _ => let p := fresh "p" in let E := fresh "E" in
             destruct (remove_anchored_suffix r s) as (p & E);
             generalize dependent (remove (Seq Bol r) s); intros
      end
  end.
  subst. eexists. rewrite !app_assoc. reflexivity.
Qed.

(** X5: the stripping step of [applyLineType] only takes text away from
    the front of the line. *)
Theorem strip_removes_a_prefix : forall l,
  exists marker, l = marker ++ stripLinePrefix l.
Proof. exact stripLinePrefix_suffix. Qed.

Lemma stripLinePrefix_oneLine : forall l, oneLine l -> oneLine (stripLinePrefix l).
Proof.
  intros l H Hin. destruct (stripLinePrefix_suffix l) as (p & E).
  apply H. rewrite E. apply in_or_app. now right.
Qed.

Lemma split_first_line : forall a y,
  oneLine a -> hd [] (split LF (a ++ LF :: y)) = a.
Proof.
  intros a y H. rewrite split_app_oneLine by exact H.
  change (split LF (LF :: y)) with ([] :: split LF y). simpl. apply app_nil_r.
Qed.

Lemma split_join_after : forall A R,
  Forall oneLine A -> R <> [] ->
  split LF (join [LF] (A ++ R)) = A ++ split LF (join [LF] R).
Proof.
  induction A as [|a A IH]; intros R HA HR; [reflexivity|].
  inversion HA as [|? ? Ha HA']; subst.
  change ((a :: A) ++ R) with (a :: (A ++ R)).
  rewrite join_cons by (destruct A; [exact HR|discriminate]).
  rewrite split_app_oneLine by exact Ha.
  change ([LF] ++ join [LF] (A ++ R)) with (LF :: join [LF] (A ++ R)).
  change (split LF (LF :: join [LF] (A ++ R))) with ([] :: split LF (join [LF] (A ++ R))).
  rewrite IH by assumption. simpl. now rewrite app_nil_r.
Qed.

Lemma nth_after : forall (A X : list str), nth (length A) (A ++ X) [] = hd [] X.
Proof.
  intros A X. rewrite app_nth2, Nat.sub_diag by lia. now destruct X.
Qed.

(** The first line of the text that [applyLineType] writes in place of
    a line. *)
Lemma applied_first_line : forall A x B,
  Forall oneLine A ->
  nth (length A) (split LF (join [LF] (A ++ x :: B))) [] = hd [] (split LF x).
Proof.
  intros A x B HA. rewrite split_join_after by (assumption || discriminate).
  rewrite nth_after. destruct B as [|b B]; [reflexivity|].
  rewrite join_cons by discriminate.
  pose proof (split_oneLine x) as Hx. pose proof (join_split x) as Hj.
  pose proof (split_nonempty LF x) as Hne.
  destruct (split LF x) as [|x1 xs] eqn:Ex; [contradiction|]. simpl hd.
  destruct xs as [|x2 xs].
  - simpl in Hj. subst x1. apply split_first_line. now apply Forall_inv in Hx.
  - rewrite <- Hj. rewrite join_cons by discriminate. rewrite <- app_assoc.
    rewrite split_app_oneLine by now apply Forall_inv in Hx. simpl. apply app_nil_r.
Qed.

Ltac eval_line_type :=
  unfold getLineType, LINE_TYPES; cbn [firstMatching pattern];
  unfold_patterns; unfold between, plus, at_least, star, alertTypes;
  rewrite ?test_anchored; unfold exec; cbn; try reflexivity.

Lemma hd_split_app : forall m s,
  oneLine m -> hd [] (split LF (m ++ s)) = m ++ hd [] (split LF s).
Proof. intros m s H. now rewrite split_app_oneLine. Qed.

Lemma oneLine_literal : forall m, forallb (fun c => negb (cu_eqb c LF)) m = true -> oneLine m.
Proof.
  intros m H Hin. rewrite forallb_forall in H. specialize (H LF Hin). discriminate H.
Qed.

Lemma line_type_of_marker : forall t s,
  match t with
  | paragraph | alert | ul | quote | hr | code => False
  | _ => True
  end ->
  forall m, canonicalMarker t = Some m -> type (getLineType (m ++ s)) = t.
Proof.
  intros t s Ht m Hm.
  destruct t; try contradiction; injection Hm as <-; eval_line_type.
Qed.

Lemma list_around : forall (lines : list str) i,
  i < length lines -> exists A l B, lines = A ++ l :: B /\ length A = i.
Proof.
  intros lines i H. exists (firstn i lines), (nth i lines []), (skipn (i + 1) lines).
  split; [now apply nth_split_at|]. apply firstn_length_le. lia.
Qed.

(** X6: after [applyLineType] the line is classified as the type that
    was asked for: the line at the same index of the new text has that
    line type.  A bullet must not be followed by a checkbox, which makes
    the line a task, nor a quote marker by an alert tag, which makes it
    an alert. *)
Theorem applied_line_type_shows : forall lines i t,
  i < length lines ->
  Forall oneLine lines ->
  t <> paragraph -> t <> alert ->
  (t = ul -> test taskPrefixRe (js "- " ++ stripLinePrefix (nth i lines [])) = false) ->
  (t = quote -> test alertPrefixRe (js "> " ++ stripLinePrefix (nth i lines [])) = false) ->
  type (getLineType (nth i (split LF (applyLineType lines i t)) [])) = t.
Proof.
  intros lines i t Hi Hlines Hp Ha Hul Hquote.
  destruct (list_around lines i Hi) as (A & l & B & -> & <-).
  rewrite around_nth in *.
  assert (Hl : oneLine l).
  { apply Forall_app in Hlines. destruct Hlines as [_ H]. now apply Forall_inv in H. }
  assert (HA : Forall oneLine A) by (apply Forall_app in Hlines; tauto).
  pose proof (stripLinePrefix_oneLine l Hl) as Hs.
  unfold applyLineType. rewrite around_nth, setAt_app.
  rewrite applied_first_line by exact HA.
  assert (Hm : forall m, oneLine m ->
                 hd [] (split LF (m ++ stripLinePrefix l)) = m ++ stripLinePrefix l).
  { intros m Hone. rewrite hd_split_app by exact Hone.
    now rewrite split_oneLine_text. }
  destruct t; try congruence; unfold applyPrefix.
  all: try rewrite Hm by (apply oneLine_literal; reflexivity).
  all: try (apply line_type_of_marker; [exact I|reflexivity]).
  - reflexivity.
  - specialize (Hul eq_refl). unfold getLineType, LINE_TYPES. cbn [firstMatching pattern].
    rewrite Hul. eval_line_type.
  - specialize (Hquote eq_refl). unfold getLineType, LINE_TYPES. cbn [firstMatching pattern].
    rewrite Hquote. eval_line_type.
  - change (js "```" ++ [LF] ++ stripLinePrefix l ++ [LF] ++ js "```")
      with (js "```" ++ LF :: stripLinePrefix l ++ [LF] ++ js "```").
    rewrite split_first_line by (apply oneLine_literal; reflexivity). reflexivity.
Qed.

Lemma applied_line_type_shows_witness :
  type (getLineType (nth 1 (split LF (applyLineType [js "a"; js "- b"; js "c"] 1 h2)) [])) = h2.
Proof.
  apply applied_line_type_shows.
  - simpl. lia.
  - repeat constructor; apply oneLine_literal; reflexivity.
  - discriminate.
  - discriminate.
  - discriminate.
  - discriminate.
Defined.

(** A quantifier whose lower bound is met cannot fail when what
    follows it cannot. *)
Lemma rep_succeeds : forall (R : Type) g p hi rest pre (k : str -> str -> option R),
  (forall pre' rest', k pre' rest' <> None) ->
  rep g p 0 hi pre rest k <> None.
Proof.
  intros R g p. intros hi rest. revert hi.
  induction rest as [|c rest IH]; intros hi pre k Hk; simpl; [apply Hk|].
  destruct (p c && can_take hi); [|apply Hk].
  destruct g.
  - specialize (IH (option_map pred hi) (c :: pre) k Hk).
    destruct (rep true p 0 (option_map pred hi) (c :: pre) rest k); [discriminate|contradiction].
  - specialize (Hk pre (c :: rest)). destruct (k pre (c :: rest)); [discriminate|contradiction].
Qed.

Lemma quotePrefix_matches : forall s, test quotePrefixRe (ch ">" :: s) = true.
Proof.
  intros s. unfold quotePrefixRe. cbn [seqs]. rewrite test_anchored.
  unfold exec, plus, opt. cbn [mt]. cbn [rep]. change (isCh ">" (ch ">")) with true.
  cbn [andb can_take pred option_map].
  match goal with
  | |- match match ?r with _ => _ end with _ => _ end = true =>
      destruct r as [[[? ?] ?]|] eqn:E; [reflexivity|]
  end.
  exfalso. revert E. apply rep_succeeds. intros pre' rest'. apply rep_succeeds. discriminate.
Qed.

Lemma firstMatching_found : forall defs l,
  firstMatching defs l = DEFAULT_LINE_TYPE
  \/ (In (firstMatching defs l) defs /\ test (pattern (firstMatching defs l)) l = true).
Proof.
  induction defs as [|d defs IH]; intros l; simpl; [now left|].
  destruct (test (pattern d) l) eqn:E; [right; split; [now left|exact E]|].
  destruct (IH l) as [H|[H1 H2]]; [now left|right; split; [now right|exact H2]].
Qed.

Lemma quote_type_blockquote_line : forall l,
  type (getLineType l) = quote <-> isBlockquoteLine l = true.
Proof.
  intros l. destruct l as [|c s]; [split; intros H; discriminate H|].
  destruct (isCh ">" c) eqn:Ec.
  - apply isCh_true in Ec. subst c. unfold isBlockquoteLine.
    rewrite quotePrefix_matches. cbn [negb].
    unfold getLineType, LINE_TYPES. cbn [firstMatching pattern].
    destruct (test alertPrefixRe (ch ">" :: s)) eqn:Ea.
    + unfold_patterns. unfold between, plus, at_least, star.
      rewrite ?test_anchored. unfold exec. cbn. split; intros H; discriminate H.
    + unfold_patterns. unfold between, plus, at_least, star.
      rewrite ?test_anchored. unfold exec. cbn. split; reflexivity.
  - split; intros H.
    + exfalso. destruct (firstMatching_found LINE_TYPES (c :: s)) as [E|[Hin Ht]].
      * unfold getLineType in H. rewrite E in H. discriminate H.
      * fold (getLineType (c :: s)) in Hin, Ht.
        assert (Hq : pattern (getLineType (c :: s)) = quoteStartRe).
        { destruct Hin as [E|Hin]; [rewrite <- E in H; discriminate H|].
          repeat (destruct Hin as [E|Hin]; [rewrite <- E in H |- *; first [discriminate H|reflexivity]|]).
          destruct Hin. }
        rewrite Hq in Ht. unfold quoteStartRe in Ht. cbn [seqs] in Ht.
        rewrite test_anchored in Ht. unfold exec in Ht. cbn [mt] in Ht.
        rewrite Ec in Ht. discriminate Ht.
    + exfalso. unfold isBlockquoteLine in H.
      assert (E : test quotePrefixRe (c :: s) = false).
      { unfold quotePrefixRe. cbn [seqs]. rewrite test_anchored.
        unfold exec, plus, opt. cbn [mt]. cbn [rep]. rewrite Ec. reflexivity. }
      rewrite E in H. discriminate H.
Qed.

(** X7: [getLineType] gives a line the type [quote] if and only if
    [isBlockquoteLine] holds for it; hence every line that the first
    pass of the renderer flags as a blockquote, in whatever state it
    meets it, is a line of type [quote]. *)
Theorem quote_type_iff_blockquote_line : forall l,
  (type (getLineType l) = quote <-> isBlockquoteLine l = true)
  /\ (forall st,
        isBlockquote (fst (classifyLine st l)) = true -> type (getLineType l) = quote).
Proof.
  intros l. split; [apply quote_type_blockquote_line|].
  intros st H. apply quote_type_blockquote_line. unfold classifyLine in H.
  destruct (startsWith l fence); [discriminate H|].
  destruct (inCodeBlock st); [discriminate H|].
  destruct (rmatch alertHeaderRe l); [discriminate H|].
  destruct (truthy (currentAlertType st) && test alertContinuationRe l); [discriminate H|].
  destruct (isBlockquoteLine l); [reflexivity|discriminate H].
Qed.

Lemma quote_type_iff_blockquote_line_witness :
  isBlockquote (fst (classifyLine initialState (js ">> nested"))) = true
  /\ type (getLineType (js ">> nested")) = quote.
Proof.
  split; [reflexivity|].
  apply (proj2 (quote_type_iff_blockquote_line (js ">> nested")) initialState).
  reflexivity.
Defined.

Lemma repeat_forallb : forall (p : cu -> bool) c n, p c = true -> forallb p (repeat c n) = true.
Proof. intros p c n H. induction n; simpl; [reflexivity|]. now rewrite H. Qed.

(** [getBlockquoteDepth] counts the leading run of [>]. *)
Lemma getBlockquoteDepth_run : forall n rest,
  startsWith rest (js ">") = false ->
  getBlockquoteDepth (repeat (ch ">") n ++ rest) = n.
Proof.
  intros n rest H. unfold getBlockquoteDepth, quoteDepthRe. cbn [seqs].
  rewrite rmatch_anchored. unfold exec, plus. cbn [mt].
  destruct n as [|n].
  - simpl repeat. simpl app. destruct rest as [|c rest]; [reflexivity|].
    cbn [rep]. assert (Ec : isCh ">" c = false).
    { unfold isCh. destruct rest; cbn in H; now rewrite andb_true_r in H. }
    rewrite Ec. reflexivity.
  - match goal with
    | |- context [rep true ?p 1 None [] _ ?k] =>
        rewrite (rep_greedy_all _ p (repeat (ch ">") (S n)) rest [] 1 k
                   (rev (repeat (ch ">") (S n)) ++ [], rest, [(1, repeat (ch ">") (S n))]))
    end.
    + cbn [cap Nat.eqb]. apply repeat_length.
    + apply repeat_forallb. reflexivity.
    + destruct rest as [|c rest]; [exact I|].
      unfold isCh. destruct rest; cbn in H; now rewrite andb_true_r in H.
    + rewrite repeat_length. lia.
    + cbn beta. now rewrite captured_app.
Qed.

(** X8: the depth of a blockquote line is the length of its leading run
    of [>]. *)
Theorem blockquote_depth_is_run_length : forall n rest,
  startsWith rest (js ">") = false ->
  getBlockquoteDepth (repeat (ch ">") n ++ rest) = n.
Proof. exact getBlockquoteDepth_run. Qed.

Lemma blockquote_depth_is_run_length_witness :
  getBlockquoteDepth (js ">>> a") = 3.
Proof. apply (blockquote_depth_is_run_length 3 (js " a")). reflexivity. Defined.

(** ** The table of contents *)

Lemma headingOfLine_shape : forall l h,
  In h (headingOfLine l) ->
  1 <= headingLevel h <= 6 /\ forallb isDot (headingText h) = true.
Proof.
  intros l h H. unfold headingOfLine in H.
  destruct (rmatch tocHeadingRe l) as [m|] eqn:E; [|contradiction].
  destruct H as [<-|[]]. cbn [headingLevel headingText].
  apply rmatch_sound in E. destruct E as (skipped & mm & rest & _ & Hms).
  unfold tocHeadingRe, between, plus, star in Hms. cbn [seqs] in Hms.
  inv_ms. cbn [cap Nat.eqb]. split; [|assumption].
  match goal with
  | Hlo : 1 <= length ?x, Hhi : forall h, Some 6 = Some h -> length ?x <= h |- _ =>
      specialize (Hhi 6 eq_refl); lia
  end.
Qed.

Lemma trimStart_split : forall s,
  exists sp, s = sp ++ trimStart s
             /\ forallb isSpace sp = true
             /\ match trimStart s with c :: _ => isSpace c = false | [] => True end.
Proof.
  induction s as [|c s IH]; [now exists []|]. simpl.
  destruct (isSpace c) eqn:E.
  - destruct IH as (sp & Es & Hsp & Hb). exists (c :: sp). simpl. rewrite E.
    repeat split; auto. now f_equal.
  - exists []. repeat split; auto.
Qed.

Lemma toc_match : forall L ws sp b,
  1 <= L <= 6 -> isSpace ws = true -> forallb isSpace sp = true ->
  match b with c :: _ => isSpace c = false | [] => True end ->
  forallb isDot b = true ->
  rmatch tocHeadingRe (hashes L ++ ws :: sp ++ b) = Some [(2, b); (1, hashes L)].
Proof.
  intros L ws sp b HL Hws Hsp Hb Hdot.
  unfold tocHeadingRe. cbn [seqs]. rewrite rmatch_anchored. unfold exec, between, star, plus.
  destruct L as [|[|[|[|[|[|[|L]]]]]]]; try lia.
  all: cbn -[rep isSpace isCh isDot captured].
  all: cbn [rep pred option_map can_take stop_here].
  all: rewrite ?(isSpace_not_hash ws Hws), ?Hws, ?andb_false_r;
    change (isCh "#" 35%N) with true; cbn [andb].
  all: match goal with
       | |- context [rep true isSpace 0 None ?pre (?x ++ ?y) ?k] =>
           erewrite (rep_greedy_all _ isSpace x y pre 0 k);
           [|exact Hsp|exact Hb|apply Nat.le_0_l|
            cbn beta; erewrite rep_greedy_whole;
            [reflexivity|exact Hdot|apply Nat.le_0_l|cbn beta iota; reflexivity]]
       end.
  all: rewrite captured_app; reflexivity.
Qed.

Lemma extractHeadingsFrom_In : forall nodes k item,
  In item (extractHeadingsFrom k nodes) ->
  exists node, In node nodes
               /\ tocLevel item = headingLevel node
               /\ tocText item = headingText node
               /\ trim (headingText node) <> [].
Proof.
  induction nodes as [|n nodes IH]; intros k item H; simpl in H; [contradiction|].
  destruct (trim (headingText n)) as [|c t] eqn:E.
  - destruct (IH _ _ H) as (node & Hin & Hrest). exists node. split; [now right|exact Hrest].
  - destruct H as [<-|H].
    + exists n. cbn. rewrite E. repeat split; auto. discriminate.
    + destruct (IH _ _ H) as (node & Hin & Hrest). exists node. split; [now right|exact Hrest].
Qed.

Lemma extractHeadingsFrom_length : forall nodes k,
  length (extractHeadingsFrom k nodes) <= length nodes.
Proof.
  induction nodes as [|n nodes IH]; intros k; simpl; [lia|].
  specialize (IH (S k)). destruct (trim (headingText n)); simpl; lia.
Qed.

Lemma headingOfLine_length : forall l, length (headingOfLine l) <= 1.
Proof. intros l. unfold headingOfLine. destruct (rmatch tocHeadingRe l); simpl; lia. Qed.

Lemma markdownHeadings_length : forall lines,
  length (flat_map headingOfLine lines) <= length lines.
Proof.
  induction lines as [|l lines IH]; simpl; [lia|].
  rewrite length_app. pose proof (headingOfLine_length l). lia.
Qed.

(** X9: every item of the table of contents has a level from 1 to 6 and
    a text that is not blank and holds no line terminator; there are at
    most as many items as the text has lines. *)
Theorem toc_items_are_headings : forall markdown,
  length (tocItems markdown) <= length (split LF markdown)
  /\ forall item, In item (tocItems markdown) ->
       1 <= tocLevel item <= 6
       /\ forallb isDot (tocText item) = true
       /\ trim (tocText item) <> [].
Proof.
  intros markdown. split.
  - unfold tocItems, extractHeadings, markdownHeadings.
    etransitivity; [apply extractHeadingsFrom_length|apply markdownHeadings_length].
  - intros item H. unfold tocItems, extractHeadings in H.
    apply extractHeadingsFrom_In in H. destruct H as (node & Hin & -> & -> & Ht).
    unfold markdownHeadings in Hin. apply in_flat_map in Hin. destruct Hin as (l & _ & Hin).
    apply headingOfLine_shape in Hin. tauto.
Qed.

Lemma toc_items_are_headings_witness :
  exists item, In item (tocItems (js "## Title")) /\ 1 <= tocLevel item <= 6.
Proof.
  eexists. split; [left; reflexivity|].
  exact (proj1 (proj2 (toc_items_are_headings (js "## Title")) _ (or_introl eq_refl))).
Defined.

Lemma extractHeadingsFrom_lists : forall nodes k node,
  In node nodes -> trim (headingText node) <> [] ->
  exists item, In item (extractHeadingsFrom k nodes)
               /\ tocLevel item = headingLevel node /\ tocText item = headingText node.
Proof.
  induction nodes as [|n nodes IH]; intros k node Hin Ht; [contradiction|].
  simpl. destruct Hin as [->|Hin].
  - destruct (trim (headingText node)) as [|c t] eqn:E; [contradiction|].
    eexists. split; [now left|]. split; reflexivity.
  - destruct (IH (S k) node Hin Ht) as (item & Hitem & Hrest).
    exists item. split; [|exact Hrest]. destruct (trim (headingText n)); [exact Hitem|now right].
Qed.

Lemma trimStart_idempotent : forall s, trimStart (trimStart s) = trimStart s.
Proof.
  induction s as [|c s IH]; [reflexivity|]. simpl.
  destruct (isSpace c) eqn:E; [exact IH|]. simpl. now rewrite E.
Qed.

Lemma forallb_suffix : forall (p : cu -> bool) a b, forallb p (a ++ b) = true -> forallb p b = true.
Proof. intros p a b H. rewrite forallb_app in H. now apply andb_prop in H. Qed.

(** X10: the table of contents and the renderer agree on heading lines.
    A line of 1 to 6 hash signs, one white space character and text
    without line terminator, which [styleLine] matches as a heading of
    that level, gives a heading node of the same level whose text is
    the text without its leading white space; when that text is not
    blank the table of contents of a document with this line lists
    it. *)
Theorem heading_lines_are_listed : forall L ws text,
  1 <= L <= 6 -> isSpace ws = true -> forallb isDot text = true ->
  rmatch headingRe (hashes L ++ ws :: text) = Some [(2, text); (1, hashes L)]
  /\ headingOfLine (hashes L ++ ws :: text)
     = [{| headingLevel := L; headingText := trimStart text |}]
  /\ forall markdown,
       In (hashes L ++ ws :: text) (split LF markdown) ->
       trim text <> [] ->
       exists item, In item (tocItems markdown)
                    /\ tocLevel item = L /\ tocText item = trimStart text.
Proof.
  intros L ws text HL Hws Hdot.
  assert (Hh : headingOfLine (hashes L ++ ws :: text)
               = [{| headingLevel := L; headingText := trimStart text |}]).
  { destruct (trimStart_split text) as (sp & E & Hsp & Hb).
    unfold headingOfLine. rewrite E at 1.
    rewrite toc_match; auto.
    - cbn [cap Nat.eqb]. unfold hashes. now rewrite repeat_length.
    - apply (forallb_suffix isDot sp). now rewrite <- E. }
  split; [now apply heading_match|]. split; [exact Hh|].
  intros markdown Hin Ht.
  destruct (extractHeadingsFrom_lists (markdownHeadings markdown) 0
              {| headingLevel := L; headingText := trimStart text |})
    as (item & Hitem & Hl & Htx).
  - unfold markdownHeadings. apply in_flat_map. eexists. split; [exact Hin|].
    rewrite Hh. now left.
  - cbn [headingText]. unfold trim. rewrite trimStart_idempotent. exact Ht.
  - exists item. split; [exact Hitem|]. split; assumption.
Qed.

Lemma heading_lines_are_listed_witness :
  headingOfLine (js "##   Title") = [{| headingLevel := 2; headingText := js "Title" |}].
Proof.
  destruct (heading_lines_are_listed 2 32%N (js "  Title")) as (_ & H & _).
  - lia.
  - reflexivity.
  - reflexivity.
  - exact H.
Defined.

Lemma split_app_line_feed : forall a b,
  split LF (a ++ LF :: b) = split LF a ++ split LF b.
Proof.
  induction a as [|c a IH]; intros b; [reflexivity|]. simpl.
  destruct (cu_eqb c LF); [now rewrite IH|]. rewrite IH.
  pose proof (split_nonempty LF a). destruct (split LF a); [contradiction|reflexivity].
Qed.

(** X11: the headings are read off line by line, with no state carried
    from one line to the next: the headings of two texts joined by a
    line feed are those of the first followed by those of the second.
    Code fences are not tracked, so that a line such as [# x] inside a
    fenced block is listed. *)
Theorem headings_are_read_line_by_line : forall a b,
  markdownHeadings (a ++ LF :: b) = markdownHeadings a ++ markdownHeadings b.
Proof.
  intros a b. unfold markdownHeadings. now rewrite split_app_line_feed, flat_map_app.
Qed.

(** ** Formatting at the cursor *)

Lemma noteFormatting_flag : forall format info n,
  formatFlag format (noteFormatting info n)
  = formatFlag format info || existsb (fun cls => elementHasClass cls n) (classMap format).
Proof.
  intros format info n. unfold noteFormatting.
  destruct format; destruct info as [hf b i c s l]; cbn [existsb classMap];
    destruct (elementHasClass "md-bold" n), (elementHasClass "md-bold-italic" n),
      (elementHasClass "md-italic" n), (elementHasClass "md-code" n),
      (elementHasClass "md-strike" n), (elementHasClass "md-link" n);
    cbn; rewrite ?orb_true_r, ?orb_false_r; reflexivity.
Qed.

Lemma noteFormatting_any : forall info n,
  FormattingInfo.hasFormatting info
  = FormattingInfo.bold info || FormattingInfo.italic info || FormattingInfo.code info
    || FormattingInfo.strikethrough info || FormattingInfo.link info ->
  FormattingInfo.hasFormatting (noteFormatting info n)
  = FormattingInfo.bold (noteFormatting info n) || FormattingInfo.italic (noteFormatting info n)
    || FormattingInfo.code (noteFormatting info n)
    || FormattingInfo.strikethrough (noteFormatting info n)
    || FormattingInfo.link (noteFormatting info n).
Proof.
  intros info n. unfold noteFormatting.
  destruct (elementHasClass "md-bold" n), (elementHasClass "md-bold-italic" n),
    (elementHasClass "md-italic" n), (elementHasClass "md-code" n),
    (elementHasClass "md-strike" n), (elementHasClass "md-link" n);
    destruct info as [hf b i c s l]; cbn; intros ->;
    rewrite ?orb_true_r, ?orb_false_r; try reflexivity.
Qed.

Lemma fold_noteFormatting_flag : forall format chain info,
  formatFlag format (fold_left noteFormatting chain info)
  = formatFlag format info
    || existsb (fun n => existsb (fun cls => elementHasClass cls n) (classMap format)) chain.
Proof.
  intros format. induction chain as [|n chain IH]; intros info; simpl.
  - now rewrite orb_false_r.
  - rewrite IH, noteFormatting_flag. now rewrite orb_assoc.
Qed.

Lemma fold_noteFormatting_any : forall chain info,
  FormattingInfo.hasFormatting info
  = FormattingInfo.bold info || FormattingInfo.italic info || FormattingInfo.code info
    || FormattingInfo.strikethrough info || FormattingInfo.link info ->
  let r := fold_left noteFormatting chain info in
  FormattingInfo.hasFormatting r
  = FormattingInfo.bold r || FormattingInfo.italic r || FormattingInfo.code r
    || FormattingInfo.strikethrough r || FormattingInfo.link r.
Proof.
  induction chain as [|n chain IH]; intros info H; simpl; [exact H|].
  apply IH. now apply noteFormatting_any.
Qed.

Lemma find_some_iff_existsb : forall (A : Type) (f : A -> bool) l,
  existsb f l = true <-> exists x, find f l = Some x.
Proof.
  intros A f. induction l as [|a l IH]; simpl.
  - split; [discriminate|intros [x H]; discriminate].
  - destruct (f a); simpl; [split; [now exists a|reflexivity]|exact IH].
Qed.

(** X12: the toolbar and the toggle agree.  For each of the five formats
    the flag [getFormattingAtCursor] reports is set exactly when
    [findFormattingSpanAtCursor] finds a span for that format, the span
    found is an element around the cursor that carries one of the
    classes of the format, and [hasFormatting] is the disjunction of the
    five flags. *)
Theorem formatting_flags_match_spans : forall container selection,
  let info := getFormattingAtCursor container selection in
  (forall format,
     formatFlag format info = true
     <-> exists span, findFormattingSpanAtCursor container selection format = Some span)
  /\ (forall format span,
        findFormattingSpanAtCursor container selection format = Some span ->
        exists range, selection = Some range
          /\ In span (parentChain container (startContainer range))
          /\ existsb (fun cls => elementHasClass cls span) (classMap format) = true)
  /\ FormattingInfo.hasFormatting info
     = FormattingInfo.bold info || FormattingInfo.italic info || FormattingInfo.code info
       || FormattingInfo.strikethrough info || FormattingInfo.link info.
Proof.
  intros container selection info. subst info. split; [|split].
  - intros format. destruct selection as [range|]; simpl.
    + rewrite fold_noteFormatting_flag.
      replace (formatFlag format noFormatting) with false by now destruct format.
      apply find_some_iff_existsb.
    + split; [destruct format; discriminate|intros [x H]; discriminate].
  - intros format span H. destruct selection as [range|]; [|discriminate].
    exists range. split; [reflexivity|]. simpl in H. apply find_some in H. exact H.
  - destruct selection as [range|]; [|reflexivity]. simpl.
    now apply fold_noteFormatting_any.
Qed.

Lemma formatting_flags_match_spans_witness :
  let container := [Element (js "span") [(js "class", js "md-bold")] [Text (js "a")]] in
  let selection := Some {| startContainer := [0; 0]; startOffset := 1 |} in
  exists span,
    findFormattingSpanAtCursor container selection Bold = Some span
    /\ exists range, selection = Some range
         /\ In span (parentChain container (startContainer range))
         /\ existsb (fun cls => elementHasClass cls span) (classMap Bold) = true.
Proof.
  intros container selection. eexists. split; [reflexivity|].
  apply (proj1 (proj2 (formatting_flags_match_spans container selection)) Bold).
  reflexivity.
Defined.

(** ** Saving the cursor after restoring it *)

Lemma restore_target : forall container pos i lineEl pc lineContent,
  nth_error (children container) (lineIndex pos) = Some (i, lineEl) ->
  querySelector lineContentClass lineEl = Some (pc, lineContent) ->
  exists p off,
    restoreCursorPosition container pos
      = Placed {| startContainer := i :: pc ++ p; startOffset := off |}
    /\ charsBefore lineContent p off
       = Nat.min (offset pos) (length (textContent lineContent))
    /\ ((treeWalkerText lineContent = [] /\ p = [] /\ off = 0)
        \/ (treeWalkerText lineContent <> [] /\ exists d, nodeAt lineContent p = Some (Text d))).
Proof.
  intros container pos i lineEl pc lineContent Hline Hq.
  unfold restoreCursorPosition. rewrite Hline, Hq.
  pose proof (children_nth _ _ _ _ Hline) as Hi.
  destruct (querySelector_nodeAt _ _ _ _ Hq) as [Hpc Hel].
  destruct lineContent as [d0|t a cs]; [discriminate|].
  pose proof (treeWalkerText_text t a cs) as Htext.
  remember (treeWalkerText (Element t a cs)) as nodes eqn:Enodes.
  assert (Hsplit : forall l1 p d l2 off, nodes = l1 ++ (p, d) :: l2 ->
            charsBefore (Element t a cs) p off = length (texts l1) + off
            /\ nodeAt (Element t a cs) p = Some (Text d)).
  { intros l1 p d l2 off E. apply (textNodes_split (Element t a cs) l1 p d l2 off).
    rewrite <- E, Enodes. reflexivity. }
  clear Enodes.
  destruct (findTarget nodes (offset pos) 0) as [[[p d] tgt]|] eqn:F.
  - apply findTarget_some in F; [|lia].
    destruct F as (l1 & l2 & Hn & Hb & ->). simpl in Hb.
    change (0 + length (texts l1)) with (length (texts l1)).
    destruct (Hsplit l1 p d l2 (Nat.min (offset pos - length (texts l1)) (length d)) Hn)
      as [Hc Ha].
    exists p, (Nat.min (offset pos - length (texts l1)) (length d)). split; [|split].
    + apply setStart_text with (lineEl := lineEl) (lineContent := Element t a cs) (d := d); auto.
      apply Nat.le_min_r.
    + rewrite Hc, <- Htext, Hn, texts_app, length_app.
      assert (H : texts ((p, d) :: l2) = d ++ texts l2) by reflexivity.
      rewrite H, length_app. lia.
    + right. split; [rewrite Hn; now destruct l1|now exists d].
  - apply findTarget_none in F; [|lia]. simpl in F.
    destruct nodes as [|x nodes'].
    + exists [], 0. split; [|split].
      * simpl. unfold setStart, resolve. rewrite app_nil_r, Hi, Hpc. reflexivity.
      * rewrite <- Htext. unfold texts. simpl. lia.
      * now left.
    + destruct (@exists_last _ (x :: nodes') ltac:(discriminate)) as (l & [p d] & Hn).
      rewrite Hn in *. rewrite last_map_Some.
      destruct (Hsplit l p d [] (length d) eq_refl) as [Hc Ha].
      exists p, (length d). split; [|split].
      * apply setStart_text with (lineEl := lineEl) (lineContent := Element t a cs) (d := d); auto.
      * rewrite Hc, <- Htext.
        rewrite texts_app, length_app in *.
        assert (H : texts [(p, d)] = d) by (unfold texts; simpl; apply app_nil_r).
        rewrite H in *. lia.
      * right. split; [now destruct l|now exists d].
Qed.

Lemma path_eqb_refl : forall p, path_eqb p p = true.
Proof. induction p as [|x p IH]; simpl; [reflexivity|]. now rewrite Nat.eqb_refl. Qed.

Lemma path_eqb_eq : forall p q, path_eqb p q = true -> p = q.
Proof.
  induction p as [|x p IH]; intros [|y q] H; simpl in H; try discriminate; [reflexivity|].
  apply andb_prop in H. destruct H as [H1 H2]. apply Nat.eqb_eq in H1. subst.
  f_equal. now apply IH.
Qed.

Lemma countUntil_found : forall l1 t off acc r l2,
  countUntil l1 t off acc = Some r -> countUntil (l1 ++ l2) t off acc = Some r.
Proof.
  induction l1 as [|[p d] l1 IH]; intros t off acc r l2 H; simpl in *; [discriminate|].
  destruct (path_eqb p t); [exact H|]. now apply IH.
Qed.

Lemma countUntil_shift : forall l i q off acc,
  countUntil (List.map (fun pa => (i :: fst pa, snd pa)) l) (i :: q) off acc
  = countUntil l q off acc.
Proof.
  induction l as [|[p d] l IH]; intros i q off acc; simpl; [reflexivity|].
  rewrite Nat.eqb_refl. simpl. destruct (path_eqb p q); [reflexivity|]. apply IH.
Qed.

Lemma countUntil_other : forall l j i q off acc rest,
  j <> i ->
  countUntil (List.map (fun pa => (j :: fst pa, snd pa)) l ++ rest) (i :: q) off acc
  = countUntil rest (i :: q) off (acc + length (texts l)).
Proof.
  induction l as [|[p d] l IH]; intros j i q off acc rest H; simpl.
  - unfold texts. simpl. now rewrite Nat.add_0_r.
  - replace (Nat.eqb j i) with false by (symmetry; now apply Nat.eqb_neq). simpl.
    rewrite IH by exact H. f_equal.
    change (texts ((p, d) :: l)) with (d ++ texts l). rewrite length_app. lia.
Qed.

Lemma countUntil_children : forall cs i0 i c q off acc,
  nth_error cs i = Some c ->
  (forall off' acc', exists r,
      countUntil (textNodes c) q off' acc' = Some r /\ r = acc' + charsBefore c q off') ->
  countUntil (collectFrom textNodes i0 cs) ((i0 + i) :: q) off acc
  = Some (acc + length (flat_map textContent (firstn i cs)) + charsBefore c q off).
Proof.
  induction cs as [|c0 cs IH]; intros i0 i c q off acc Hn Hc; [now destruct i|].
  destruct i as [|i]; simpl in Hn.
  - injection Hn as ->. simpl. rewrite Nat.add_0_r.
    destruct (Hc off acc) as (r & Hr & ->).
    apply countUntil_found. rewrite countUntil_shift, Hr. f_equal. simpl. lia.
  - simpl. rewrite countUntil_other by lia.
    replace (i0 + S i) with (S i0 + i) by lia.
    rewrite (IH (S i0) i c q off _ Hn Hc). f_equal.
    rewrite textNodes_text, length_app. lia.
Qed.

Lemma countUntil_text : forall tp n d off acc,
  nodeAt n tp = Some (Text d) ->
  countUntil (textNodes n) tp off acc = Some (acc + charsBefore n tp off).
Proof.
  induction tp as [|i q IH]; intros n d off acc H; simpl in H.
  - injection H as ->. simpl. reflexivity.
  - destruct n as [d0|t a cs]; [discriminate|].
    destruct (nth_error cs i) as [c|] eqn:E; [|discriminate].
    change (textNodes (Element t a cs)) with (collectFrom textNodes 0 cs).
    change (i :: q) with ((0 + i) :: q).
    rewrite (countUntil_children cs 0 i c q off acc E).
    + simpl. rewrite E. f_equal. lia.
    + intros off' acc'. eexists. split; [apply (IH c d); exact H|reflexivity].
Qed.

Lemma countUntil_is_text : forall n q off acc r,
  countUntil (textNodes n) q off acc = Some r -> exists d, nodeAt n q = Some (Text d).
Proof.
  intros n q off acc r H.
  assert (Hin : exists l1 p d l2, textNodes n = l1 ++ (p, d) :: l2 /\ p = q).
  { revert acc H. generalize (textNodes n). induction l as [|[p d] l IH]; intros acc H;
      simpl in H; [discriminate|].
    destruct (path_eqb p q) eqn:E.
    - apply path_eqb_eq in E. now exists [], p, d, l.
    - destruct (IH _ H) as (l1 & p' & d' & l2 & -> & Hp). now exists ((p, d) :: l1), p', d', l2. }
  destruct Hin as (l1 & p & d & l2 & E & <-).
  exists d. apply (textNodes_split n l1 p d l2 0 E).
Qed.

Lemma charsBefore_app : forall pc n m p off,
  nodeAt n pc = Some m -> isElement m = true ->
  charsBefore n (pc ++ p) off = charsBefore n pc 0 + charsBefore m p off.
Proof.
  induction pc as [|i pc IH]; intros n m p off H Hm; simpl in H.
  - injection H as ->. destruct m as [d|t a cs]; [discriminate|]. simpl.
    destruct p; reflexivity.
  - destruct n as [d|t a cs]; [discriminate|].
    destruct (nth_error cs i) as [c|] eqn:E; [|discriminate].
    simpl. rewrite E. rewrite (IH c m p off H Hm). lia.
Qed.

Lemma children_index : forall l i0 k i n,
  nth_error (childrenFrom i0 l) k = Some (i, n) ->
  length (childrenFrom i0 (firstn (i - i0) l)) = k /\ isElement n = true /\ i0 <= i.
Proof.
  induction l as [|m l IH]; intros i0 k i n H; simpl in H; [now destruct k|].
  destruct (isElement m) eqn:Em; simpl in H.
  - destruct k as [|k]; simpl in H.
    + injection H as <- <-. rewrite Nat.sub_diag. simpl. auto.
    + destruct (IH (S i0) k i n H) as (Hlen & Hel & Hle).
      replace (i - i0) with (S (i - S i0)) by lia. simpl. rewrite Em. simpl.
      split; [now f_equal|]. split; [exact Hel|lia].
  - destruct (IH (S i0) k i n H) as (Hlen & Hel & Hle).
    replace (i - i0) with (S (i - S i0)) by lia. simpl. rewrite Em. simpl.
    split; [exact Hlen|]. split; [exact Hel|lia].
Qed.

(** X13: saving the cursor after restoring it gives back the line; the
    offset comes back clamped to the length of the content text and
    increased by the length of the text of the line that precedes its
    content region, the text of the gutter.  On a content region
    without text node the offset comes back as 0. *)
Theorem save_after_restore : forall container pos i lineEl pc lineContent,
  nth_error (children container) (lineIndex pos) = Some (i, lineEl) ->
  querySelector lineContentClass lineEl = Some (pc, lineContent) ->
  exists b,
    restoreCursorPosition container pos = Placed b
    /\ saveCursorPosition container (Some b)
       = Some {| lineIndex := lineIndex pos;
                 offset := match treeWalkerText lineContent with
                           | [] => 0
                           | _ :: _ =>
                               charsBefore lineEl pc 0
                               + Nat.min (offset pos) (length (textContent lineContent))
                           end |}.
Proof.
  intros container pos i lineEl pc lineContent Hline Hq.
  destruct (restore_target container pos i lineEl pc lineContent Hline Hq)
    as (p & off & Hr & Hc & Hcase).
  exists {| startContainer := i :: pc ++ p; startOffset := off |}. split; [exact Hr|].
  pose proof (children_nth _ _ _ _ Hline) as Hi.
  destruct (children_index container 0 _ _ _ Hline) as (Hk & Hel & _).
  rewrite Nat.sub_0_r in Hk. fold (children (firstn i container)) in Hk.
  destruct (querySelector_nodeAt _ _ _ _ Hq) as [Hpc Hcel].
  unfold saveCursorPosition. cbn [startContainer startOffset]. rewrite Hi.
  destruct lineEl as [d0|t a cs]; [discriminate|]. rewrite Hk. f_equal. f_equal.
  change (treeWalkerText (Element t a cs)) with (textNodes (Element t a cs)).
  destruct Hcase as [(Hnone & -> & ->)|(Hsome & d & Hd)].
  - rewrite Hnone, app_nil_r.
    destruct (countUntil (textNodes (Element t a cs)) pc 0 0) eqn:E; [|reflexivity].
    apply countUntil_is_text in E. destruct E as (d & E). rewrite Hpc in E.
    injection E as ->. discriminate.
  - destruct (treeWalkerText lineContent); [contradiction|].
    rewrite (countUntil_text (pc ++ p) (Element t a cs) d off 0).
    + rewrite (charsBefore_app pc (Element t a cs) lineContent p off Hpc Hcel), Hc.
      reflexivity.
    + rewrite (nodeAt_app pc (Element t a cs) lineContent p Hpc). exact Hd.
Qed.

Lemma save_after_restore_witness :
  exists b,
    restoreCursorPosition
      [Element (js "div") [] [Text (js "1");
         Element (js "span") [(js "class", js "line-content")] [Text (js "abc")]]]
      {| lineIndex := 0; offset := 2 |} = Placed b
    /\ saveCursorPosition
         [Element (js "div") [] [Text (js "1");
            Element (js "span") [(js "class", js "line-content")] [Text (js "abc")]]]
         (Some b) = Some {| lineIndex := 0; offset := 3 |}.
Proof.
  destruct (save_after_restore
              [Element (js "div") [] [Text (js "1");
                 Element (js "span") [(js "class", js "line-content")] [Text (js "abc")]]]
              {| lineIndex := 0; offset := 2 |} 0
              (Element (js "div") [] [Text (js "1");
                 Element (js "span") [(js "class", js "line-content")] [Text (js "abc")]])
              [1] (Element (js "span") [(js "class", js "line-content")] [Text (js "abc")])
              eq_refl eq_refl) as (b & H1 & H2).
  exists b. split; [exact H1|exact H2].
Defined.

(** ** The escaper *)

Lemma replace_char_app : forall c by_ a b,
  replace_char c by_ (a ++ b) = replace_char c by_ a ++ replace_char c by_ b.
Proof. intros. unfold replace_char. apply flat_map_app. Qed.

Lemma escapeHtml_app : forall a b, escapeHtml (a ++ b) = escapeHtml a ++ escapeHtml b.
Proof. intros a b. unfold escapeHtml. now rewrite !replace_char_app. Qed.

Lemma escapeHtml_cons : forall c s, escapeHtml (c :: s) = escapeHtml [c] ++ escapeHtml s.
Proof. intros c s. apply (escapeHtml_app [c] s). Qed.

Lemma escapeHtml_char : forall c,
  escapeHtml [c]
  = if isCh "&" c then js "&amp;"
    else if isCh "<" c then js "&lt;"
    else if isCh ">" c then js "&gt;"
    else if cu_eqb c 34 then js "&quot;"
    else if isCh "'" c then js "&#39;"
    else [c].
Proof.
  intros c. unfold escapeHtml, replace_char, isCh. cbn [flat_map app].
  destruct (N.eqb_spec c (ch "&")) as [->|H1]; [reflexivity|].
  replace (cu_eqb c (ch "&")) with false by (symmetry; now apply N.eqb_neq).
  cbn [flat_map app].
  destruct (N.eqb_spec c (ch "<")) as [->|H2]; [reflexivity|].
  replace (cu_eqb c (ch "<")) with false by (symmetry; now apply N.eqb_neq).
  cbn [flat_map app].
  destruct (N.eqb_spec c (ch ">")) as [->|H3]; [reflexivity|].
  replace (cu_eqb c (ch ">")) with false by (symmetry; now apply N.eqb_neq).
  cbn [flat_map app].
  destruct (N.eqb_spec c 34) as [->|H4]; [reflexivity|].
  replace (cu_eqb c 34) with false by (symmetry; now apply N.eqb_neq).
  cbn [flat_map app].
  destruct (N.eqb_spec c (ch "'")) as [->|H5]; [reflexivity|].
  replace (cu_eqb c (ch "'")) with false by (symmetry; now apply N.eqb_neq).
  reflexivity.
Qed.

(** X14: the text [escapeHtml] returns holds none of the characters that
    open or close a tag or an attribute value. *)
Theorem escaped_text_has_no_markup : forall text,
  Forall (fun c => isCh "<" c = false /\ isCh ">" c = false
                   /\ cu_eqb c 34 = false /\ isCh "'" c = false) (escapeHtml text).
Proof.
  induction text as [|c text IH]; [constructor|].
  rewrite escapeHtml_cons. apply Forall_app. split; [|exact IH].
  rewrite escapeHtml_char.
  destruct (isCh "&" c) eqn:E1; [repeat constructor|].
  destruct (isCh "<" c) eqn:E2; [repeat constructor|].
  destruct (isCh ">" c) eqn:E3; [repeat constructor|].
  destruct (cu_eqb c 34) eqn:E4; [repeat constructor|].
  destruct (isCh "'" c) eqn:E5; [repeat constructor|].
  repeat constructor; assumption.
Qed.

Lemma startsWith_nil : forall s, startsWith s [] = true.
Proof. now destruct s. Qed.

Lemma decode_escaped_char : forall c rest,
  decodeEntities (escapeHtml [c] ++ rest) 0 = c :: decodeEntities rest 0.
Proof.
  intros c rest. rewrite escapeHtml_char.
  destruct (isCh "&" c) eqn:E1; [apply isCh_true in E1; subst; cbn; rewrite startsWith_nil; reflexivity|].
  destruct (isCh "<" c) eqn:E2; [apply isCh_true in E2; subst; cbn; rewrite startsWith_nil; reflexivity|].
  destruct (isCh ">" c) eqn:E3; [apply isCh_true in E3; subst; cbn; rewrite startsWith_nil; reflexivity|].
  destruct (cu_eqb c 34) eqn:E4; [apply N.eqb_eq in E4; subst; cbn; rewrite startsWith_nil; reflexivity|].
  destruct (isCh "'" c) eqn:E5; [apply isCh_true in E5; subst; cbn; rewrite startsWith_nil; reflexivity|].
  unfold isCh in *. cbn [app decodeEntities startsWith js].
  cbn -[cu_eqb decodeEntities]. change (cu_eqb c 38) with (cu_eqb c (ch "&")).
  rewrite E1. reflexivity.
Qed.

Lemma decode_escaped : forall text, decodeEntities (escapeHtml text) 0 = text.
Proof.
  induction text as [|c text IH]; [reflexivity|].
  rewrite escapeHtml_cons, decode_escaped_char. now rewrite IH.
Qed.

(** X15: [escapeHtml] loses nothing: two texts with the same escaped
    form are the same text. *)
Theorem escapeHtml_injective : forall a b, escapeHtml a = escapeHtml b -> a = b.
Proof.
  intros a b H. rewrite <- (decode_escaped a), <- (decode_escaped b). now rewrite H.
Qed.

Lemma escapeHtml_injective_witness :
  js "a<b" = js "a<b".
Proof. apply escapeHtml_injective. reflexivity. Defined.

(** ** The first pass of the renderer *)

Lemma startsWith_single : forall c l k, startsWith (c :: l) [k] = cu_eqb c k.
Proof. intros c l k. destruct l; simpl; apply andb_true_r. Qed.

Lemma quote_run : forall l,
  exists n rest, l = repeat (ch ">") n ++ rest /\ startsWith rest (js ">") = false.
Proof.
  induction l as [|c l IH]; [now exists 0, []|].
  destruct (isCh ">" c) eqn:E.
  - apply isCh_true in E. subst c. destruct IH as (n & rest & -> & H).
    now exists (S n), rest.
  - exists 0, (c :: l). split; [reflexivity|].
    change (js ">") with [ch ">"]. rewrite startsWith_single. exact E.
Qed.

Lemma blockquote_line_depth : forall l,
  isBlockquoteLine l = true -> 1 <= getBlockquoteDepth l.
Proof.
  intros l H. destruct (quote_run l) as (n & rest & -> & Hrest).
  rewrite getBlockquoteDepth_run by exact Hrest.
  destruct n as [|n]; [|lia]. exfalso. simpl in H.
  unfold isBlockquoteLine in H.
  assert (E : test quotePrefixRe rest = false).
  { unfold quotePrefixRe. cbn [seqs]. rewrite test_anchored. unfold exec, plus, opt. cbn [mt].
    destruct rest as [|c rest]; [reflexivity|]. cbn [rep].
    change (js ">") with [ch ">"] in Hrest. rewrite startsWith_single in Hrest.
    fold (isCh ">" c) in Hrest. rewrite Hrest. reflexivity. }
  rewrite E in H. discriminate H.
Qed.

Lemma classifyLine_flags : forall st l,
  let info := fst (classifyLine st l) in
  flagCount info <= 1
  /\ (isBlockquote info = true -> 1 <= blockquoteDepth info)
  /\ (isBlockquote info = false -> blockquoteDepth info = 0)
  /\ (isAlertLine info = false -> alertType info = None)
  /\ (isAlertHeader info = true -> exists t, alertType info = Some t).
Proof.
  intros st l. unfold classifyLine.
  destruct (startsWith l fence); [cbn; repeat split; auto; discriminate|].
  destruct (inCodeBlock st); [cbn; repeat split; auto; discriminate|].
  destruct (rmatch alertHeaderRe l) as [m|].
  { cbn. repeat split; auto; try discriminate. intros _. eexists. reflexivity. }
  destruct (truthy (currentAlertType st) && test alertContinuationRe l).
  { cbn. repeat split; auto; discriminate. }
  destruct (isBlockquoteLine l) eqn:E.
  - cbn. repeat split; auto; try discriminate. intros _. now apply blockquote_line_depth.
  - cbn. repeat split; auto; discriminate.
Qed.

(** X16: the first pass gives every line at most one kind (fence, code
    content, alert header, alert continuation, blockquote); a
    blockquote line has a depth of at least 1 and every other line the
    depth 0; an alert type is recorded for alert lines only, and for
    every alert header. *)
Theorem first_pass_kinds_are_exclusive : forall lines st,
  Forall (fun info =>
            flagCount info <= 1
            /\ (isBlockquote info = true -> 1 <= blockquoteDepth info)
            /\ (isBlockquote info = false -> blockquoteDepth info = 0)
            /\ (isAlertLine info = false -> alertType info = None)
            /\ (isAlertHeader info = true -> exists t, alertType info = Some t))
    (firstPass st lines).
Proof.
  induction lines as [|l lines IH]; intros st; simpl; [constructor|].
  pose proof (classifyLine_flags st l) as H.
  destruct (classifyLine st l) as [info st']. constructor; [exact H|apply IH].
Qed.

Lemma first_pass_kinds_are_exclusive_witness :
  exists info,
    firstPass initialState [js "> a"] = [info]
    /\ isBlockquote info = true /\ 1 <= blockquoteDepth info.
Proof.
  eexists. split; [reflexivity|]. split; [reflexivity|].
  apply (Forall_inv (first_pass_kinds_are_exclusive [js "> a"] initialState)).
  reflexivity.
Defined.

Lemma classifyLine_quietInCode : forall st l,
  quietInCode st -> quietInCode (snd (classifyLine st l)).
Proof.
  intros st l H. unfold classifyLine, quietInCode in *.
  destruct (startsWith l fence); [reflexivity|].
  destruct (inCodeBlock st) eqn:Ec; [cbn [snd]; intros _; now apply H|].
  destruct (rmatch alertHeaderRe l); [cbn; discriminate|].
  destruct (truthy (currentAlertType st) && test alertContinuationRe l);
    [cbn; rewrite Ec; discriminate|].
  destruct (isBlockquoteLine l), (negb (test alertContinuationRe l)); cbn;
    rewrite ?Ec; discriminate.
Qed.

Lemma stateAfter_quietInCode : forall ls st, quietInCode st -> quietInCode (stateAfter st ls).
Proof.
  induction ls as [|l ls IH]; intros st H; simpl; [exact H|].
  apply IH. now apply classifyLine_quietInCode.
Qed.

(** After a line that is no alert line no alert is open. *)
Lemma classifyLine_alert_state : forall st l,
  quietInCode st ->
  truthy (currentAlertType (snd (classifyLine st l))) = true ->
  isAlertLine (fst (classifyLine st l)) = true
  /\ alertType (fst (classifyLine st l)) = currentAlertType (snd (classifyLine st l)).
Proof.
  intros st l Hq. unfold classifyLine.
  destruct (startsWith l fence); [cbn; discriminate|].
  destruct (inCodeBlock st) eqn:Ec.
  { cbn. rewrite (Hq Ec). discriminate. }
  destruct (rmatch alertHeaderRe l); [cbn; auto|].
  destruct (truthy (currentAlertType st)) eqn:Et, (test alertContinuationRe l) eqn:Ea; cbn.
  - auto.
  - destruct (isBlockquoteLine l); cbn; discriminate.
  - destruct (isBlockquoteLine l); cbn; rewrite Et; discriminate.
  - destruct (isBlockquoteLine l); cbn; discriminate.
Qed.

Lemma classifyLine_alert_content : forall st l,
  isAlertContent (fst (classifyLine st l)) = true ->
  truthy (currentAlertType st) = true
  /\ alertType (fst (classifyLine st l)) = currentAlertType st.
Proof.
  intros st l. unfold classifyLine.
  destruct (startsWith l fence); [cbn; discriminate|].
  destruct (inCodeBlock st); [cbn; discriminate|].
  destruct (rmatch alertHeaderRe l); [cbn; discriminate|].
  destruct (truthy (currentAlertType st)) eqn:Et, (test alertContinuationRe l) eqn:Ea; cbn;
    try (destruct (isBlockquoteLine l); cbn; discriminate).
  auto.
Qed.

Lemma stateAfter_snoc : forall ls st l,
  stateAfter st (ls ++ [l]) = snd (classifyLine (stateAfter st ls) l).
Proof.
  induction ls as [|x ls IH]; intros st l; simpl; [reflexivity|]. apply IH.
Qed.

(** X17: an alert continuation line never stands alone.  The line before
    it is an alert header or another continuation line, and carries the
    same alert type; in particular the first line of a document is never
    an alert continuation. *)
Theorem alert_content_follows_alert : forall lines j info,
  nth_error (firstPass initialState lines) j = Some info ->
  isAlertContent info = true ->
  exists j' prev,
    j = S j'
    /\ nth_error (firstPass initialState lines) j' = Some prev
    /\ isAlertLine prev = true
    /\ alertType prev = alertType info.
Proof.
  intros lines j info Hn Hc.
  assert (Hj : j < length lines).
  { rewrite <- (firstPass_lines lines initialState), length_map.
    apply nth_error_Some. rewrite Hn. discriminate. }
  destruct (list_around lines j Hj) as (A & l & B & -> & <-).
  rewrite firstPass_nth in Hn. injection Hn as <-.
  apply classifyLine_alert_content in Hc. destruct Hc as [Ht Ha].
  destruct (@exists_last _ A) as (A' & l' & ->).
  { intros ->. simpl in Ht. discriminate. }
  exists (length A'), (fst (classifyLine (stateAfter initialState A') l')).
  split; [rewrite length_app; simpl; lia|].
  rewrite stateAfter_snoc in Ht, Ha.
  destruct (classifyLine_alert_state (stateAfter initialState A') l') as [H1 H2].
  { apply stateAfter_quietInCode. intros H. discriminate H. }
  { exact Ht. }
  split; [rewrite <- app_assoc; apply firstPass_nth|].
  split; [exact H1|]. rewrite stateAfter_snoc. now rewrite H2, Ha.
Qed.

Lemma alert_content_follows_alert_witness :
  exists j' prev,
    1 = S j'
    /\ nth_error (firstPass initialState [js "> [!NOTE]"; js "> body"]) j' = Some prev
    /\ isAlertLine prev = true.
Proof.
  destruct (alert_content_follows_alert [js "> [!NOTE]"; js "> body"] 1
              (fst (classifyLine (stateAfter initialState [js "> [!NOTE]"]) (js "> body"))))
    as (j' & prev & H1 & H2 & H3 & _).
  - vm_compute. reflexivity.
  - vm_compute. reflexivity.
  - exists j', prev. repeat split; assumption.
Defined.

(** ** Synchronisation with the host *)

Lemma str_eqb_refl : forall s, str_eqb s s = true.
Proof.
  induction s as [|c s IH]; simpl; [reflexivity|]. unfold cu_eqb. now rewrite N.eqb_refl.
Qed.

Lemma str_eqb_eq : forall a b, str_eqb a b = true -> a = b.
Proof.
  induction a as [|c a IH]; intros [|d b] H; simpl in H; try discriminate; [reflexivity|].
  apply andb_prop in H. destruct H as [H1 H2]. apply N.eqb_eq in H1. subst.
  f_equal. now apply IH.
Qed.

Lemma sends_keep_the_last : forall burst st m,
  syncRun st (List.map SendEdit burst ++ [SendEdit m])
  = {| lastSentContent := lastSentContent st; editDebounceTimer := Some m;
       postedEdits := postedEdits st; renderedUpdates := renderedUpdates st |}.
Proof.
  induction burst as [|x burst IH]; intros st m; [reflexivity|].
  change (syncRun st (List.map SendEdit (x :: burst) ++ [SendEdit m]))
    with (syncRun (syncStep st (SendEdit x)) (List.map SendEdit burst ++ [SendEdit m])).
  now rewrite IH.
Qed.

(** X18: edits are debounced and never echoed.  Of a burst of [sendEdit]
    calls only the last text is posted when the timer fires, and not
    even that one when it equals the text sent last; an update that
    brings back the text just posted is skipped; and after an update
    the same text is not posted back. *)
Theorem edits_are_debounced_and_not_echoed : forall st burst m,
  let fired := syncRun st (List.map SendEdit burst ++ [SendEdit m; TimerFires]) in
  postedEdits fired
  = (if str_eqb m (lastSentContent st) then postedEdits st else m :: postedEdits st)
  /\ lastSentContent fired = m
  /\ syncStep fired (UpdateEditorContent m) = fired
  /\ (let updated := syncStep st (UpdateEditorContent m) in
      postedEdits (syncRun updated (List.map SendEdit burst ++ [SendEdit m; TimerFires]))
      = postedEdits st
      /\ lastSentContent updated = m).
Proof.
  intros st burst m fired.
  assert (E : forall s, syncRun s (List.map SendEdit burst ++ [SendEdit m; TimerFires])
              = syncStep (syncRun s (List.map SendEdit burst ++ [SendEdit m])) TimerFires).
  { intros s. unfold syncRun.
    change [SendEdit m; TimerFires] with ([SendEdit m] ++ [TimerFires]).
    rewrite app_assoc, fold_left_app. reflexivity. }
  subst fired. cbv zeta. rewrite !E, !sends_keep_the_last.
  cbn [syncStep editDebounceTimer lastSentContent].
  destruct (str_eqb m (lastSentContent st)) eqn:Em;
    cbn [postedEdits lastSentContent editDebounceTimer renderedUpdates syncStep];
    rewrite ?str_eqb_refl, ?Em;
    cbn [postedEdits lastSentContent editDebounceTimer renderedUpdates syncStep];
    rewrite ?str_eqb_refl, ?Em;
    cbn [postedEdits lastSentContent editDebounceTimer renderedUpdates syncStep];
    try (apply str_eqb_eq in Em; subst m);
    repeat split; reflexivity.
Qed.

(** X19: the provider does not answer an edit with an update.  An [edit]
    message makes its text the text of the document and posts nothing
    to the webview, also when the change listener runs once more
    afterwards; a change made outside the editor is posted once, and
    not at all when it is the text known last; and an edit that brings
    back the text of the document is ignored. *)
Theorem provider_does_not_echo : forall h content,
  isApplyingEdit h = false ->
  let edited := onEditMessage h content in
  let changed := onExternalChange h content in
  (content <> documentText h ->
     documentText edited = content
     /\ postedUpdates edited = postedUpdates h
     /\ changeHandler edited = edited)
  /\ postedUpdates changed
     = (if str_eqb content (lastKnownContent h) then postedUpdates h
        else content :: postedUpdates h)
  /\ changeHandler changed = changed
  /\ onEditMessage changed content = changed.
Proof.
  intros h content Hflag edited changed. subst edited changed.
  unfold onEditMessage, onExternalChange, changeHandler.
  cbn [documentText lastKnownContent isApplyingEdit postedUpdates]. rewrite Hflag.
  split; [|split; [|split]].
  - intros Hne. destruct (str_eqb content (documentText h)) eqn:E.
    + apply str_eqb_eq in E. contradiction.
    + cbn [documentText lastKnownContent isApplyingEdit postedUpdates].
      rewrite str_eqb_refl. repeat split; reflexivity.
  - destruct (str_eqb content (lastKnownContent h)); reflexivity.
  - destruct (str_eqb content (lastKnownContent h)) eqn:E;
      cbn [documentText lastKnownContent isApplyingEdit postedUpdates];
      rewrite ?Hflag, ?E, ?str_eqb_refl; reflexivity.
  - destruct (str_eqb content (lastKnownContent h)) eqn:E;
      cbn [documentText lastKnownContent isApplyingEdit postedUpdates];
      rewrite ?str_eqb_refl; reflexivity.
Qed.

Lemma provider_does_not_echo_witness :
  postedUpdates
    (onEditMessage {| documentText := js "a"; lastKnownContent := js "a";
                      isApplyingEdit := false; postedUpdates := [] |} (js "b")) = [].
Proof.
  destruct (provider_does_not_echo
              {| documentText := js "a"; lastKnownContent := js "a";
                 isApplyingEdit := false; postedUpdates := [] |} (js "b") eq_refl)
    as (H & _).
  destruct H as (_ & H & _); [discriminate|exact H].
Defined.

(** ** Inline styling only adds tags *)

Lemma styled_app : forall n a b, styled n a -> styled n b -> styled n (a ++ b).
Proof.
  intros n a b Ha Hb. induction Ha as [|c s H0 H1 H2 Hs IH|body s Hbody Hs IH|i s Hi Hs IH].
  - exact Hb.
  - simpl. now apply styled_char.
  - change ((ch "<" :: body ++ ch ">" :: s) ++ b) with (ch "<" :: (body ++ ch ">" :: s) ++ b).
    rewrite <- app_assoc. simpl. now apply styled_tag.
  - rewrite <- app_assoc. now apply styled_holder.
Qed.

Lemma styled_mono : forall n m s, n <= m -> styled n s -> styled m s.
Proof.
  intros n m s Hnm H. induction H as [|c s H0 H1 H2 Hs IH|body s Hbody Hs IH|i s Hi Hs IH].
  - apply styled_nil.
  - now apply styled_char.
  - now apply styled_tag.
  - apply styled_holder; [lia|exact IH].
Qed.

Lemma tagSafe_not_close : forall c, tagSafe c = true -> isCh ">" c = false.
Proof.
  intros c H. unfold tagSafe in H. destruct (isCh ">" c); [|reflexivity].
  now rewrite andb_false_r in H.
Qed.

Lemma visible_tag_body : forall body x,
  forallb tagSafe body = true ->
  visibleFrom true (body ++ ch ">" :: x) = visibleFrom false x.
Proof.
  induction body as [|c body IH]; intros x H; [reflexivity|].
  simpl in H. apply andb_prop in H. destruct H as [Hc H].
  cbn [app visibleFrom]. rewrite (tagSafe_not_close c Hc). now apply IH.
Qed.

Lemma phChar_readMarker : forall c, phChar c = true -> readMarker c = c /\ isCh "<" c = false.
Proof.
  intros c H. unfold readMarker, isCh, cu_eqb, ASTERISK, UNDERSCORE.
  destruct (N.eqb_spec c 1) as [->|]; [discriminate H|].
  destruct (N.eqb_spec c 2) as [->|]; [discriminate H|].
  destruct (N.eqb_spec c (ch "<")) as [->|]; [discriminate H|]. now split.
Qed.

Lemma visible_through : forall a x,
  forallb phChar a = true -> visibleFrom false (a ++ x) = a ++ visibleFrom false x.
Proof.
  induction a as [|c a IH]; intros x H; [reflexivity|].
  simpl in H. apply andb_prop in H. destruct H as [Hc H].
  destruct (phChar_readMarker c Hc) as [Hr Hl].
  cbn [app visibleFrom]. rewrite Hl, Hr. f_equal. now apply IH.
Qed.

Lemma visible_app : forall n a b,
  styled n a -> visible (a ++ b) = visible a ++ visible b.
Proof.
  intros n a b H. unfold visible.
  induction H as [|c s H0 H1 H2 Hs IH|body s Hbody Hs IH|i s Hi Hs IH].
  - reflexivity.
  - cbn [app visibleFrom]. rewrite H1. simpl. now rewrite IH.
  - change ((ch "<" :: body ++ ch ">" :: s) ++ b) with (ch "<" :: (body ++ ch ">" :: s) ++ b).
    rewrite <- app_assoc. cbn [app visibleFrom].
    change (isCh "<" (ch "<")) with true. cbv iota.
    rewrite !visible_tag_body by exact Hbody. exact IH.
  - rewrite <- app_assoc.
    rewrite (visible_through (placeholder i) (s ++ b)) by apply placeholder_phChar.
    rewrite (visible_through (placeholder i) s) by apply placeholder_phChar.
    rewrite IH. apply app_assoc.
Qed.

Lemma through_unit : forall (unit_ s a : str) d b,
  unit_ ++ s = a ++ d :: b ->
  Forall (fun c => c <> d) unit_ ->
  exists l, a = unit_ ++ l /\ s = l ++ d :: b.
Proof.
  induction unit_ as [|u unit_ IH]; intros s a d b E H; [now exists a|].
  inversion H as [|? ? Hu Hrest]; subst.
  destruct a as [|x a]; simpl in E.
  - injection E as E1 E2. contradiction.
  - injection E as -> E. destruct (IH s a d b E Hrest) as (l & -> & ->). now exists l.
Qed.

Lemma not_delimiter_neq : forall c d,
  isDelimiter c = false -> isDelimiter d = true -> c <> d.
Proof. intros c d Hc Hd ->. congruence. Qed.

Lemma tagSafe_not_delimiter : forall c, tagSafe c = true -> isDelimiter c = false.
Proof.
  intros c H. unfold tagSafe in H. destruct (isDelimiter c); [discriminate H|reflexivity].
Qed.

Lemma phChar_not_delimiter : forall c, phChar c = true -> isDelimiter c = false.
Proof.
  intros c H. destruct (isDelimiter c) eqn:E; [|reflexivity]. exfalso.
  unfold isDelimiter, isCh, cu_eqb, ASTERISK, UNDERSCORE in E.
  repeat (apply orb_prop in E; destruct E as [E|E]);
    apply N.eqb_eq in E; subst c; discriminate H.
Qed.

Lemma tag_not_delimiter : forall body,
  forallb tagSafe body = true ->
  forallb (fun c => negb (isDelimiter c)) (ch "<" :: body ++ [ch ">"]) = true.
Proof.
  intros body H. cbn [forallb]. change (negb (isDelimiter (ch "<"))) with true. cbn [andb].
  rewrite forallb_app. cbn [forallb]. change (negb (isDelimiter (ch ">"))) with true.
  rewrite !andb_true_r. rewrite forallb_forall in *. intros c Hc.
  now rewrite (tagSafe_not_delimiter c (H c Hc)).
Qed.

Lemma holder_not_delimiter : forall i,
  forallb (fun c => negb (isDelimiter c)) (placeholder i) = true.
Proof.
  intros i. pose proof (placeholder_phChar i) as H. rewrite forallb_forall in *.
  intros c Hc. now rewrite (phChar_not_delimiter c (H c Hc)).
Qed.

Lemma unit_neq : forall unit_ d,
  forallb (fun c => negb (isDelimiter c)) unit_ = true -> isDelimiter d = true ->
  Forall (fun c => c <> d) unit_.
Proof.
  intros unit_ d H Hd. apply Forall_forall. intros c Hc. rewrite forallb_forall in H.
  specialize (H c Hc). apply not_delimiter_neq; [|exact Hd]. now destruct (isDelimiter c).
Qed.

(** Markup splits into markup at a delimiter. *)
Lemma styled_split : forall n s,
  styled n s ->
  forall a d b, s = a ++ d :: b -> isDelimiter d = true -> styled n a /\ styled n (d :: b).
Proof.
  intros n s H. induction H as [|c s H0 H1 H2 Hs IH|body s Hbody Hs IH|i s Hi Hs IH];
    intros a d b E Hd.
  - now destruct a.
  - destruct a as [|x a]; simpl in E.
    + injection E as <- <-. split; [apply styled_nil|now apply styled_char].
    + injection E as <- E. destruct (IH a d b E Hd) as [Ha Hb].
      split; [now apply styled_char|exact Hb].
  - change (ch "<" :: body ++ ch ">" :: s) with ((ch "<" :: body ++ [ch ">"]) ++ s) in E
      || (replace (ch "<" :: body ++ ch ">" :: s) with ((ch "<" :: body ++ [ch ">"]) ++ s) in E
            by (simpl; now rewrite <- app_assoc)).
    destruct (through_unit _ _ _ _ _ E (unit_neq _ d (tag_not_delimiter body Hbody) Hd))
      as (l & -> & El).
    destruct (IH l d b El Hd) as [Ha Hb]. split; [|exact Hb].
    simpl. rewrite <- app_assoc. simpl. now apply styled_tag.
  - destruct (through_unit _ _ _ _ _ E (unit_neq _ d (holder_not_delimiter i) Hd))
      as (l & -> & El).
    destruct (IH l d b El Hd) as [Ha Hb]. split; [|exact Hb].
    now apply styled_holder.
Qed.

Lemma styled_delimiter_inv : forall n d b,
  styled n (d :: b) -> isDelimiter d = true ->
  styled n b /\ d <> 0%N /\ isCh "<" d = false /\ isCh ">" d = false.
Proof.
  intros n d b H Hd. remember (d :: b) as x eqn:Ex.
  destruct H as [|c s H0 H1 H2 Hs|body s Hbody Hs|i s Hi Hs].
  - discriminate Ex.
  - injection Ex as -> ->. now repeat split.
  - injection Ex as <- _. discriminate Hd.
  - destruct (placeholder_head i) as [t Et]. rewrite Et in Ex. injection Ex as <- _.
    discriminate Hd.
Qed.

Lemma visible_cons : forall c s,
  isCh "<" c = false -> visible (c :: s) = readMarker c :: visible s.
Proof. intros c s H. unfold visible. cbn [visibleFrom]. now rewrite H. Qed.

Lemma visible_tag : forall body s,
  forallb tagSafe body = true -> visible (ch "<" :: body ++ ch ">" :: s) = visible s.
Proof.
  intros body s H. unfold visible. cbn [visibleFrom]. change (isCh "<" (ch "<")) with true.
  cbv iota. now apply visible_tag_body.
Qed.

Lemma visible_holder : forall i s, visible (placeholder i ++ s) = placeholder i ++ visible s.
Proof. intros i s. apply visible_through, placeholder_phChar. Qed.

Section ReplaceStyled.
Variable n : nat.
Variable r : re.
Variable f : captures -> str.
Hypothesis starts_at_delimiter :
  forall pre c rest, isDelimiter c = false -> exec r pre (c :: rest) = None.
Hypothesis never_empty : forall pre, exec r pre [] = None.
Hypothesis keeps_styled : forall pre rest pre' rest' cs,
  exec r pre rest = Some (pre', rest', cs) ->
  styled n rest ->
  styled n (f cs) /\ styled n rest' /\ length rest' < length rest
  /\ visible (f cs) ++ visible rest' = visible rest.

Lemma not_at_delimiter : forall pre c rest,
  negb (isDelimiter c) = true -> exec r pre (c :: rest) = None.
Proof.
  intros pre c rest H. apply starts_at_delimiter. now destruct (isDelimiter c).
Qed.

Lemma replace_all_from_styled : forall k rest pre,
  length rest <= k -> styled n rest ->
  styled n (replace_all_from r f pre rest 0)
  /\ visible (replace_all_from r f pre rest 0) = visible rest.
Proof.
  induction k as [|k IH]; intros rest pre Hk H.
  - destruct rest; [|simpl in Hk; lia]. simpl. rewrite never_empty.
    split; [apply styled_nil|reflexivity].
  - destruct H as [|c s H0 H1 H2 Hs|body s Hbody Hs|i s Hi Hs].
    + simpl. rewrite never_empty. split; [apply styled_nil|reflexivity].
    + destruct (exec r pre (c :: s)) as [[[pre' rest'] cs]|] eqn:E.
      * destruct (keeps_styled _ _ _ _ _ E (@styled_char n c s H0 H1 H2 Hs))
          as (Hf & Hr & Hlen & Hv).
        rewrite (replace_all_from_match _ _ _ _ _ _ _ E Hlen).
        destruct (IH rest' pre' ltac:(simpl in *; lia) Hr) as [IH1 IH2].
        split; [now apply styled_app|].
        rewrite (visible_app n _ _ Hf), IH2. exact Hv.
      * cbn [replace_all_from]. rewrite E.
        destruct (IH s (c :: pre) ltac:(simpl in Hk; lia) Hs) as [IH1 IH2].
        split; [now apply styled_char|].
        rewrite !visible_cons by exact H1. f_equal. exact IH2.
    + replace (ch "<" :: body ++ ch ">" :: s) with ((ch "<" :: body ++ [ch ">"]) ++ s)
        by (simpl; now rewrite <- app_assoc).
      rewrite (replace_all_from_through r f _ not_at_delimiter _ _ _
                 (tag_not_delimiter body Hbody)).
      match goal with
      | |- context [replace_all_from r f ?p s 0] =>
          destruct (IH s p) as [IH1 IH2]; [|exact Hs|]
      end.
      { cbn [length] in Hk. rewrite length_app in Hk. cbn [length] in Hk. lia. }
      cbn [app]. rewrite <- !app_assoc. cbn [app].
      split; [now apply styled_tag|].
      rewrite !visible_tag by exact Hbody. exact IH2.
    + rewrite (replace_all_from_through r f _ not_at_delimiter _ _ _ (holder_not_delimiter i)).
      match goal with
      | |- context [replace_all_from r f ?p s 0] =>
          destruct (IH s p) as [IH1 IH2]; [|exact Hs|]
      end.
      { rewrite length_app in Hk. destruct (placeholder_head i) as [t E]. rewrite E in Hk.
        simpl in Hk. lia. }
      split; [now apply styled_holder|].
      rewrite !visible_holder. f_equal. exact IH2.
Qed.

Lemma replace_all_styled : forall s,
  styled n s -> styled n (replace_all r f s) /\ visible (replace_all r f s) = visible s.
Proof.
  intros s H. unfold replace_all. now apply (replace_all_from_styled (length s)).
Qed.
End ReplaceStyled.

Lemma isCh_delimiter : forall a, isDelimiter (ch a) = true ->
  forall c, isDelimiter c = false -> isCh a c = false.
Proof.
  intros a Ha c Hc. unfold isCh, cu_eqb. destruct (N.eqb_spec c (ch a)) as [->|]; [|reflexivity].
  congruence.
Qed.

Lemma cu_eqb_delimiter : forall k c,
  isDelimiter k = true -> isDelimiter c = false -> cu_eqb k c = false.
Proof.
  intros k c Hk Hc. unfold cu_eqb. destruct (N.eqb_spec k c) as [->|]; [|reflexivity].
  congruence.
Qed.

Ltac first_unit_is_delimiter c Hc :=
  repeat match goal with
  | |- context [isCh ?a c] => rewrite (isCh_delimiter a eq_refl c Hc)
  | |- context [cu_eqb ?k c] => rewrite (cu_eqb_delimiter k c eq_refl Hc)
  end.

Ltac starts_at_delimiter_tac :=
  let pre := fresh "pre" in let c := fresh "c" in let rest := fresh "rest" in
  let Hc := fresh "Hc" in
  intros pre c rest Hc; unfold exec; unfold_inline_patterns;
  cbn -[isCh notCh isDot isAlnum cu_eqb rep];
  try (destruct pre as [|? ?];
       [|match goal with |- context [if ?b then None else _] => destruct b end]);
  first_unit_is_delimiter c Hc; reflexivity.

Lemma visibleFrom_app : forall n a b,
  styled n a -> visibleFrom false (a ++ b) = visibleFrom false a ++ visibleFrom false b.
Proof. exact visible_app. Qed.

Lemma styled_cons_inv : forall n c s,
  styled n (c :: s) -> c <> 0%N -> isCh "<" c = false -> styled n s.
Proof.
  intros n c s H Hc Hl. remember (c :: s) as x eqn:Ex.
  destruct H as [|c' s' H0 H1 H2 Hs|body s' Hbody Hs|i s' Hi Hs].
  - discriminate Ex.
  - now injection Ex as -> ->.
  - injection Ex as <- _. discriminate Hl.
  - destruct (placeholder_head i) as [t Et]. rewrite Et in Ex. injection Ex as <- _.
    now contradiction Hc.
Qed.

Ltac split_styled :=
  repeat match goal with
  | H : styled _ (?d :: ?s) |- _ =>
      apply styled_cons_inv in H; [|apply literal_nonzero; reflexivity|reflexivity]
  | H : styled _ (?a ++ ?d :: ?b) |- _ =>
      let Ha := fresh "Hs" in let Hb := fresh "Hs" in
      destruct (styled_split _ _ H a d b eq_refl eq_refl) as [Ha Hb]; clear H
  end.

(** Split a literal list at its first closing angle bracket. *)
Ltac split_tag l k :=
  lazymatch l with
  | 62%N :: ?x => k (@nil cu) x
  | ?c :: ?l' => split_tag l' ltac:(fun b x => k (c :: b) x)
  end.

Lemma styled_reassoc : forall n (a b c : str),
  styled n (a ++ b ++ c) -> styled n ((a ++ b) ++ c).
Proof. intros n a b c H. now rewrite <- app_assoc. Qed.

Ltac styled_literal :=
  repeat first
    [ assumption
    | apply styled_nil
    | apply styled_reassoc
    | progress cbn [app]
    | match goal with
      | |- styled ?n (60%N :: ?l) =>
          split_tag l ltac:(fun b x =>
            change (styled n (ch "<" :: b ++ ch ">" :: x));
            apply styled_tag; [reflexivity|])
      | |- styled ?n (?g ++ ?x) => apply styled_app; [assumption|]
      | |- styled ?n (_ :: _) => apply styled_char; [discriminate|reflexivity|reflexivity|]
      end ].

Ltac visible_literal n :=
  unfold visible;
  repeat (cbn; repeat rewrite <- app_assoc; cbn;
          repeat match goal with
          | Hg : styled n ?g |- context [visibleFrom false (?g ++ ?x)] =>
              rewrite (visibleFrom_app n g x Hg)
          end).

Ltac keeps_styled_tac :=
  let pre := fresh "pre" in let rest := fresh "rest" in let pre' := fresh "pre'" in
  let rest' := fresh "rest'" in let cs := fresh "cs" in let E := fresh "E" in
  let H := fresh "H" in let m := fresh "m" in let Hms := fresh "Hms" in
  let Hf := fresh "Hf" in
  intros pre rest pre' rest' cs E H;
  destruct (exec_sound _ _ _ _ _ _ E) as (m & -> & -> & Hms); clear E;
  unfold_inline_patterns; cbn in Hms; inv_ms;
  repeat rewrite <- app_assoc in H; cbn [app] in H;
  split_styled;
  match goal with
  | |- styled ?n ?t /\ _ =>
      assert (Hf : styled n t);
      [ unfold syn, tagged; unfold span, q, dq; cbn; repeat rewrite <- app_assoc; cbn;
        styled_literal
      | split; [exact Hf|]; split; [assumption|];
        split; [rewrite !length_app; cbn [length]; lia|];
        rewrite <- (visible_app n _ _ Hf);
        repeat rewrite <- app_assoc; cbn [app];
        unfold syn, tagged; unfold span, q, dq;
        visible_literal n; reflexivity ]
  end.

Lemma styleImages_styled : forall n s,
  styled n s -> styled n (styleImages s) /\ visible (styleImages s) = visible s.
Proof.
  intros n s H. unfold styleImages. apply replace_all_styled; [| | |exact H].
  - starts_at_delimiter_tac.
  - never_empty_tac.
  - keeps_styled_tac.
Qed.

Ltac pass_styled H :=
  apply replace_all_styled;
  [starts_at_delimiter_tac | never_empty_tac | keeps_styled_tac | exact H].

Lemma styleFootnoteRefs_styled : forall n s,
  styled n s -> styled n (styleFootnoteRefs s) /\ visible (styleFootnoteRefs s) = visible s.
Proof. intros n s H. unfold styleFootnoteRefs. pass_styled H. Qed.

Lemma styleLinks_styled : forall n s,
  styled n s -> styled n (styleLinks s) /\ visible (styleLinks s) = visible s.
Proof. intros n s H. unfold styleLinks. pass_styled H. Qed.

Lemma styleBoldItalic_styled : forall n s,
  styled n s -> styled n (styleBoldItalic s) /\ visible (styleBoldItalic s) = visible s.
Proof. intros n s H. unfold styleBoldItalic. pass_styled H. Qed.

Lemma styleBold_styled : forall n s,
  styled n s -> styled n (styleBold s) /\ visible (styleBold s) = visible s.
Proof. intros n s H. unfold styleBold. pass_styled H. Qed.

Lemma styleBoldUnderscore_styled : forall n s,
  styled n s -> styled n (styleBoldUnderscore s) /\ visible (styleBoldUnderscore s) = visible s.
Proof. intros n s H. unfold styleBoldUnderscore. pass_styled H. Qed.

Lemma styleItalic_styled : forall n s,
  styled n s -> styled n (styleItalic s) /\ visible (styleItalic s) = visible s.
Proof. intros n s H. unfold styleItalic. pass_styled H. Qed.

Lemma styleItalicUnderscore_styled : forall n s,
  styled n s ->
  styled n (styleItalicUnderscore s) /\ visible (styleItalicUnderscore s) = visible s.
Proof. intros n s H. unfold styleItalicUnderscore. pass_styled H. Qed.

Lemma styleCode_styled : forall n s,
  styled n s -> styled n (styleCode s) /\ visible (styleCode s) = visible s.
Proof. intros n s H. unfold styleCode. pass_styled H. Qed.

Lemma styleMath_styled : forall n s,
  styled n s -> styled n (styleMath s) /\ visible (styleMath s) = visible s.
Proof. intros n s H. unfold styleMath. pass_styled H. Qed.

Lemma styleStrike_styled : forall n s,
  styled n s -> styled n (styleStrike s) /\ visible (styleStrike s) = visible s.
Proof. intros n s H. unfold styleStrike. pass_styled H. Qed.

Lemma restoreMarkers_styled : forall n s,
  styled n s -> styled n (restoreMarkers s) /\ visible (restoreMarkers s) = visible s.
Proof.
  intros n s H. unfold restoreMarkers.
  assert (H1 : styled n (replace_all (Chr (cu_eqb ASTERISK)) (fun _ => js "*") s)
               /\ visible (replace_all (Chr (cu_eqb ASTERISK)) (fun _ => js "*") s)
                  = visible s) by pass_styled H.
  destruct H1 as [H1 E1]. rewrite <- E1. pass_styled H1.
Qed.

(** ** What is left of styled text once the tags are removed *)

Lemma replace_all_forallb : forall (P : cu -> bool) r f,
  (forall pre rest pre' rest' cs,
     exec r pre rest = Some (pre', rest', cs) ->
     forallb P rest = true -> forallb P (f cs) = true) ->
  forall rest pre skip,
    forallb P rest = true -> forallb P (replace_all_from r f pre rest skip) = true.
Proof.
  intros P r f keeps. induction rest as [|c rest IH]; intros pre skip H.
  - simpl. destruct skip; [|reflexivity].
    destruct (exec r pre []) as [[[pre' rest'] cs]|] eqn:E; [|reflexivity].
    now apply (keeps _ _ _ _ _ E).
  - cbn [replace_all_from]. pose proof H as H'. simpl in H'. apply andb_prop in H'.
    destruct H' as [Hc Hrest]. destruct skip as [|k]; [|now apply IH].
    destruct (exec r pre (c :: rest)) as [[[pre' rest'] cs]|] eqn:E.
    + pose proof (keeps _ _ _ _ _ E H) as Hf.
      destruct (length pre' - length pre); rewrite forallb_app, Hf; simpl;
        [rewrite Hc; simpl|]; now apply IH.
    + simpl. rewrite Hc. simpl. now apply IH.
Qed.

Lemma replace_all_chr : forall p by_ s pre,
  replace_all_from (Chr p) (fun _ => by_) pre s 0
  = flat_map (fun x => if p x then by_ else [x]) s.
Proof.
  intros p by_. induction s as [|c s IH]; intros pre; [reflexivity|].
  cbn [replace_all_from flat_map]. unfold exec. cbn [mt].
  destruct (p c).
  - replace (length (c :: pre) - length pre) with 1 by (cbn [length]; lia).
    now rewrite IH.
  - now rewrite IH.
Qed.

Lemma restoreMarkers_markerFree : forall s, markerFree (restoreMarkers s) = true.
Proof.
  intros s. unfold restoreMarkers, replace_all. rewrite !replace_all_chr.
  unfold markerFree. induction s as [|c s IH]; [reflexivity|].
  cbn [flat_map]. rewrite flat_map_app, forallb_app, IH, andb_true_r.
  unfold cu_eqb, ASTERISK, UNDERSCORE.
  destruct (N.eqb_spec 1 c) as [<-|H1]; [reflexivity|].
  cbn [flat_map app]. destruct (N.eqb_spec 2 c) as [<-|H2]; [reflexivity|].
  cbn [forallb app]. destruct (N.eqb_spec c 1); [congruence|].
  destruct (N.eqb_spec c 2); [congruence|]. reflexivity.
Qed.

Ltac keeps_markerFree_tac :=
  let pre := fresh "pre" in let rest := fresh "rest" in let pre' := fresh "pre'" in
  let rest' := fresh "rest'" in let cs := fresh "cs" in let E := fresh "E" in
  let H := fresh "H" in let m := fresh "m" in let Hms := fresh "Hms" in
  intros pre rest pre' rest' cs E H;
  destruct (exec_sound _ _ _ _ _ _ E) as (m & -> & -> & Hms); clear E;
  unfold_inline_patterns; cbn in Hms; inv_ms;
  unfold syn, tagged; unfold span, q, dq; cbn;
  repeat (rewrite ?forallb_app in *; cbn [forallb app] in * );
  repeat match goal with
  | H : _ && _ = true |- _ => apply andb_prop in H; destruct H
  end;
  repeat match goal with
  | H : forallb _ ?x = true |- context [forallb _ ?x] => rewrite H
  end; reflexivity.

Lemma styleCode_markerFree : forall s, markerFree s = true -> markerFree (styleCode s) = true.
Proof.
  intros s H. unfold styleCode, replace_all, markerFree in *.
  apply replace_all_forallb; [keeps_markerFree_tac|exact H].
Qed.

Lemma styleMath_markerFree : forall s, markerFree s = true -> markerFree (styleMath s) = true.
Proof.
  intros s H. unfold styleMath, replace_all, markerFree in *.
  apply replace_all_forallb; [keeps_markerFree_tac|exact H].
Qed.

Lemma styleStrike_markerFree : forall s, markerFree s = true -> markerFree (styleStrike s) = true.
Proof.
  intros s H. unfold styleStrike, replace_all, markerFree in *.
  apply replace_all_forallb; [keeps_markerFree_tac|exact H].
Qed.

Lemma tagSafe_inside : forall body,
  forallb tagSafe body = true -> forallb (notCh ">") body = true.
Proof.
  intros body H. rewrite forallb_forall in *. intros c Hc.
  change (notCh ">" c) with (negb (isCh ">" c)).
  now rewrite (tagSafe_not_close c (H c Hc)).
Qed.

Lemma exec_tag : forall body s pre,
  forallb tagSafe body = true ->
  exec tagRe pre (ch "<" :: body ++ ch ">" :: s)
  = Some (rev (ch "<" :: body ++ [ch ">"]) ++ pre, s, []).
Proof.
  intros body s pre H. unfold exec, tagRe, star. cbn -[rep].
  apply rep_greedy_all.
  - now apply tagSafe_inside.
  - reflexivity.
  - lia.
  - cbn. rewrite rev_app_distr. cbn. rewrite <- !app_assoc. reflexivity.
Qed.

Lemma markerFree_readMarker : forall c s,
  markerFree (c :: s) = true -> readMarker c = c /\ markerFree s = true.
Proof.
  intros c s H. unfold markerFree in H. cbn [forallb] in H. apply andb_prop in H.
  destruct H as [Hc Hs]. split; [|exact Hs]. unfold readMarker.
  destruct (cu_eqb c ASTERISK); [discriminate Hc|].
  destruct (cu_eqb c UNDERSCORE); [discriminate Hc|]. reflexivity.
Qed.

Lemma markerFree_app : forall a b,
  markerFree (a ++ b) = true -> markerFree a = true /\ markerFree b = true.
Proof. intros a b H. unfold markerFree in *. rewrite forallb_app in H. now apply andb_prop. Qed.

(** On markup without placeholders and markers, removing the tags
    leaves the visible text. *)
Lemma strip_visible : forall s,
  styled 0 s -> markerFree s = true ->
  forall pre, replace_all_from tagRe (fun _ => []) pre s 0 = visible s.
Proof.
  intros s H. induction H as [|c s H0 H1 H2 Hs IH|body s Hbody Hs IH|i s Hi Hs IH];
    intros Hm pre.
  - reflexivity.
  - destruct (markerFree_readMarker c s Hm) as [Hr Hm'].
    unfold visible. cbn [visibleFrom]. rewrite H1, Hr. cbn [replace_all_from].
    assert (E : exec tagRe pre (c :: s) = None).
    { unfold exec, tagRe. cbn -[rep isCh]. now rewrite H1. }
    rewrite E. f_equal. now apply IH.
  - etransitivity; [|symmetry; exact (visible_tag body s Hbody)].
    rewrite (replace_all_from_match _ _ _ _ _ _ _ (exec_tag body s pre Hbody)).
    + cbn [app]. apply IH.
      change (ch "<" :: body ++ ch ">" :: s) with ([ch "<"] ++ body ++ ch ">" :: s) in Hm.
      apply markerFree_app in Hm. destruct Hm as [_ Hm].
      apply markerFree_app in Hm. destruct Hm as [_ Hm].
      now apply (markerFree_readMarker (ch ">") s).
    + cbn [length]. rewrite length_app. cbn [length]. lia.
  - lia.
Qed.

Lemma replace_all_with_from_match :
  forall (St : Type) r (f : St -> captures -> option (str * St)) st pre rest pre' rest' cs,
  exec r pre rest = Some (pre', rest', cs) ->
  length rest' < length rest ->
  replace_all_with_from r f st pre rest 0
  = match f st cs with
    | None => None
    | Some (out, st') =>
        match replace_all_with_from r f st' pre' rest' 0 with
        | Some (o, st'') => Some (out ++ o, st'')
        | None => None
        end
    end.
Proof.
  intros St r f st pre rest pre' rest' cs E Hlen.
  destruct (exec_sound _ _ _ _ _ _ E) as (m & Hm & -> & _).
  destruct m as [|c m]; simpl in Hm; subst rest; [lia|].
  cbn [replace_all_with_from app]. rewrite E.
  destruct (f st cs) as [[out st']|]; [|reflexivity].
  rewrite !length_app, length_rev. cbn [length].
  replace (S (length m) + length pre - length pre) with (S (length m)) by lia.
  cbv iota. rewrite replace_all_with_from_skip. cbn [rev]. rewrite <- app_assoc.
  reflexivity.
Qed.

Lemma replace_all_with_from_through :
  forall (St : Type) r (f : St -> captures -> option (str * St)) (p : cu -> bool),
  (forall pre c rest, p c = true -> exec r pre (c :: rest) = None) ->
  forall a s pre st,
    forallb p a = true ->
    replace_all_with_from r f st pre (a ++ s) 0
    = match replace_all_with_from r f st (rev a ++ pre) s 0 with
      | Some (o, st') => Some (a ++ o, st')
      | None => None
      end.
Proof.
  intros St r f p H1. induction a as [|c a IH]; intros s pre st Ha.
  - cbn [app rev]. now destruct (replace_all_with_from r f st pre s 0) as [[o st']|].
  - cbn [forallb] in Ha. apply andb_prop in Ha. destruct Ha as [Hc Ha].
    cbn [app replace_all_with_from]. rewrite (H1 pre c (a ++ s) Hc), (IH s (c :: pre) st Ha).
    cbn [rev]. rewrite <- app_assoc. cbn [app].
    now destruct (replace_all_with_from r f st (rev a ++ c :: pre) s 0) as [[o st']|].
Qed.

Lemma expands_more : forall chars ext s t,
  expands chars s t -> expands (chars ++ ext) s t.
Proof.
  intros chars ext s t H. induction H as [|c s t Hc H IH|i c s t Hi H IH].
  - apply expands_nil.
  - now apply expands_char.
  - apply expands_holder; [|exact IH]. rewrite nth_error_app1; [exact Hi|].
    apply nth_error_Some. congruence.
Qed.

Lemma reservedFree_cons : forall c s,
  reservedFree (c :: s) = true ->
  c <> 0%N /\ negb (cu_eqb c ASTERISK || cu_eqb c UNDERSCORE) = true /\ reservedFree s = true.
Proof.
  intros c s H. unfold reservedFree in H. cbn [forallb] in H. apply andb_prop in H.
  destruct H as [Hc Hs]. repeat split; [| |exact Hs].
  - intros ->. discriminate Hc.
  - destruct (cu_eqb c 0); [discriminate Hc|exact Hc].
Qed.

(** The first replacement leaves text in which placeholder [i] stands
    for a backslash and the [i]-th collected character. *)
Lemma extract_expands : forall k rest pre st,
  length rest <= k -> reservedFree rest = true ->
  exists out ext,
    replace_all_with_from escapeRe extractEscape st pre rest 0 = Some (out, st ++ ext)
    /\ forallb isEscapedChar ext = true
    /\ expands (st ++ ext) out rest.
Proof.
  assert (Hnil : forall pre st,
            exists out ext,
              replace_all_with_from escapeRe extractEscape st pre [] 0 = Some (out, st ++ ext)
              /\ forallb isEscapedChar ext = true /\ expands (st ++ ext) out []).
  { intros pre st. exists [], []. rewrite app_nil_r. repeat split. apply expands_nil. }
  induction k as [|k IH]; intros rest pre st Hk Hr.
  - destruct rest; [apply Hnil|simpl in Hk; lia].
  - destruct rest as [|x rest]; [apply Hnil|].
    destruct (exec escapeRe pre (x :: rest)) as [[[pre' rest'] cs]|] eqn:E.
    + destruct (exec_sound _ _ _ _ _ _ E) as (m & Em & Epre & Hms).
      unfold escapeRe in Hms. inv_ms. cbn [app] in Em. injection Em as -> ->.
      rewrite (replace_all_with_from_match _ _ _ _ _ _ _ _ _ E)
        by (cbn [length]; lia).
      rewrite extractEscape_eq.
      destruct (reservedFree_cons _ _ Hr) as (_ & _ & Hr1).
      destruct (reservedFree_cons _ _ Hr1) as (_ & _ & Hr2).
      match goal with
      | Hc : isEscapable ?c = true |- context [replace_all_with_from _ _ ?st1 ?p rest' 0] =>
          destruct (IH rest' p st1 ltac:(cbn [length] in Hk; lia) Hr2)
            as (o & ext & -> & Hext & Hexp);
          change (cap [(1, [c])] 1) with [c] in *;
          exists (placeholder (length st) ++ o), ([c] :: ext);
          rewrite <- app_assoc in *; cbn [app] in *;
          split; [reflexivity|]; split; [cbn [forallb isEscapedChar]; now rewrite Hc|];
          apply expands_holder; [|exact Hexp];
          rewrite nth_error_app2 by lia; now rewrite Nat.sub_diag
      end.
    + cbn [replace_all_with_from]. rewrite E.
      destruct (reservedFree_cons _ _ Hr) as (Hx & _ & Hr1).
      destruct (IH rest (x :: pre) st ltac:(cbn [length] in Hk; lia) Hr1)
        as (o & ext & -> & Hext & Hexp).
      exists (x :: o), ext. repeat split; [exact Hext|]. now apply expands_char.
Qed.

Lemma isText_inv : forall c,
  isText c = true ->
  c <> 0%N /\ readMarker c = c /\ isCh "<" c = false /\ isCh ">" c = false.
Proof.
  intros c H. unfold isText in H. unfold readMarker.
  destruct (cu_eqb c 0) eqn:E0; [discriminate H|].
  destruct (cu_eqb c ASTERISK); [discriminate H|].
  destruct (cu_eqb c UNDERSCORE); [discriminate H|].
  destruct (isCh "<" c); [discriminate H|].
  destruct (isCh ">" c); [discriminate H|].
  repeat split. intros ->. discriminate E0.
Qed.

(** A run of text in front of markup. *)
Lemma text_prefix : forall n chars e s t,
  forallb isText e = true ->
  (styled n s -> styled n (e ++ s))
  /\ visible (e ++ s) = e ++ visible s
  /\ (expands chars s t -> expands chars (e ++ s) (e ++ t)).
Proof.
  intros n chars. induction e as [|c e IH]; intros s t H; [now repeat split|].
  cbn [forallb] in H. apply andb_prop in H. destruct H as [Hc He].
  destruct (isText_inv c Hc) as (H0 & Hr & Hl & Hg).
  destruct (IH s t He) as (IH1 & IH2 & IH3). cbn [app]. repeat split.
  - intros Hs. apply styled_char; auto.
  - unfold visible in *. cbn [visibleFrom]. rewrite Hl, Hr. f_equal. exact IH2.
  - intros Hs. apply expands_char; auto.
Qed.

Lemma escaped_char_text : forall c,
  c <> 0%N -> negb (cu_eqb c ASTERISK || cu_eqb c UNDERSCORE) = true ->
  forallb isText (escapeHtml [c]) = true.
Proof.
  intros c H0 Hm. rewrite escapeHtml_char.
  destruct (isCh "&" c); [reflexivity|].
  destruct (isCh "<" c) eqn:El; [reflexivity|].
  destruct (isCh ">" c) eqn:Eg; [reflexivity|].
  destruct (cu_eqb c 34); [reflexivity|].
  destruct (isCh "'" c); [reflexivity|].
  cbn [forallb]. unfold isText. rewrite El, Eg.
  destruct (cu_eqb c 0) eqn:E0; [apply N.eqb_eq in E0; contradiction|].
  cbn [orb]. rewrite !orb_false_r. rewrite Hm. reflexivity.
Qed.

Lemma replace_char_placeholder : forall c by_ i,
  phChar c = false -> replace_char c by_ (placeholder i) = placeholder i.
Proof.
  intros c by_ i Hc. apply replace_char_unchanged.
  pose proof (placeholder_phChar i) as Hp. rewrite forallb_forall in *.
  intros x Hx. specialize (Hp x Hx). unfold cu_eqb.
  destruct (N.eqb_spec x c) as [->|]; [congruence|reflexivity].
Qed.

Lemma escapeHtml_placeholder : forall i, escapeHtml (placeholder i) = placeholder i.
Proof.
  intros i. unfold escapeHtml. now rewrite !replace_char_placeholder by reflexivity.
Qed.

Lemma escapable_unescaped : forall c,
  isEscapable c = true -> escapeHtml [c] = [c] /\ isText c = true.
Proof.
  intros c H. rewrite escapeHtml_char. unfold isText, isCh, cu_eqb, ASTERISK, UNDERSCORE.
  destruct (N.eqb_spec c (ch "&")) as [->|]; [discriminate H|].
  destruct (N.eqb_spec c (ch "<")) as [->|]; [discriminate H|].
  destruct (N.eqb_spec c (ch ">")) as [->|]; [discriminate H|].
  destruct (N.eqb_spec c 34) as [->|]; [discriminate H|].
  destruct (N.eqb_spec c (ch "'")) as [->|]; [discriminate H|].
  destruct (N.eqb_spec c 0) as [->|]; [discriminate H|].
  destruct (N.eqb_spec c 1) as [->|]; [discriminate H|].
  destruct (N.eqb_spec c 2) as [->|]; [discriminate H|].
  now split.
Qed.

Lemma collected_char : forall chars i c,
  forallb isEscapedChar chars = true -> nth_error chars i = Some [c] ->
  isEscapable c = true /\ i < length chars.
Proof.
  intros chars i c H Hi. split.
  - rewrite forallb_forall in H. exact (H [c] (nth_error_In _ _ Hi)).
  - apply nth_error_Some. congruence.
Qed.

(** [escapeHtml] keeps the placeholders and what they stand for. *)
Lemma escape_expands : forall chars s t,
  forallb isEscapedChar chars = true ->
  expands chars s t -> reservedFree t = true ->
  styled (length chars) (escapeHtml s)
  /\ visible (escapeHtml s) = escapeHtml s
  /\ expands chars (escapeHtml s) (escapeHtml t).
Proof.
  intros chars s t Hchars H. induction H as [|c s t Hc H IH|i c s t Hi H IH]; intros Hr.
  - repeat split; [apply styled_nil|apply expands_nil].
  - destruct (reservedFree_cons _ _ Hr) as (_ & Hm & Hr').
    destruct (IH Hr') as (IH1 & IH2 & IH3).
    rewrite (escapeHtml_cons c s), (escapeHtml_cons c t).
    destruct (text_prefix (length chars) chars (escapeHtml [c]) (escapeHtml s) (escapeHtml t)
                (escaped_char_text c Hc Hm)) as (T1 & T2 & T3).
    repeat split; [now apply T1| |now apply T3]. rewrite T2. f_equal. exact IH2.
  - destruct (reservedFree_cons _ _ Hr) as (_ & _ & Hr1).
    destruct (reservedFree_cons _ _ Hr1) as (_ & _ & Hr2).
    destruct (IH Hr2) as (IH1 & IH2 & IH3).
    destruct (collected_char chars i c Hchars Hi) as [Hesc Hlt].
    destruct (escapable_unescaped c Hesc) as [Ec _].
    rewrite escapeHtml_app, escapeHtml_placeholder.
    rewrite (escapeHtml_cons (ch "\") (c :: t)), (escapeHtml_cons c t), Ec.
    change (escapeHtml [ch "\"]) with [ch "\"]. cbn [app].
    repeat split.
    + now apply styled_holder.
    + rewrite visible_holder. f_equal. exact IH2.
    + now apply expands_holder.
Qed.

Lemma digits_before_nul : forall a b x y,
  forallb isDigit a = true -> forallb isDigit b = true ->
  a ++ 0%N :: x = b ++ 0%N :: y -> a = b /\ x = y.
Proof.
  induction a as [|c a IH]; intros [|d b] x y Ha Hb E; cbn [app forallb] in *.
  - injection E as ->. now split.
  - injection E as <- _. discriminate Hb.
  - injection E as -> _. discriminate Ha.
  - injection E as -> E. apply andb_prop in Ha, Hb.
    destruct (IH b x y (proj2 Ha) (proj2 Hb) E) as [-> ->]. now split.
Qed.

Lemma placeholder_inj : forall i j v w,
  placeholder i ++ v = placeholder j ++ w -> i = j /\ v = w.
Proof.
  intros i j v w E. unfold placeholder, ESCAPE_PLACEHOLDER in E.
  cbn -[decimal] in E. rewrite <- !app_assoc in E. cbn -[decimal] in E.
  injection E as E.
  apply digits_before_nul in E; [|apply decimal_digits|apply decimal_digits].
  destruct E as [Ed E]. injection E as ->. split; [|reflexivity].
  apply (f_equal parseInt) in Ed. rewrite !parseInt_decimal in Ed.
  now apply Nat2N.inj.
Qed.

Lemma expands_nil_inv : forall chars t, expands chars [] t -> t = [].
Proof.
  intros chars t H. remember [] as s eqn:Es. destruct H as [|c s t Hc H|i c s t Hi H].
  - reflexivity.
  - discriminate Es.
  - destruct (placeholder_head i) as [x Ex]. rewrite Ex in Es. discriminate Es.
Qed.

Lemma expands_cons_inv : forall chars (c : cu) v t,
  c <> 0%N -> expands chars (c :: v) t ->
  exists t', t = c :: t' /\ expands chars v t'.
Proof.
  intros chars c v t Hc H. remember (c :: v) as s eqn:Es.
  destruct H as [|c' s t Hc' H|i c' s t Hi H].
  - discriminate Es.
  - injection Es as -> ->. now exists t.
  - destruct (placeholder_head i) as [x Ex]. rewrite Ex in Es. injection Es as <- _.
    now contradiction Hc.
Qed.

Lemma expands_holder_inv : forall chars i v t,
  expands chars (placeholder i ++ v) t ->
  exists c t', nth_error chars i = Some [c] /\ t = ch "\" :: c :: t' /\ expands chars v t'.
Proof.
  intros chars i v t H. remember (placeholder i ++ v) as s eqn:Es.
  destruct H as [|c' s t Hc' H|j c' s t Hj H].
  - destruct (placeholder_head i) as [x Ex]. rewrite Ex in Es. discriminate Es.
  - destruct (placeholder_head i) as [x Ex]. rewrite Ex in Es. injection Es as -> _.
    now contradiction Hc'.
  - symmetry in Es. apply placeholder_inj in Es. destruct Es as [-> ->].
    now exists c', t.
Qed.

Lemma restore_starts_at_nul : forall pre c rest,
  negb (cu_eqb c 0) = true -> exec restoreRe pre (c :: rest) = None.
Proof.
  intros pre c rest H. unfold exec, restoreRe, ESCAPE_PLACEHOLDER. cbn -[cu_eqb rep].
  unfold cu_eqb in *. rewrite N.eqb_sym. now destruct (N.eqb c 0).
Qed.

Lemma tag_nulFree : forall body,
  forallb tagSafe body = true ->
  forallb (fun c => negb (cu_eqb c 0)) (ch "<" :: body ++ [ch ">"]) = true.
Proof.
  intros body H. cbn [forallb]. change (negb (cu_eqb (ch "<") 0)) with true. cbn [andb].
  rewrite forallb_app. cbn [forallb]. change (negb (cu_eqb (ch ">") 0)) with true.
  rewrite !andb_true_r. rewrite forallb_forall in *. intros c Hc.
  specialize (H c Hc). unfold tagSafe in H. destruct (cu_eqb c 0); [|reflexivity].
  now rewrite andb_false_r in H.
Qed.

(** The span written for an escaped character shows the backslash and
    the character. *)
Lemma escaped_span : forall c o,
  isEscapable c = true -> styled 0 o -> markerFree o = true ->
  let out := span "md-escaped" (syn (js "\") ++ escapeHtml [c]) ++ o in
  styled 0 out /\ markerFree out = true /\ visible out = ch "\" :: c :: visible o.
Proof.
  intros c o Hc Ho Hm out. subst out.
  destruct (escapable_unescaped c Hc) as [-> Ht].
  destruct (isText_inv c Ht) as (H0 & Hr & Hl & Hg).
  unfold syn; unfold span, q, dq. cbn. repeat rewrite <- app_assoc. cbn.
  repeat split.
  - do 2 (match goal with
          | |- styled ?n (60%N :: ?l) =>
              split_tag l ltac:(fun b x =>
                change (styled n (ch "<" :: b ++ ch ">" :: x));
                apply styled_tag; [reflexivity|])
          end).
    apply styled_char; [discriminate|reflexivity|reflexivity|].
    match goal with
    | |- styled ?n (60%N :: ?l) =>
        split_tag l ltac:(fun b x =>
          change (styled n (ch "<" :: b ++ ch ">" :: x));
          apply styled_tag; [reflexivity|])
    end.
    apply styled_char; [exact H0|exact Hl|exact Hg|].
    match goal with
    | |- styled ?n (60%N :: ?l) =>
        split_tag l ltac:(fun b x =>
          change (styled n (ch "<" :: b ++ ch ">" :: x));
          apply styled_tag; [reflexivity|])
    end.
    exact Ho.
  - unfold markerFree in *. cbn [forallb]. cbn -[forallb].
    unfold isText in Ht. destruct (cu_eqb c 0); [discriminate Ht|]. cbn [orb] in Ht.
    destruct (cu_eqb c ASTERISK || cu_eqb c UNDERSCORE); [discriminate Ht|].
    cbn. exact Hm.
  - unfold visible. cbn -[readMarker]. rewrite Hl, Hr. cbn. reflexivity.
Qed.

(** The last replacement puts the collected characters back: what it
    returns shows the text the placeholders stood for. *)
Lemma restore_visible : forall chars,
  forallb isEscapedChar chars = true ->
  forall s, styled (length chars) s -> markerFree s = true ->
  forall pre t, expands chars (visible s) t ->
  exists out,
    replace_all_with_from restoreRe (restoreEscape chars) tt pre s 0 = Some (out, tt)
    /\ styled 0 out /\ markerFree out = true /\ visible out = t.
Proof.
  intros chars Hchars s H.
  induction H as [|c s H0 H1 H2 Hs IH|body s Hbody Hs IH|i s Hi Hs IH]; intros Hm pre t Hexp.
  - apply expands_nil_inv in Hexp. subst t. exists []. repeat split. apply styled_nil.
  - destruct (markerFree_readMarker c s Hm) as [Hr Hm'].
    unfold visible in Hexp. cbn [visibleFrom] in Hexp. rewrite H1, Hr in Hexp.
    apply expands_cons_inv in Hexp; [|exact H0]. destruct Hexp as (t' & -> & Hexp).
    cbn [replace_all_with_from]. rewrite restore_starts_at_nul
      by (unfold cu_eqb; destruct (N.eqb_spec c 0); [contradiction|reflexivity]).
    match goal with
    | |- context [replace_all_with_from _ _ _ ?p s 0] =>
        destruct (IH Hm' p t' Hexp) as (o & -> & Ho & Hmo & Hv)
    end.
    exists (c :: o). repeat split.
    + now apply styled_char.
    + unfold markerFree in *. cbn [forallb]. rewrite Hmo, andb_true_r.
      cbn [forallb] in Hm. now apply andb_prop in Hm.
    + unfold visible in *. cbn [visibleFrom]. rewrite H1, Hr. now f_equal.
  - assert (Hv : visible (ch "<" :: body ++ ch ">" :: s) = visible s)
      by exact (visible_tag body s Hbody).
    rewrite Hv in Hexp.
    assert (Hm' : markerFree (ch "<" :: body ++ [ch ">"]) = true /\ markerFree s = true).
    { apply markerFree_app. cbn [app]. rewrite <- app_assoc. exact Hm. }
    destruct Hm' as [Hmu Hms].
    replace (ch "<" :: body ++ ch ">" :: s) with ((ch "<" :: body ++ [ch ">"]) ++ s)
      by (cbn [app]; now rewrite <- app_assoc).
    rewrite (replace_all_with_from_through _ _ _ _ restore_starts_at_nul _ _ _ _
               (tag_nulFree body Hbody)).
    match goal with
    | |- context [replace_all_with_from _ _ _ ?p s 0] =>
        destruct (IH Hms p t Hexp) as (o & -> & Ho & Hmo & Hvo)
    end.
    exists ((ch "<" :: body ++ [ch ">"]) ++ o). repeat split.
    + cbn [app]. rewrite <- app_assoc. cbn [app]. now apply styled_tag.
    + unfold markerFree in *. rewrite forallb_app, Hmo, andb_true_r. exact Hmu.
    + cbn [app]. rewrite <- app_assoc. cbn [app].
      etransitivity; [exact (visible_tag body o Hbody)|exact Hvo].
  - rewrite visible_holder in Hexp. apply expands_holder_inv in Hexp.
    destruct Hexp as (c & t' & Hn & -> & Hexp).
    destruct (collected_char chars i c Hchars Hn) as [Hesc _].
    apply markerFree_app in Hm. destruct Hm as [_ Hms].
    rewrite (replace_all_with_from_match _ _ _ _ _ _ _ _ _ (exec_restore_placeholder i s pre)).
    + unfold restoreEscape at 1. change (cap [(1, decimal i)] 1) with (decimal i).
      rewrite parseInt_decimal, Nat2N.id, Hn.
      match goal with
      | |- context [replace_all_with_from _ _ _ ?p s 0] =>
          destruct (IH Hms p t' Hexp) as (o & -> & Ho & Hmo & Hvo)
      end.
      eexists. split; [reflexivity|].
      destruct (escaped_span c o Hesc Ho Hmo) as (S1 & S2 & S3).
      repeat split; [exact S1|exact S2|]. rewrite S3, Hvo. reflexivity.
    + rewrite length_app. destruct (placeholder_head i) as [x Ex]. rewrite Ex.
      cbn [length]. lia.
Qed.

Lemma styleSpans_styled : forall n s,
  styled n (escapeHtml s) ->
  styled n (styleSpans s) /\ visible (styleSpans s) = visible (escapeHtml s)
  /\ markerFree (styleSpans s) = true.
Proof.
  intros n s H. unfold styleSpans, styleEmphasis.
  destruct (styleImages_styled n _ H) as [H1 E1].
  destruct (styleFootnoteRefs_styled n _ H1) as [H2 E2].
  destruct (styleLinks_styled n _ H2) as [H3 E3].
  destruct (styleBoldItalic_styled n _ H3) as [H4 E4].
  destruct (styleBold_styled n _ H4) as [H5 E5].
  destruct (styleBoldUnderscore_styled n _ H5) as [H6 E6].
  destruct (styleItalic_styled n _ H6) as [H7 E7].
  destruct (styleItalicUnderscore_styled n _ H7) as [H8 E8].
  destruct (restoreMarkers_styled n _ H8) as [H9 E9].
  destruct (styleCode_styled n _ H9) as [H10 E10].
  destruct (styleMath_styled n _ H10) as [H11 E11].
  destruct (styleStrike_styled n _ H11) as [H12 E12].
  repeat split.
  - exact H12.
  - rewrite E12, E11, E10, E9, E8, E7, E6, E5, E4, E3, E2, E1. reflexivity.
  - apply styleStrike_markerFree, styleMath_markerFree, styleCode_markerFree,
      restoreMarkers_markerFree.
Qed.

(** What [styleInline] returns shows the escaped text. *)
Lemma styleInline_visible : forall text,
  reservedFree text = true ->
  exists out,
    styleInline text = Some out
    /\ styled 0 out /\ markerFree out = true /\ visible out = escapeHtml text.
Proof.
  intros text Hr. unfold styleInline. destruct text as [|c text].
  { exists []. repeat split. apply styled_nil. }
  remember (c :: text) as line eqn:El. clear El c text.
  unfold replace_all_with.
  destruct (extract_expands (length line) line [] [] (le_n _) Hr)
    as (s1 & chars & -> & Hchars & Hexp).
  cbn [app bind] in *.
  destruct (escape_expands chars s1 line Hchars Hexp Hr) as (Hs & Hv & Hexp').
  destruct (styleSpans_styled _ _ Hs) as (Hs2 & Hv2 & Hm2).
  rewrite <- Hv, <- Hv2 in Hexp'.
  destruct (restore_visible chars Hchars _ Hs2 Hm2 [] _ Hexp') as (out & -> & Ho & Hmo & Hvo).
  now exists out.
Qed.

(** X20: [styleInline] only adds tags.  On text free of the three code
    units the styler reserves (U+0000, U+0001, U+0002), [styleInline]
    returns, and the markup it returns, with its tags removed, is the
    HTML-escaped text: no character of the line is lost, added or
    reordered, whatever spans are recognised in it. *)
Theorem styling_only_adds_tags : forall text,
  reservedFree text = true ->
  exists out, styleInline text = Some out /\ stripHtml out = escapeHtml text.
Proof.
  intros text Hr. destruct (styleInline_visible text Hr) as (out & E & Ho & Hmo & Hvo).
  exists out. split; [exact E|].
  unfold stripHtml, replace_all. rewrite (strip_visible out Ho Hmo). exact Hvo.
Qed.

Lemma styling_only_adds_tags_witness :
  reservedFree (js "a \* **b** <c> `d`") = true
  /\ exists out, styleInline (js "a \* **b** <c> `d`") = Some out
       /\ stripHtml out = escapeHtml (js "a \* **b** <c> `d`").
Proof. split; [reflexivity|apply styling_only_adds_tags; reflexivity]. Defined.

(** X21: [styleInline] tells lines apart: two texts free of the reserved
    code units that are styled into the same markup are the same text. *)
Theorem styleInline_injective : forall a b,
  reservedFree a = true -> reservedFree b = true ->
  styleInline a = styleInline b -> a = b.
Proof.
  intros a b Ha Hb H.
  destruct (styleInline_visible a Ha) as (oa & Ea & _ & _ & Va).
  destruct (styleInline_visible b Hb) as (ob & Eb & _ & _ & Vb).
  rewrite Ea, Eb in H. injection H as ->.
  rewrite <- (decode_escaped a), <- (decode_escaped b), <- Va, <- Vb. reflexivity.
Qed.

Lemma styleInline_injective_witness :
  reservedFree (js "*a* \_b") = true
  /\ styleInline (js "*a* \_b") = styleInline (js "*a* \_b")
  /\ js "*a* \_b" = js "*a* \_b".
Proof.
  split; [reflexivity|]. split; [reflexivity|].
  apply styleInline_injective; reflexivity.
Defined.

(** ** The stripping step and the classifier *)

Lemma test_exec_sound : forall r l,
  test (Seq Bol r) l = true ->
  exists m rest cs, l = m ++ rest /\ ms (Seq Bol r) [] m rest [] cs.
Proof.
  intros r l H. rewrite test_anchored in H.
  destruct (exec (Seq Bol r) [] l) as [[[pre' rest] cs]|] eqn:E; [|discriminate H].
  destruct (exec_sound _ _ _ _ _ _ E) as (m & Hm & _ & Hms). now exists m, rest, cs.
Qed.

Lemma all_hashes : forall a, forallb (isCh "#") a = true -> a = hashes (length a).
Proof.
  induction a as [|c a IH]; intros H; [reflexivity|].
  cbn [forallb] in H. apply andb_prop in H. destruct H as [Hc Ha].
  apply isCh_true in Hc. subst c. cbn [length hashes repeat]. f_equal. now apply IH.
Qed.

(** A line that the heading replacement applies to is a heading for
    the classifier. *)
Lemma strip_heading_is_heading : forall l,
  test stripHeadingRe l = true ->
  exists n, 1 <= n <= 6 /\ type (getLineType l) = headingOfLevel n.
Proof.
  intros l H. unfold stripHeadingRe in H. cbn [seqs] in H.
  destruct (test_exec_sound _ _ H) as (m & rest & cs & -> & Hms).
  unfold between in Hms. inv_ms.
  lazymatch goal with
  | Ha : forallb (isCh "#") ?a = true, Hh : forall h : nat, Some 6 = Some h -> _ |- _ =>
      exists (length a); specialize (Hh 6 eq_refl); split; [lia|];
      cbn [app]; rewrite <- !app_assoc; cbn [app];
      set (n := length a); rewrite (all_hashes a Ha); fold n;
      apply heading_line_type; [subst n; lia|assumption]
  end.
Qed.

(** Each replacement that asks for more than the pattern of the
    classifier applies only where that pattern matches. *)
Lemma strip_task_is_task : forall l,
  test stripTaskRe l = true -> test taskPrefixRe l = true.
Proof.
  intros l H. unfold stripTaskRe in H. cbn [seqs] in H.
  destruct (test_exec_sound _ _ H) as (m & rest & cs & -> & Hms). inv_ms.
  unfold taskPrefixRe. cbn [seqs]. rewrite test_anchored. unfold exec. cbn [app mt].
  repeat match goal with Hp : _ = true |- _ => rewrite Hp; clear Hp end.
  change (isCh "[" (ch "[")) with true. change (isCh "]" (ch "]")) with true. reflexivity.
Qed.

Lemma strip_quote_is_quote : forall l,
  test quotePrefixRe l = true -> test quoteStartRe l = true.
Proof.
  intros l H. unfold quotePrefixRe in H. cbn [seqs] in H.
  destruct (test_exec_sound _ _ H) as (m & rest & cs & -> & Hms).
  unfold plus, opt in Hms. inv_ms.
  match goal with
  | Ha : forallb (isCh ">") ?a = true, Hlen : 1 <= length ?a |- _ =>
      destruct a as [|c a]; [cbn [length] in Hlen; lia|];
      cbn [forallb] in Ha; apply andb_prop in Ha; destruct Ha as [Hc _]
  end.
  unfold quoteStartRe. cbn [seqs]. rewrite test_anchored. unfold exec. cbn [app mt].
  now rewrite Hc.
Qed.

Lemma strip_fence_is_fence : forall l,
  test stripFenceRe l = true -> test fenceStartRe l = true.
Proof.
  intros l H. unfold stripFenceRe in H. cbn [seqs] in H.
  destruct (test_exec_sound _ _ H) as (m & rest & cs & -> & Hms).
  unfold star in Hms. cbn [lit js] in Hms. inv_ms.
  unfold fenceStartRe. cbn [seqs]. rewrite test_anchored. reflexivity.
Qed.

Lemma starts_with_quote : forall r l,
  test (Seq Bol (Seq (Chr (isCh ">")) r)) l = true \/ test quoteStartRe l = true ->
  exists s, l = ch ">" :: s.
Proof.
  intros r l [H|H].
  - destruct (test_exec_sound _ _ H) as (m & rest & cs & -> & Hms). inv_ms.
    eexists. reflexivity.
  - unfold quoteStartRe in H. cbn [seqs] in H.
    destruct (test_exec_sound _ _ H) as (m & rest & cs & -> & Hms). inv_ms.
    eexists. reflexivity.
Qed.

Lemma heading_is_stripped : forall n l,
  1 <= n <= 6 -> test (headingPrefixRe n) l = true ->
  test stripHeadingRe l = true /\ test hrLineRe l = false.
Proof.
  intros n l Hn H. unfold headingPrefixRe in H. cbn [seqs] in H.
  destruct (test_exec_sound _ _ H) as (m & rest & cs & -> & Hms).
  unfold between in Hms. inv_ms.
  lazymatch goal with
  | Ha : forallb (isCh "#") ?a = true, Hlo : n <= length ?a,
    Hh : forall h : nat, Some n = Some h -> _, Hs : isSpace ?c = true |- _ =>
      specialize (Hh n eq_refl); rewrite (all_hashes a Ha);
      replace (length a) with n by lia; clear Ha Hlo Hh H;
      pose proof (isSpace_not_hash c Hs) as Hc
  end.
  unfold stripHeadingRe, hrLineRe. cbn [seqs alts]. rewrite !test_anchored.
  unfold exec, between, at_least, star.
  destruct n as [|[|[|[|[|[|[|n]]]]]]]; try lia.
  all: cbn -[isSpace isCh]; change (isCh "#" 35%N) with true; cbn -[isSpace isCh];
    rewrite ?Hc, ?H1; cbn -[isSpace isCh]; rewrite ?Hc, ?H1; split; reflexivity.
Qed.

Lemma fence_is_stripped : forall l,
  test fenceStartRe l = true -> test stripFenceRe l = true.
Proof.
  intros l H. unfold fenceStartRe in H. cbn [seqs] in H.
  destruct (test_exec_sound _ _ H) as (m & rest & cs & -> & Hms).
  cbn [lit js] in Hms. inv_ms.
  unfold stripFenceRe. cbn [seqs]. rewrite test_anchored. unfold exec, star.
  cbn [app mt lit js]. cbn -[rep].
  match goal with
  | |- match match ?r with _ => _ end with _ => _ end = true =>
      destruct r as [[[? ?] ?]|] eqn:E; [reflexivity|]
  | |- match ?r with _ => _ end = true =>
      destruct r as [[[? ?] ?]|] eqn:E; [reflexivity|]
  end.
  exfalso. revert E. apply rep_succeeds. intros pre' rest'. apply rep_succeeds. discriminate.
Qed.

Lemma fold_remove_unmatched : forall pats s,
  forallb (fun r => negb (test r s)) pats = true ->
  fold_left (fun s r => remove r s) pats s = s.
Proof.
  induction pats as [|r pats IH]; intros s H; [reflexivity|].
  cbn [forallb] in H. apply andb_prop in H. destruct H as [Hr H].
  cbn [fold_left]. rewrite remove_unmatched by (now destruct (test r s)). now apply IH.
Qed.

(** A run of replacements of which one applies: those before it leave
    the text alone, and so do those after it on what it leaves. *)
Lemma fold_remove_one : forall pats k r s,
  nth_error pats k = Some r ->
  (forall j r', j < k -> nth_error pats j = Some r' -> test r' s = false) ->
  forallb (fun r' => negb (test r' (remove r s))) (skipn (S k) pats) = true ->
  fold_left (fun s r => remove r s) pats s = remove r s.
Proof.
  induction pats as [|r0 pats IH]; intros k r s Hk Hbefore Hafter.
  - now destruct k.
  - destruct k as [|k]; cbn [nth_error] in Hk.
    + injection Hk as ->. cbn [fold_left]. now apply fold_remove_unmatched.
    + cbn [fold_left]. rewrite (remove_unmatched r0 s (Hbefore 0 r0 (Nat.lt_0_succ k) eq_refl)).
      apply (IH k r s Hk); [|exact Hafter].
      intros j r' Hj Hr'. apply (Hbefore (S j) r'); [lia|exact Hr'].
Qed.

Ltac not_heading HH l :=
  let TS := fresh "TS" in let n := fresh "n" in let Hn := fresh "Hn" in let E := fresh "E" in
  destruct (test stripHeadingRe l) eqn:TS; [|reflexivity];
  exfalso; destruct (HH eq_refl) as (n & Hn & E);
  destruct n as [|[|[|[|[|[|[|n]]]]]]]; cbn in E; first [discriminate E|lia].

Ltac strip_fact HH :=
  lazymatch goal with
  | |- test hrLineRe ?l = false =>
      first [ assumption
            | match goal with
              | T : test (headingPrefixRe ?n) l = true |- _ =>
                  exact (proj2 (heading_is_stripped n l ltac:(lia) T))
              end ]
  | |- test stripHeadingRe ?l = false => not_heading HH l
  | |- test stripTaskRe ?l = false =>
      let TS := fresh "TS" in
      destruct (test stripTaskRe l) eqn:TS;
      [apply strip_task_is_task in TS; congruence|reflexivity]
  | |- test quotePrefixRe ?l = false =>
      let TS := fresh "TS" in
      destruct (test quotePrefixRe l) eqn:TS;
      [apply strip_quote_is_quote in TS; congruence|reflexivity]
  | |- test stripFenceRe ?l = false =>
      let TS := fresh "TS" in
      destruct (test stripFenceRe l) eqn:TS;
      [apply strip_fence_is_fence in TS; congruence|reflexivity]
  | |- test _ _ = false => assumption
  end.

Ltac earlier_steps HH :=
  let j := fresh "j" in let r' := fresh "r'" in let Hj := fresh "Hj" in
  let Hr := fresh "Hr" in
  intros j r' Hj Hr;
  destruct j as [|[|[|[|[|[|[|j]]]]]]]; try lia;
  cbn [nth_error stripPatterns] in Hr; injection Hr as <-; strip_fact HH.

(** The replacement that belongs to the type the classifier gives a
    line is the first of the seven that applies to the line. *)
Lemma strip_step_of_type : forall l,
  match stripStep (type (getLineType l)) with
  | None => forallb (fun r => negb (test r l)) stripPatterns = true
  | Some k =>
      (forall j r', j < k -> nth_error stripPatterns j = Some r' -> test r' l = false)
      /\ (type (getLineType l) <> task ->
          forall r, nth_error stripPatterns k = Some r -> test r l = true)
  end.
Proof.
  intros l. generalize (strip_heading_is_heading l).
  unfold getLineType, LINE_TYPES. cbn [firstMatching pattern].
  repeat match goal with
  | |- context [if test ?r l then _ else _] => destruct (test r l) eqn:?
  end;
  cbn [type stripStep DEFAULT_LINE_TYPE]; intros HH.
  14: { cbn [forallb stripPatterns].
        repeat match goal with
        | |- negb (test ?r l) && _ = true =>
            assert (E : test r l = false) by strip_fact HH; rewrite E; clear E; cbn [negb andb]
        end. reflexivity. }
  all: split; [earlier_steps HH|].
  all: intros Hne r Hr; try (exfalso; apply Hne; reflexivity).
  all: cbn [nth_error stripPatterns] in Hr; injection Hr as <-.
  all: try assumption.
  all: try match goal with
       | T : test (headingPrefixRe ?n) ?x = true |- _ =>
           exact (proj1 (heading_is_stripped n x ltac:(lia) T))
       end.
  - match goal with T : test alertPrefixRe l = true |- _ =>
      unfold alertPrefixRe in T; cbn [seqs] in T;
      destruct (starts_with_quote _ l (or_introl T)) as (s & ->)
    end.
    apply quotePrefix_matches.
  - match goal with T : test quoteStartRe l = true |- _ =>
      destruct (starts_with_quote Eps l (or_intror T)) as (s & ->)
    end.
    apply quotePrefix_matches.
  - now apply fence_is_stripped.
Qed.

Lemma task_type_matches : forall l,
  type (getLineType l) = task -> test taskPrefixRe l = true.
Proof.
  intros l. unfold getLineType, LINE_TYPES. cbn [firstMatching pattern].
  repeat match goal with
  | |- context [if test ?r l then _ else _] => destruct (test r l) eqn:?
  end;
  cbn [type DEFAULT_LINE_TYPE]; intros H; try discriminate H; reflexivity.
Qed.

(** The task replacement asks for white space behind the checkbox,
    which the task pattern of the classifier does not. *)
Lemma task_strip_test : forall l,
  test taskPrefixRe l = true ->
  test stripTaskRe l = match nth_error l 5 with Some c => isSpace c | None => false end.
Proof.
  intros l H. unfold taskPrefixRe in H. cbn [seqs] in H.
  destruct (test_exec_sound _ _ H) as (m & rest & cs & -> & Hms). inv_ms.
  unfold stripTaskRe. cbn [seqs]. rewrite test_anchored. unfold exec. cbn [app mt nth_error].
  repeat match goal with Hp : _ = true |- _ => rewrite Hp; clear Hp end.
  change (isCh "[" (ch "[")) with true. change (isCh "]" (ch "]")) with true.
  destruct rest as [|c rest]; [reflexivity|]. cbn [mt nth_error]. now destruct (isSpace c).
Qed.

Lemma stripLinePrefix_fold : forall l,
  stripLinePrefix l = fold_left (fun s r => remove r s) stripPatterns l.
Proof. reflexivity. Qed.



(** ** The key handlers on the editing surface *)

(** The saved position with its offset cut to the length of its line. *)
Lemma enterAt_clamped : forall markdown pos,
  enterAt markdown (Some pos)
  = enterAt markdown
      (Some {| lineIndex := lineIndex pos;
               offset := Nat.min (offset pos)
                           (length (nth (lineIndex pos) (split LF markdown) [])) |}).
Proof.
  intros markdown pos. unfold enterAt. cbv zeta. cbn [lineIndex offset].
  set (l := nth (lineIndex pos) (split LF markdown) []).
  destruct (Nat.le_ge_cases (offset pos) (length l)) as [H|H].
  - now rewrite Nat.min_l.
  - rewrite Nat.min_r by exact H.
    rewrite (firstn_all2 l H), (skipn_all2 l H), firstn_all, skipn_all. reflexivity.
Qed.

(** X1: [Enter] puts one line feed into the text read off the editor,
    on the line that [saveCursorPosition] reports and at the offset it
    reports, cut to the length of that line, and asks for the cursor
    at the start of the line that follows.  The offset is the one
    [saveCursorPosition] counts, from the start of the line element. *)
Theorem enter_inserts_line_feed : forall container selection pos,
  saveCursorPosition container selection = Some pos ->
  lineIndex pos < length (split LF (extractMarkdown container)) ->
  let markdown := extractMarkdown container in
  let at_ := {| lineIndex := lineIndex pos;
                offset := Nat.min (offset pos)
                            (length (nth (lineIndex pos) (split LF markdown) [])) |} in
  let k := flatIndex (split LF markdown) at_ in
  let next := {| lineIndex := lineIndex pos + 1; offset := 0 |} in
  exists markdown',
    onEnter container selection = KeyEdit markdown' (Some next)
    /\ markdown' = firstn k markdown ++ LF :: skipn k markdown
    /\ inText markdown' next
    /\ flatIndex (split LF markdown') next = k + 1.
Proof.
  intros container selection pos Hsave Hline markdown at_ k next.
  unfold onEnter. cbv zeta. rewrite Hsave. fold markdown.
  rewrite enterAt_clamped. fold at_.
  destruct (enterAt_inserts_line_feed markdown at_) as (md' & pos' & H1 & H2 & H3 & H4).
  { split; [exact Hline|]. cbn [at_ lineIndex offset]. apply Nat.le_min_r. }
  assert (Epos : pos' = next).
  { unfold enterAt in H1. cbv zeta in H1. now injection H1 as _ <-. }
  subst pos'. now exists md'.
Qed.

Lemma enter_inserts_line_feed_witness :
  exists container,
    surface (js "abcdef") = Some container
    /\ saveCursorPosition container (Some {| startContainer := [0; 1; 0]; startOffset := 1 |})
       = Some {| lineIndex := 0; offset := 3 |}
    /\ exists markdown',
         onEnter container (Some {| startContainer := [0; 1; 0]; startOffset := 1 |})
         = KeyEdit markdown' (Some {| lineIndex := 1; offset := 0 |})
         /\ markdown' = js "abc" ++ [LF] ++ js "def".
Proof.
  eexists. split; [vm_compute; reflexivity|]. split; [reflexivity|].
  match goal with
  | |- exists m, onEnter ?c ?sel = _ /\ _ =>
      destruct (enter_inserts_line_feed c sel {| lineIndex := 0; offset := 3 |})
        as (md' & H1 & H2 & _);
      [reflexivity|vm_compute; lia|exists md'; split; [exact H1|rewrite H2; reflexivity]]
  end.
Defined.

(** X2: when [saveCursorPosition] reports an offset at or past the end
    of a line that is not the last, [Delete] takes the line feed that
    ends the line out of the text read off the editor and asks for the
    cursor at the reported position; when it reports offset 0 on the
    line that follows, [Backspace] takes out the same line feed and
    asks for the cursor at the join. *)
Theorem delete_and_backspace_join_lines :
  forall container atEnd atStart pos,
  saveCursorPosition container atEnd = Some pos ->
  saveCursorPosition container atStart
    = Some {| lineIndex := lineIndex pos + 1; offset := 0 |} ->
  lineIndex pos + 1 < length (split LF (extractMarkdown container)) ->
  length (nth (lineIndex pos) (split LF (extractMarkdown container)) []) <= offset pos ->
  let markdown := extractMarkdown container in
  let lines := split LF markdown in
  let lineEnd := {| lineIndex := lineIndex pos;
                    offset := length (nth (lineIndex pos) lines []) |} in
  let k := flatIndex lines lineEnd in
  nth_error markdown k = Some LF
  /\ onDelete container atEnd
     = KeyEdit (firstn k markdown ++ skipn (k + 1) markdown) (Some pos)
  /\ onBackspace container atStart
     = KeyEdit (firstn k markdown ++ skipn (k + 1) markdown) (Some lineEnd).
Proof.
  intros container atEnd atStart pos H1 H2 Hline Hoff markdown lines lineEnd k.
  unfold onDelete, onBackspace. cbv zeta. rewrite H1, H2.
  exact (deleteAt_backspaceAt_join markdown pos Hline Hoff).
Qed.

Lemma delete_and_backspace_join_lines_witness :
  exists container,
    surface (js "ab" ++ [LF]) = Some container
    /\ saveCursorPosition container (Some {| startContainer := [0; 1; 0]; startOffset := 1 |})
       = Some {| lineIndex := 0; offset := 3 |}
    /\ saveCursorPosition container (Some {| startContainer := [1; 1]; startOffset := 0 |})
       = Some {| lineIndex := 1; offset := 0 |}
    /\ onDelete container (Some {| startContainer := [0; 1; 0]; startOffset := 1 |})
       = KeyEdit (js "ab") (Some {| lineIndex := 0; offset := 3 |})
    /\ onBackspace container (Some {| startContainer := [1; 1]; startOffset := 0 |})
       = KeyEdit (js "ab") (Some {| lineIndex := 0; offset := 2 |}).
Proof.
  eexists. split; [vm_compute; reflexivity|]. split; [reflexivity|]. split; [reflexivity|].
  match goal with
  | |- onDelete ?c ?d = _ /\ onBackspace ?c ?b = _ =>
      destruct (delete_and_backspace_join_lines c d b {| lineIndex := 0; offset := 3 |})
        as (_ & Hd & Hb);
      [reflexivity|reflexivity|vm_compute; lia|vm_compute; lia|]
  end.
  split; [rewrite Hd|rewrite Hb]; reflexivity.
Defined.

(** X4: pasting puts the clipboard text into the text read off the
    editor, on the line and at the offset that [saveCursorPosition]
    reports, whether the clipboard holds line feeds or not, and asks
    for the cursor at the end of what was pasted. *)
Theorem paste_inserts_text : forall container selection pos text,
  saveCursorPosition container selection = Some pos ->
  inText (extractMarkdown container) pos ->
  text <> [] ->
  let markdown := extractMarkdown container in
  let k := flatIndex (split LF markdown) pos in
  exists markdown' pos',
    onPaste container selection text = KeyEdit markdown' (Some pos')
    /\ markdown' = firstn k markdown ++ text ++ skipn k markdown
    /\ inText markdown' pos'
    /\ flatIndex (split LF markdown') pos' = k + length text.
Proof.
  intros container selection pos text Hsave Hin Htext markdown k.
  unfold onPaste. destruct text as [|c text]; [contradiction|].
  cbv zeta. rewrite Hsave.
  exact (pasteAt_inserts_text markdown pos (c :: text) Hin Htext).
Qed.

Lemma paste_inserts_text_witness :
  exists container,
    surface (js "abcdef") = Some container
    /\ saveCursorPosition container (Some {| startContainer := [0; 1; 0]; startOffset := 1 |})
       = Some {| lineIndex := 0; offset := 3 |}
    /\ exists pos',
         onPaste container (Some {| startContainer := [0; 1; 0]; startOffset := 1 |})
           (js "x" ++ [LF] ++ js "y")
         = KeyEdit (js "abcx" ++ [LF] ++ js "ydef") (Some pos').
Proof.
  eexists. split; [vm_compute; reflexivity|]. split; [reflexivity|].
  match goal with
  | |- exists p, onPaste ?c ?sel ?t = _ =>
      destruct (paste_inserts_text c sel {| lineIndex := 0; offset := 3 |} t)
        as (md' & pos' & H1 & H2 & _);
      [reflexivity|split; vm_compute; lia|discriminate|
       exists pos'; rewrite H1, H2; reflexivity]
  end.
Defined.

(** ** The tags of styled markup *)

Lemma tagsFrom_body : forall body acc x,
  forallb tagSafe body = true ->
  tagsFrom (Some acc) (body ++ ch ">" :: x) = (rev acc ++ body) :: tagsFrom None x.
Proof.
  induction body as [|c body IH]; intros acc x H.
  - cbn [app tagsFrom]. change (isCh ">" (ch ">")) with true. cbv iota.
    now rewrite app_nil_r.
  - cbn [forallb] in H. apply andb_prop in H. destruct H as [Hc H].
    cbn [app tagsFrom]. rewrite (tagSafe_not_close c Hc).
    etransitivity; [exact (IH (c :: acc) x H)|].
    cbn [rev]. now rewrite <- app_assoc.
Qed.

Lemma tagsOf_cons : forall c s, isCh "<" c = false -> tagsOf (c :: s) = tagsOf s.
Proof. intros c s H. unfold tagsOf. cbn [tagsFrom]. now rewrite H. Qed.

Lemma tagsOf_tag : forall body s,
  forallb tagSafe body = true -> tagsOf (ch "<" :: body ++ ch ">" :: s) = body :: tagsOf s.
Proof.
  intros body s H. unfold tagsOf. cbn [tagsFrom]. change (isCh "<" (ch "<")) with true.
  cbv iota. exact (tagsFrom_body body [] s H).
Qed.

Lemma tagsOf_through : forall a x,
  forallb (fun c => negb (isCh "<" c)) a = true -> tagsOf (a ++ x) = tagsOf x.
Proof.
  induction a as [|c a IH]; intros x H; [reflexivity|].
  cbn [forallb] in H. apply andb_prop in H. destruct H as [Hc H].
  cbn [app]. rewrite tagsOf_cons by (now destruct (isCh "<" c)). now apply IH.
Qed.

Lemma holder_no_tag : forall i,
  forallb (fun c => negb (isCh "<" c)) (placeholder i) = true.
Proof.
  intros i. pose proof (placeholder_phChar i) as H. rewrite forallb_forall in *.
  intros c Hc. now rewrite (proj2 (phChar_readMarker c (H c Hc))).
Qed.

Lemma tagsOf_holder : forall i s, tagsOf (placeholder i ++ s) = tagsOf s.
Proof. intros i s. apply tagsOf_through, holder_no_tag. Qed.

Lemma tagsOf_app : forall n a b,
  styled n a -> tagsFrom None (a ++ b) = tagsFrom None a ++ tagsFrom None b.
Proof.
  intros n a b H. fold (tagsOf (a ++ b)) (tagsOf a) (tagsOf b).
  induction H as [|c s H0 H1 H2 Hs IH|body s Hbody Hs IH|i s Hi Hs IH].
  - reflexivity.
  - cbn [app]. now rewrite !tagsOf_cons by exact H1.
  - replace ((ch "<" :: body ++ ch ">" :: s) ++ b) with (ch "<" :: body ++ ch ">" :: s ++ b)
      by (cbn [app]; now rewrite <- app_assoc).
    rewrite !tagsOf_tag by exact Hbody. cbn [app]. now rewrite IH.
  - rewrite <- app_assoc, !tagsOf_holder. exact IH.
Qed.

Section ReplaceTags.
Variable n : nat.
Variable r : re.
Variable f : captures -> str.
Variable ok : str -> bool.
Hypothesis starts_at_delimiter :
  forall pre c rest, isDelimiter c = false -> exec r pre (c :: rest) = None.
Hypothesis never_empty : forall pre, exec r pre [] = None.
Hypothesis keeps_styled : forall pre rest pre' rest' cs,
  exec r pre rest = Some (pre', rest', cs) ->
  styled n rest ->
  styled n (f cs) /\ styled n rest' /\ length rest' < length rest
  /\ visible (f cs) ++ visible rest' = visible rest.
Hypothesis keeps_tags : forall pre rest pre' rest' cs,
  exec r pre rest = Some (pre', rest', cs) ->
  styled n rest ->
  forallb ok (tagsOf rest) = true ->
  forallb ok (tagsOf (f cs)) = true /\ forallb ok (tagsOf rest') = true.

Lemma replace_all_from_tags : forall k rest pre,
  length rest <= k -> styled n rest -> forallb ok (tagsOf rest) = true ->
  forallb ok (tagsOf (replace_all_from r f pre rest 0)) = true.
Proof.
  induction k as [|k IH]; intros rest pre Hk H Ht.
  - destruct rest; [|simpl in Hk; lia]. simpl. now rewrite never_empty.
  - destruct H as [|c s H0 H1 H2 Hs|body s Hbody Hs|i s Hi Hs].
    + simpl. now rewrite never_empty.
    + destruct (exec r pre (c :: s)) as [[[pre' rest'] cs]|] eqn:E.
      * destruct (keeps_styled _ _ _ _ _ E (@styled_char n c s H0 H1 H2 Hs))
          as (Hf & Hr & Hlen & _).
        destruct (keeps_tags _ _ _ _ _ E (@styled_char n c s H0 H1 H2 Hs) Ht) as [Tf Tr].
        rewrite (replace_all_from_match _ _ _ _ _ _ _ E Hlen).
        unfold tagsOf. rewrite (tagsOf_app n _ _ Hf), forallb_app.
        fold (tagsOf (f cs)). rewrite Tf. cbn [andb].
        apply IH; [simpl in *; lia|exact Hr|exact Tr].
      * cbn [replace_all_from]. rewrite E. rewrite tagsOf_cons in * by exact H1.
        apply IH; [simpl in Hk; lia|exact Hs|exact Ht].
    + rewrite tagsOf_tag in Ht by exact Hbody. cbn [forallb] in Ht.
      apply andb_prop in Ht. destruct Ht as [Tb Ts].
      replace (ch "<" :: body ++ ch ">" :: s) with ((ch "<" :: body ++ [ch ">"]) ++ s)
        by (simpl; now rewrite <- app_assoc).
      rewrite (replace_all_from_through r f _ (not_at_delimiter r starts_at_delimiter) _ _ _
                 (tag_not_delimiter body Hbody)).
      cbn [app]. rewrite <- !app_assoc. cbn [app]. rewrite tagsOf_tag by exact Hbody.
      cbn [forallb]. rewrite Tb. cbn [andb].
      apply IH; [|exact Hs|exact Ts].
      cbn [length] in Hk. rewrite length_app in Hk. cbn [length] in Hk. lia.
    + rewrite tagsOf_holder in Ht.
      rewrite (replace_all_from_through r f _ (not_at_delimiter r starts_at_delimiter) _ _ _
                 (holder_not_delimiter i)).
      rewrite tagsOf_holder. apply IH; [|exact Hs|exact Ht].
      rewrite length_app in Hk. destruct (placeholder_head i) as [t E]. rewrite E in Hk.
      simpl in Hk. lia.
Qed.

Lemma replace_all_tags : forall s,
  styled n s -> forallb ok (tagsOf s) = true -> forallb ok (tagsOf (replace_all r f s)) = true.
Proof.
  intros s H Ht. unfold replace_all. now apply (replace_all_from_tags (length s)).
Qed.
End ReplaceTags.

Lemma tagsFrom_cons : forall c s,
  isCh "<" c = false -> tagsFrom None (c :: s) = tagsFrom None s.
Proof. exact tagsOf_cons. Qed.

Ltac split_tags :=
  repeat match goal with
  | Ht : forallb _ (tagsFrom None (?d :: ?s)) = true |- _ =>
      rewrite (tagsFrom_cons d s eq_refl) in Ht
  | Ht : forallb _ (tagsFrom None (?a ++ ?x)) = true, Hs : styled ?n ?a |- _ =>
      rewrite (tagsOf_app n a x Hs), forallb_app in Ht;
      apply andb_prop in Ht; destruct Ht
  end.

Ltac tags_literal :=
  repeat (cbn; repeat rewrite <- app_assoc; cbn;
          repeat match goal with
          | Hg : styled ?n ?g |- context [tagsFrom None (?g ++ ?x)] =>
              rewrite (tagsOf_app n g x Hg), forallb_app
          end;
          repeat match goal with
          | Hg : forallb ?ok (tagsFrom None ?g) = true
            |- context [forallb ?ok (tagsFrom None ?g)] => rewrite Hg
          end).

Ltac keeps_tags_tac :=
  let pre := fresh "pre" in let rest := fresh "rest" in let pre' := fresh "pre'" in
  let rest' := fresh "rest'" in let cs := fresh "cs" in let E := fresh "E" in
  let H := fresh "H" in let Ht := fresh "Ht" in let m := fresh "m" in
  let Hms := fresh "Hms" in
  intros pre rest pre' rest' cs E H Ht;
  destruct (exec_sound _ _ _ _ _ _ E) as (m & -> & -> & Hms); clear E;
  unfold_inline_patterns; cbn in Hms; inv_ms;
  unfold tagsOf in *;
  repeat rewrite <- app_assoc in H; cbn [app] in H;
  repeat rewrite <- app_assoc in Ht; cbn [app] in Ht;
  split_styled; split_tags;
  split; [|assumption];
  unfold syn, tagged; unfold span, q, dq;
  tags_literal; reflexivity.

Ltac pass_tags H Ht :=
  apply replace_all_tags with (n := ltac:(match type of H with styled ?n _ => exact n end));
  [starts_at_delimiter_tac | never_empty_tac | keeps_styled_tac | keeps_tags_tac
  | exact H | exact Ht].

Lemma styleImages_tags : forall n s,
  styled n s -> forallb plainTag (tagsOf s) = true ->
  forallb plainTag (tagsOf (styleImages s)) = true.
Proof. intros n s H Ht. unfold styleImages. pass_tags H Ht. Qed.

Lemma styleFootnoteRefs_tags : forall n s,
  styled n s -> forallb plainTag (tagsOf s) = true ->
  forallb plainTag (tagsOf (styleFootnoteRefs s)) = true.
Proof. intros n s H Ht. unfold styleFootnoteRefs. pass_tags H Ht. Qed.

Lemma styleLinks_tags : forall n s,
  styled n s -> forallb plainTag (tagsOf s) = true ->
  forallb plainTag (tagsOf (styleLinks s)) = true.
Proof. intros n s H Ht. unfold styleLinks. pass_tags H Ht. Qed.

Lemma styleCode_tags : forall n s,
  styled n s -> forallb plainTag (tagsOf s) = true ->
  forallb plainTag (tagsOf (styleCode s)) = true.
Proof. intros n s H Ht. unfold styleCode. pass_tags H Ht. Qed.

Lemma styleMath_tags : forall n s,
  styled n s -> forallb plainTag (tagsOf s) = true ->
  forallb plainTag (tagsOf (styleMath s)) = true.
Proof. intros n s H Ht. unfold styleMath. pass_tags H Ht. Qed.

Lemma styleStrike_tags : forall n s,
  styled n s -> forallb plainTag (tagsOf s) = true ->
  forallb plainTag (tagsOf (styleStrike s)) = true.
Proof. intros n s H Ht. unfold styleStrike. pass_tags H Ht. Qed.

Lemma restoreMarkers_tags : forall n s,
  styled n s -> forallb plainTag (tagsOf s) = true ->
  forallb plainTag (tagsOf (restoreMarkers s)) = true.
Proof.
  intros n s H Ht. unfold restoreMarkers.
  assert (H1 : styled n (replace_all (Chr (cu_eqb ASTERISK)) (fun _ => js "*") s)
               /\ visible (replace_all (Chr (cu_eqb ASTERISK)) (fun _ => js "*") s)
                  = visible s) by pass_styled H.
  destruct H1 as [H1 _].
  assert (Ht1 : forallb plainTag
                  (tagsOf (replace_all (Chr (cu_eqb ASTERISK)) (fun _ => js "*") s)) = true)
    by pass_tags H Ht.
  pass_tags H1 Ht1.
Qed.

(** The passes of the styler without emphasis open no emphasis tag and
    no escaped character. *)
Lemma styleSpansPlain_tags : forall n s,
  styled n (escapeHtml s) -> tagsOf (escapeHtml s) = [] ->
  forallb plainTag (tagsOf (styleSpansPlain s)) = true.
Proof.
  intros n s H Ht. unfold styleSpansPlain.
  assert (T0 : forallb plainTag (tagsOf (escapeHtml s)) = true) by now rewrite Ht.
  destruct (styleImages_styled n _ H) as [H1 _].
  pose proof (styleImages_tags n _ H T0) as T1.
  destruct (styleFootnoteRefs_styled n _ H1) as [H2 _].
  pose proof (styleFootnoteRefs_tags n _ H1 T1) as T2.
  destruct (styleLinks_styled n _ H2) as [H3 _].
  pose proof (styleLinks_tags n _ H2 T2) as T3.
  destruct (restoreMarkers_styled n _ H3) as [H4 _].
  pose proof (restoreMarkers_tags n _ H3 T3) as T4.
  destruct (styleCode_styled n _ H4) as [H5 _].
  pose proof (styleCode_tags n _ H4 T4) as T5.
  destruct (styleMath_styled n _ H5) as [H6 _].
  pose proof (styleMath_tags n _ H5 T5) as T6.
  exact (styleStrike_tags n _ H6 T6).
Qed.

(** ** The escaped characters and their restoration *)

Lemma expandsTo_expands : forall chars s t l, expandsTo chars s t l -> expands chars s t.
Proof.
  intros chars s t l H. induction H as [|c s t l Hc H IH|i c s t l Hi H IH].
  - apply expands_nil.
  - now apply expands_char.
  - now apply expands_holder.
Qed.

Lemma escapesOf_skip : forall pre x rest,
  exec escapeRe pre (x :: rest) = None -> escapesOf (x :: rest) = escapesOf rest.
Proof.
  intros pre x rest E. destruct rest as [|c rest]; [reflexivity|].
  cbn [escapesOf]. unfold exec, escapeRe in E. cbn -[isCh isEscapable] in E.
  destruct (isCh "\" x); [|reflexivity].
  destruct (isEscapable c); [discriminate E|reflexivity].
Qed.

(** The first replacement collects the escaped characters of the text,
    in order. *)
Lemma extract_escapes : forall k rest pre st,
  length rest <= k -> reservedFree rest = true ->
  exists out ext,
    replace_all_with_from escapeRe extractEscape st pre rest 0 = Some (out, st ++ ext)
    /\ forallb isEscapedChar ext = true
    /\ expandsTo (st ++ ext) out rest (escapesOf rest).
Proof.
  assert (Hnil : forall pre st,
            exists out ext,
              replace_all_with_from escapeRe extractEscape st pre [] 0 = Some (out, st ++ ext)
              /\ forallb isEscapedChar ext = true
              /\ expandsTo (st ++ ext) out [] (escapesOf [])).
  { intros pre st. exists [], []. rewrite app_nil_r. repeat split. apply expandsTo_nil. }
  induction k as [|k IH]; intros rest pre st Hk Hr.
  - destruct rest; [apply Hnil|simpl in Hk; lia].
  - destruct rest as [|x rest]; [apply Hnil|].
    destruct (exec escapeRe pre (x :: rest)) as [[[pre' rest'] cs]|] eqn:E.
    + destruct (exec_sound _ _ _ _ _ _ E) as (m & Em & Epre & Hms).
      unfold escapeRe in Hms. inv_ms. cbn [app] in Em. injection Em as -> ->.
      rewrite (replace_all_with_from_match _ _ _ _ _ _ _ _ _ E)
        by (cbn [length]; lia).
      rewrite extractEscape_eq.
      destruct (reservedFree_cons _ _ Hr) as (_ & _ & Hr1).
      destruct (reservedFree_cons _ _ Hr1) as (_ & _ & Hr2).
      match goal with
      | Hc : isEscapable ?c = true |- context [replace_all_with_from _ _ ?st1 ?p rest' 0] =>
          destruct (IH rest' p st1 ltac:(cbn [length] in Hk; lia) Hr2)
            as (o & ext & -> & Hext & Hexp);
          change (cap [(1, [c])] 1) with [c] in *;
          exists (placeholder (length st) ++ o), ([c] :: ext);
          rewrite <- app_assoc in *; cbn [app] in *;
          split; [reflexivity|]; split; [cbn [forallb isEscapedChar]; now rewrite Hc|];
          cbn [escapesOf]; change (isCh "\" 92%N) with true; rewrite Hc; cbn [andb];
          change 92%N with (ch "\");
          apply expandsTo_holder; [|exact Hexp];
          rewrite nth_error_app2 by lia; now rewrite Nat.sub_diag
      end.
    + cbn [replace_all_with_from]. rewrite E.
      destruct (reservedFree_cons _ _ Hr) as (Hx & _ & Hr1).
      destruct (IH rest (x :: pre) st ltac:(cbn [length] in Hk; lia) Hr1)
        as (o & ext & -> & Hext & Hexp).
      exists (x :: o), ext. repeat split; [exact Hext|].
      rewrite (escapesOf_skip pre x rest E). now apply expandsTo_char.
Qed.

Lemma text_no_tag : forall e,
  forallb isText e = true -> forallb (fun c => negb (isCh "<" c)) e = true.
Proof.
  intros e H. rewrite forallb_forall in *. intros c Hc.
  destruct (isText_inv c (H c Hc)) as (_ & _ & -> & _). reflexivity.
Qed.

Lemma expandsTo_text_prefix : forall chars e s t l,
  forallb isText e = true -> expandsTo chars s t l -> expandsTo chars (e ++ s) (e ++ t) l.
Proof.
  intros chars. induction e as [|c e IH]; intros s t l H Hs; [exact Hs|].
  cbn [forallb] in H. apply andb_prop in H. destruct H as [Hc He].
  destruct (isText_inv c Hc) as (H0 & _). cbn [app]. apply expandsTo_char; auto.
Qed.

(** [escapeHtml] keeps the placeholders, what they stand for and the
    characters collected, and writes no tag. *)
Lemma escape_expandsTo : forall chars s t l,
  forallb isEscapedChar chars = true ->
  expandsTo chars s t l -> reservedFree t = true ->
  expandsTo chars (escapeHtml s) (escapeHtml t) l /\ tagsOf (escapeHtml s) = [].
Proof.
  intros chars s t l Hchars H.
  induction H as [|c s t l Hc H IH|i c s t l Hi H IH]; intros Hr.
  - split; [apply expandsTo_nil|reflexivity].
  - destruct (reservedFree_cons _ _ Hr) as (_ & Hm & Hr').
    destruct (IH Hr') as (IH1 & IH2).
    rewrite (escapeHtml_cons c s), (escapeHtml_cons c t).
    pose proof (escaped_char_text c Hc Hm) as Ht. split.
    + now apply expandsTo_text_prefix.
    + rewrite (tagsOf_through _ _ (text_no_tag _ Ht)). exact IH2.
  - destruct (reservedFree_cons _ _ Hr) as (_ & _ & Hr1).
    destruct (reservedFree_cons _ _ Hr1) as (_ & _ & Hr2).
    destruct (IH Hr2) as (IH1 & IH2).
    destruct (collected_char chars i c Hchars Hi) as [Hesc Hlt].
    destruct (escapable_unescaped c Hesc) as [Ec _].
    rewrite escapeHtml_app, escapeHtml_placeholder.
    rewrite (escapeHtml_cons (ch "\") (c :: t)), (escapeHtml_cons c t), Ec.
    change (escapeHtml [ch "\"]) with [ch "\"]. cbn [app]. split.
    + now apply expandsTo_holder.
    + rewrite tagsOf_holder. exact IH2.
Qed.

Lemma expandsTo_nil_inv : forall chars t l, expandsTo chars [] t l -> l = [].
Proof.
  intros chars t l H. remember [] as s eqn:Es.
  destruct H as [|c s t l Hc H|i c s t l Hi H].
  - reflexivity.
  - discriminate Es.
  - destruct (placeholder_head i) as [x Ex]. rewrite Ex in Es. discriminate Es.
Qed.

Lemma expandsTo_cons_inv : forall chars (c : cu) v t l,
  c <> 0%N -> expandsTo chars (c :: v) t l ->
  exists t', expandsTo chars v t' l.
Proof.
  intros chars c v t l Hc H. remember (c :: v) as s eqn:Es.
  destruct H as [|c' s t l Hc' H|i c' s t l Hi H].
  - discriminate Es.
  - injection Es as -> ->. now exists t.
  - destruct (placeholder_head i) as [x Ex]. rewrite Ex in Es. injection Es as <- _.
    now contradiction Hc.
Qed.

Lemma expandsTo_holder_inv : forall chars i v t l,
  expandsTo chars (placeholder i ++ v) t l ->
  exists c t' l', nth_error chars i = Some [c] /\ l = c :: l' /\ expandsTo chars v t' l'.
Proof.
  intros chars i v t l H. remember (placeholder i ++ v) as s eqn:Es.
  destruct H as [|c' s t l Hc' H|j c' s t l Hj H].
  - destruct (placeholder_head i) as [x Ex]. rewrite Ex in Es. discriminate Es.
  - destruct (placeholder_head i) as [x Ex]. rewrite Ex in Es. injection Es as -> _.
    now contradiction Hc'.
  - symmetry in Es. apply placeholder_inj in Es. destruct Es as [-> ->].
    now exists c', t, l.
Qed.

Lemma escapedSpanChars_cons : forall c s,
  isCh "<" c = false -> escapedSpanChars (c :: s) = escapedSpanChars s.
Proof.
  intros c s H. cbn [escapedSpanChars]. unfold escapedOpen. cbn -[cu_eqb isCh escapedSpanChars].
  unfold isCh in H. unfold ch in H. cbn in H. rewrite H. reflexivity.
Qed.

Lemma escapedSpanChars_through : forall a s,
  forallb (fun c => negb (isCh "<" c)) a = true ->
  escapedSpanChars (a ++ s) = escapedSpanChars s.
Proof.
  induction a as [|c a IH]; intros s H; [reflexivity|].
  cbn [forallb] in H. apply andb_prop in H. destruct H as [Hc H].
  cbn [app]. rewrite escapedSpanChars_cons by (now destruct (isCh "<" c)).
  now apply IH.
Qed.

Lemma startsWith_tag : forall body lit_ x y,
  forallb (notCh ">") body = true -> forallb (notCh ">") lit_ = true ->
  startsWith (body ++ ch ">" :: x) (lit_ ++ ch ">" :: y) = true -> str_eqb body lit_ = true.
Proof.
  induction body as [|c body IH]; intros [|d lit_] x y Hb Hl H; cbn [app startsWith str_eqb] in *.
  - reflexivity.
  - apply andb_prop in H. destruct H as [H _]. apply andb_prop in Hl. destruct Hl as [Hl _].
    unfold notCh in Hl. unfold cu_eqb in *. rewrite N.eqb_sym in H. rewrite H in Hl.
    discriminate Hl.
  - apply andb_prop in H. destruct H as [H _]. apply andb_prop in Hb. destruct Hb as [Hb _].
    unfold notCh in Hb. rewrite H in Hb. discriminate Hb.
  - apply andb_prop in H. destruct H as [H1 H2]. apply andb_prop in Hb, Hl.
    rewrite H1. cbn [andb]. exact (IH lit_ x y (proj2 Hb) (proj2 Hl) H2).
Qed.

(** A tag other than the opening of an escaped character shows none. *)
Lemma escapedSpanChars_tag : forall body s,
  forallb tagSafe body = true ->
  str_eqb body (js "span class=" ++ q "md-escaped") = false ->
  escapedSpanChars (ch "<" :: body ++ ch ">" :: s) = escapedSpanChars s.
Proof.
  intros body s Hbody Hne.
  assert (Hin : forallb (fun c => negb (isCh "<" c)) (body ++ [ch ">"]) = true).
  { rewrite forallb_app. cbn [forallb]. change (negb (isCh "<" (ch ">"))) with true.
    rewrite !andb_true_r. rewrite forallb_forall in *. intros c Hc.
    specialize (Hbody c Hc). unfold tagSafe in Hbody.
    destruct (isCh "<" c); [|reflexivity]. rewrite andb_false_r in Hbody. discriminate. }
  cbn [escapedSpanChars].
  replace (body ++ ch ">" :: s) with ((body ++ [ch ">"]) ++ s) at 3
    by (now rewrite <- app_assoc).
  rewrite (escapedSpanChars_through _ s Hin).
  destruct (startsWith (ch "<" :: body ++ ch ">" :: s) escapedOpen) eqn:E; [|reflexivity].
  exfalso. unfold escapedOpen in E.
  change (js "<span class=" ++ q "md-escaped" ++ js ">" ++ syn (js "\"))
    with (ch "<" :: (js "span class=" ++ q "md-escaped") ++ ch ">" :: syn (js "\")) in E.
  cbn [startsWith] in E. apply andb_prop in E. destruct E as [_ E].
  apply startsWith_tag in E; [congruence|now apply tagSafe_inside|reflexivity].
Qed.

(** The span written for an escaped character opens no emphasis tag and
    shows the character. *)
Lemma escaped_span_chars : forall c o,
  isEscapable c = true ->
  let out := span "md-escaped" (syn (js "\") ++ escapeHtml [c]) ++ o in
  existsb isEmphasisTag (tagsOf out) = existsb isEmphasisTag (tagsOf o)
  /\ escapedSpanChars out = c :: escapedSpanChars o.
Proof.
  intros c o Hc out. subst out.
  destruct (escapable_unescaped c Hc) as [-> Ht].
  destruct (isText_inv c Ht) as (H0 & Hr & Hl & Hg).
  assert (Hl' : N.eqb c 60 = false) by exact Hl.
  assert (Hg' : N.eqb c 62 = false) by exact Hg.
  unfold syn; unfold span, q, dq. cbn -[escapedSpanChars tagsOf]. repeat rewrite <- app_assoc.
  cbn -[escapedSpanChars tagsOf]. split.
  - unfold tagsOf. cbn. unfold isCh, cu_eqb, ch. cbn. rewrite Hl'. cbn. reflexivity.
  - cbn. unfold cu_eqb. rewrite Hl'. cbn. now destruct o.
Qed.

(** The last replacement puts the collected characters back, each in a
    span of its own, in the order of the text, and adds no other tag. *)
Lemma restore_spans : forall chars,
  forallb isEscapedChar chars = true ->
  forall s, styled (length chars) s -> forallb plainTag (tagsOf s) = true ->
  forall pre t l, expandsTo chars (visible s) t l ->
  forall out, replace_all_with_from restoreRe (restoreEscape chars) tt pre s 0 = Some (out, tt) ->
    existsb isEmphasisTag (tagsOf out) = false /\ escapedSpanChars out = l.
Proof.
  intros chars Hchars s H.
  induction H as [|c s H0 H1 H2 Hs IH|body s Hbody Hs IH|i s Hi Hs IH];
    intros Ht pre t l Hexp out E.
  - apply expandsTo_nil_inv in Hexp. subst l. cbn in E. injection E as <-. now split.
  - assert (Ht1 : forallb plainTag (tagsOf s) = true)
      by (rewrite <- (tagsOf_cons c s H1); exact Ht).
    clear Ht. rename Ht1 into Ht.
    unfold visible in Hexp. cbn [visibleFrom] in Hexp. rewrite H1 in Hexp.
    apply expandsTo_cons_inv in Hexp.
    2:{ intros Ec. apply H0. unfold readMarker in Ec.
        destruct (cu_eqb c ASTERISK); [discriminate Ec|].
        destruct (cu_eqb c UNDERSCORE); [discriminate Ec|exact Ec]. }
    destruct Hexp as (t' & Hexp).
    cbn [replace_all_with_from] in E. rewrite restore_starts_at_nul in E
      by (unfold cu_eqb; destruct (N.eqb_spec c 0); [contradiction|reflexivity]).
    match type of E with
    | context [replace_all_with_from _ _ _ ?p s 0] =>
        destruct (replace_all_with_from restoreRe (restoreEscape chars) tt p s 0)
          as [[o []]|] eqn:Eo; [|discriminate E];
        destruct (IH Ht p t' l Hexp o Eo) as [I1 I2]
    end.
    injection E as <-. cbn [app]. split.
    + etransitivity; [exact (f_equal (existsb isEmphasisTag) (tagsOf_cons c o H1))|exact I1].
    + etransitivity; [exact (escapedSpanChars_cons c o H1)|exact I2].
  - assert (Ht1 : forallb plainTag (body :: tagsOf s) = true)
      by (rewrite <- (tagsOf_tag body s Hbody); exact Ht).
    clear Ht. rename Ht1 into Ht. cbn [forallb] in Ht.
    apply andb_prop in Ht. destruct Ht as [Hb Ht].
    unfold plainTag in Hb. apply andb_prop in Hb. destruct Hb as [Hb1 Hb2].
    apply negb_true_iff in Hb1, Hb2.
    assert (Hv : visible (ch "<" :: body ++ ch ">" :: s) = visible s)
      by exact (visible_tag body s Hbody).
    rewrite Hv in Hexp.
    replace (ch "<" :: body ++ ch ">" :: s) with ((ch "<" :: body ++ [ch ">"]) ++ s) in E
      by (cbn [app]; now rewrite <- app_assoc).
    rewrite (replace_all_with_from_through _ _ _ _ restore_starts_at_nul _ _ _ _
               (tag_nulFree body Hbody)) in E.
    match type of E with
    | context [replace_all_with_from _ _ _ ?p s 0] =>
        destruct (replace_all_with_from restoreRe (restoreEscape chars) tt p s 0)
          as [[o []]|] eqn:Eo; [|discriminate E];
        destruct (IH Ht p t l Hexp o Eo) as [I1 I2]
    end.
    injection E as <-. cbn [app]. rewrite <- app_assoc. cbn [app].
    pose proof (tagsOf_tag body o Hbody) as T1.
    pose proof (escapedSpanChars_tag body o Hbody Hb2) as T2.
    split.
    + etransitivity; [exact (f_equal (existsb isEmphasisTag) T1)|].
      cbn [existsb]. now rewrite Hb1, I1.
    + etransitivity; [exact T2|exact I2].
  - rewrite tagsOf_holder in Ht. rewrite visible_holder in Hexp.
    apply expandsTo_holder_inv in Hexp. destruct Hexp as (c & t' & l' & Hn & -> & Hexp).
    destruct (collected_char chars i c Hchars Hn) as [Hesc _].
    rewrite (replace_all_with_from_match _ _ _ _ _ _ _ _ _ (exec_restore_placeholder i s pre))
      in E.
    + unfold restoreEscape at 1 in E. change (cap [(1, decimal i)] 1) with (decimal i) in E.
      rewrite parseInt_decimal, Nat2N.id, Hn in E.
      match type of E with
      | context [replace_all_with_from _ _ _ ?p s 0] =>
          destruct (replace_all_with_from restoreRe (restoreEscape chars) tt p s 0)
            as [[o []]|] eqn:Eo; [|discriminate E];
          destruct (IH Ht p t' l' Hexp o Eo) as [I1 I2]
      end.
      injection E as <-.
      destruct (escaped_span_chars c o Hesc) as [S1 S2].
      split.
      * etransitivity; [exact S1|exact I1].
      * etransitivity; [exact S2|]. now rewrite I2.
    + rewrite length_app. destruct (placeholder_head i) as [x Ex]. rewrite Ex.
      cbn [length]. lia.
Qed.

(** Styled text whose markers are all escaped: the tags of the result
    and the characters of its escaped spans. *)
Lemma styleInline_spans : forall text,
  markersEscaped text = true -> reservedFree text = true ->
  forall out, styleInline text = Some out ->
    existsb isEmphasisTag (tagsOf out) = false /\ escapedSpanChars out = escapesOf text.
Proof.
  intros text Hm Hr out E. unfold styleInline in E. destruct text as [|c text].
  { injection E as <-. now split. }
  remember (c :: text) as line eqn:El. clear El c text.
  unfold markersEscaped in Hm. unfold replace_all_with in *.
  destruct (extract_escapes (length line) line [] [] (le_n _) Hr)
    as (s1 & chars & E1 & Hchars & Hexp).
  cbn [app] in *. rewrite E1 in Hm, E. cbn [bind] in E.
  destruct (escape_expands chars s1 line Hchars (expandsTo_expands _ _ _ _ Hexp) Hr)
    as (Hs & Hv & _).
  destruct (escape_expandsTo chars s1 line _ Hchars Hexp Hr) as (Hexp' & Ht).
  destruct (styleSpans_styled _ _ Hs) as (Hs2 & Hv2 & _).
  pose proof (styleSpansPlain_tags _ _ Hs Ht) as Ht2.
  rewrite <- (styleSpans_plain s1 Hm) in Ht2.
  rewrite <- Hv, <- Hv2 in Hexp'.
  destruct (replace_all_with_from restoreRe (restoreEscape chars) tt [] (styleSpans s1) 0)
    as [[o []]|] eqn:Eo; [|discriminate E].
  cbn [bind fst] in E. injection E as <-.
  exact (restore_spans chars Hchars _ Hs2 Ht2 [] _ _ Hexp' o Eo).
Qed.


